(** * StatusPing notification digest engine

    A shallow embedding of the job queue ([api/src/jobs/queue.ts]), the
    digest jobs ([api/src/jobs/digest.job.ts]), the scheduler
    ([api/src/jobs/scheduler.ts]) and the public subscribe route
    ([POST /timeline/:token/subscribe]) together with the properties of
    the notification pipeline.

    Conventions of the embedding:
    - a [Date] is its number of milliseconds since the Unix epoch, a [Z];
    - uuid and varchar columns are [string]s, nullable columns are [option]s;
    - a table is the [list] of its rows, in insertion order;
    - integer columns are unbounded [Z] (PostgreSQL raises on overflow of a
      32-bit column, out of reach for an attempts counter);
    - an [async] function is a computation in the monad [M]: it threads the
      [World] (database, scheduler memory, log of e-mails handed to the
      transport) and either returns a value or throws;
    - what the program cannot decide is read from an [Env]: the wall clock,
      database connectivity, the uuid generator, the e-mail provider, the
      order in which a [SELECT DISTINCT] returns its rows and whether
      PostgreSQL accepts a timestamp computed from a request. *)

From Stdlib Require Import ZArith List String Ascii Bool Lia Arith Sorted.
Import ListNotations.

Local Open Scope string_scope.
Local Open Scope list_scope.
Local Open Scope Z_scope.

(* ================================================================== *)
(** ** Data model *)

Definition Id := string.
Definition Date := Z.

(** [JobPayload]: the jsonb payload of a job.  [daily_digest] and
    [weekly_digest] carry the same shape. *)
Inductive Payload : Type :=
| InstantPayload (projectId updateId : Id) (subscriberIds : list Id)
| ProjectPayload (projectId : Id).

(** A row of [job_queue] (schema/job-queue.ts). *)
Record Job : Type := mkJob {
  job_id : Id;
  job_type : string;
  job_payload : Payload;
  job_status : option string;
  job_attempts : option Z;
  job_scheduledFor : option Date;
  job_createdAt : option Date
}.

(** A row of [digest_subscriptions] (schema/digest-subscriptions.ts). *)
Record Subscription : Type := mkSubscription {
  sub_id : Id;
  sub_projectId : Id;
  sub_email : string;
  sub_frequency : option string;
  sub_lastSentAt : option Date;
  sub_createdAt : option Date
}.

(** Rows of [updates], [images], [links] and [projects]; only the columns
    the digest engine reads. *)
Record Update : Type := mkUpdate {
  upd_id : Id;
  upd_projectId : Id;
  upd_content : string;
  upd_createdAt : option Date
}.

Record Image : Type := mkImage {
  img_id : Id;
  img_updateId : Id;
  img_url : string
}.

Record Link : Type := mkLink {
  link_id : Id;
  link_updateId : Id;
  link_url : string
}.

Record Project : Type := mkProject {
  proj_id : Id;
  proj_name : string;
  proj_magicLinkToken : option string;
  proj_brandingColor : option string;
  proj_brandingLogoUrl : option string
}.

(** [UpdateWithMedia]: an update with its images and links attached. *)
Record UpdateWithMedia : Type := mkUpdateWithMedia {
  uwm_update : Update;
  uwm_images : list Image;
  uwm_links : list Link
}.

(** [EmailSendResult] of email.service.ts. *)
Record EmailSendResult : Type := mkResult {
  success : bool;
  messageId : option string;
  error : option string
}.

(** The templates are opaque renderers (data in, strings out), so an e-mail
    is identified with the data it is rendered from. *)
Inductive EmailKind : Type :=
| InstantUpdate
| DailyDigest
| WeeklyDigest (weekStartDate weekEndDate : Date)
| SubscriptionConfirmed (frequency : string).

Record Email : Type := mkEmail {
  to : string;
  kind : EmailKind;
  projectName : string;
  projectToken : option string;
  projectColor : option string;
  projectLogoUrl : option string;
  email_updates : list UpdateWithMedia
}.

(** [ScheduleState] of scheduler.ts: last run per cadence, in memory. *)
Record ScheduleState : Type := mkScheduleState {
  dailyDigest : option Date;
  weeklyDigest : option Date;
  cleanup : option Date
}.

(** The state a computation threads. [outbox] logs every call of
    [sendEmail] with its result; [clockReads], [dbOps] and [uuids] count
    the clock readings, database round trips and generated ids so far. *)
Record World : Type := mkWorld {
  jobQueue : list Job;
  digestSubscriptions : list Subscription;
  updates : list Update;
  images : list Image;
  links : list Link;
  projects : list Project;
  scheduleState : ScheduleState;
  outbox : list (Email * EmailSendResult);
  clockReads : nat;
  dbOps : nat;
  uuids : nat
}.

(** What the environment decides. [clock n] is the n-th reading of the wall
    clock, [dbFails n] tells whether the n-th database round trip fails
    (connectivity), [uuid n] is the n-th generated id, [RESEND_API_KEY]
    tells whether the provider is configured and [resend n e] is the
    provider's answer to the n-th e-mail.  A [SELECT DISTINCT] has no
    [ORDER BY]: after [n] round trips its rows come back by increasing
    [rowRank n], whatever the plan of the database makes of it.
    [timestampAccepted d] tells whether PostgreSQL accepts the literal the
    driver makes of the valid date [d]; that depends on the versions of the
    driver and the server once the year has not four digits. *)
Record Env : Type := mkEnv {
  clock : nat -> Date;
  dbFails : nat -> bool;
  uuid : nat -> Id;
  RESEND_API_KEY : bool;
  resend : nat -> Email -> EmailSendResult;
  rowRank : nat -> Id -> nat;
  timestampAccepted : Date -> bool
}.

(* ------------------------------------------------------------------ *)
(** *** Field updates of the world *)

Definition set_jobQueue (f : list Job -> list Job) (w : World) : World :=
  mkWorld (f (jobQueue w)) (digestSubscriptions w) (updates w) (images w)
    (links w) (projects w) (scheduleState w) (outbox w) (clockReads w)
    (dbOps w) (uuids w).

Definition set_digestSubscriptions
  (f : list Subscription -> list Subscription) (w : World) : World :=
  mkWorld (jobQueue w) (f (digestSubscriptions w)) (updates w) (images w)
    (links w) (projects w) (scheduleState w) (outbox w) (clockReads w)
    (dbOps w) (uuids w).

Definition set_scheduleState (f : ScheduleState -> ScheduleState) (w : World)
  : World :=
  mkWorld (jobQueue w) (digestSubscriptions w) (updates w) (images w)
    (links w) (projects w) (f (scheduleState w)) (outbox w) (clockReads w)
    (dbOps w) (uuids w).

Definition set_outbox
  (f : list (Email * EmailSendResult) -> list (Email * EmailSendResult))
  (w : World) : World :=
  mkWorld (jobQueue w) (digestSubscriptions w) (updates w) (images w)
    (links w) (projects w) (scheduleState w) (f (outbox w)) (clockReads w)
    (dbOps w) (uuids w).

Definition set_clockReads (f : nat -> nat) (w : World) : World :=
  mkWorld (jobQueue w) (digestSubscriptions w) (updates w) (images w)
    (links w) (projects w) (scheduleState w) (outbox w) (f (clockReads w))
    (dbOps w) (uuids w).

Definition set_dbOps (f : nat -> nat) (w : World) : World :=
  mkWorld (jobQueue w) (digestSubscriptions w) (updates w) (images w)
    (links w) (projects w) (scheduleState w) (outbox w) (clockReads w)
    (f (dbOps w)) (uuids w).

Definition set_uuids (f : nat -> nat) (w : World) : World :=
  mkWorld (jobQueue w) (digestSubscriptions w) (updates w) (images w)
    (links w) (projects w) (scheduleState w) (outbox w) (clockReads w)
    (dbOps w) (f (uuids w)).

Arguments set_jobQueue f w /.
Arguments set_digestSubscriptions f w /.
Arguments set_scheduleState f w /.
Arguments set_outbox f w /.
Arguments set_clockReads f w /.
Arguments set_dbOps f w /.
Arguments set_uuids f w /.

(* ================================================================== *)
(** ** The monad of asynchronous computations *)

Inductive Result (A : Type) : Type :=
| Ok (a : A)
| Throw (msg : string).
Arguments Ok {A} a.
Arguments Throw {A} msg.

Definition M (A : Type) : Type := World -> Result A * World.

Definition ret {A} (a : A) : M A := fun w => (Ok a, w).

Definition throw {A} (msg : string) : M A := fun w => (Throw msg, w).

Definition bind {A B} (m : M A) (k : A -> M B) : M B :=
  fun w =>
    match m w with
    | (Ok a, w') => k a w'
    | (Throw e, w') => (Throw e, w')
    end.

(** [try { m } catch (error) { h error }] *)
Definition try_catch {A} (m : M A) (h : string -> M A) : M A :=
  fun w =>
    match m w with
    | (Ok a, w') => (Ok a, w')
    | (Throw e, w') => h e w'
    end.

Definition gets {A} (f : World -> A) : M A := fun w => (Ok (f w), w).

Definition modify (f : World -> World) : M unit := fun w => (Ok tt, f w).

Declare Scope monad_scope.
Delimit Scope monad_scope with M.
Notation "x <- m ;; k" := (bind m (fun x => k))
  (at level 61, m at next level, right associativity) : monad_scope.
Notation "m ;;; k" := (bind m (fun _ => k))
  (at level 61, right associativity) : monad_scope.
Local Open Scope monad_scope.

(** [for (const x of xs) { body x }] *)
Fixpoint for_of {A} (xs : list A) (body : A -> M unit) : M unit :=
  match xs with
  | [] => ret tt
  | x :: xs' => body x ;;; for_of xs' body
  end.

(** [a || b] on a nullable integer: [null], and [0], are falsy. *)
Definition or_zero (a : option Z) : Z :=
  match a with
  | Some n => if n =? 0 then 0 else n
  | None => 0
  end.

Definition opt_eqb (a : option string) (s : string) : bool :=
  match a with
  | Some x => String.eqb x s
  | None => false
  end.

(** SQL [col <= d] and [col > d] on a nullable timestamp: NULL matches
    nothing. *)
Definition opt_leb (a : option Date) (d : Date) : bool :=
  match a with
  | Some x => x <=? d
  | None => false
  end.

Definition opt_gtb (a : option Date) (d : Date) : bool :=
  match a with
  | Some x => d <? x
  | None => false
  end.

Definition inArray (x : Id) (xs : list Id) : bool :=
  existsb (String.eqb x) xs.
Arguments inArray : simpl never.

(** JavaScript strings are modelled by ASCII strings: [\s] is the ASCII
    white space and [toLowerCase] maps [A-Z] to [a-z]. *)
Definition isSpace (c : ascii) : bool :=
  let n := nat_of_ascii c in
  ((9 <=? n)%nat && (n <=? 13)%nat) || (n =? 32)%nat.

Definition lowerChar (c : ascii) : ascii :=
  let n := nat_of_ascii c in
  if ((65 <=? n)%nat && (n <=? 90)%nat)%bool then ascii_of_nat (n + 32)
  else c.

Definition toLowerCase (s : string) : string :=
  string_of_list_ascii (map lowerChar (list_ascii_of_string s)).

Fixpoint dropSpaces (cs : list ascii) : list ascii :=
  match cs with
  | [] => []
  | c :: cs' => if isSpace c then dropSpaces cs' else cs
  end.

Definition trim (s : string) : string :=
  string_of_list_ascii
    (rev (dropSpaces (rev (dropSpaces (list_ascii_of_string s))))).

(** [[^\s@]] *)
Definition plainChar (c : ascii) : bool :=
  negb (isSpace c) && negb (Ascii.eqb c "@").

(** [/^[^\s@]+@[^\s@]+\.[^\s@]+$/.test(s)]: no white space, exactly one [@]
    with something before it, and after it a dot that is neither the first
    nor the last character. *)
Fixpoint splitAt (cs : list ascii) : option (list ascii * list ascii) :=
  match cs with
  | [] => None
  | c :: cs' =>
    if Ascii.eqb c "@" then Some ([], cs')
    else match splitAt cs' with
         | Some (a, b) => Some (c :: a, b)
         | None => None
         end
  end.

Definition emailRegex_test (s : string) : bool :=
  match splitAt (list_ascii_of_string s) with
  | Some (local, domain) =>
    negb (List.length local =? 0)%nat
    && forallb plainChar local
    && forallb plainChar domain
    && existsb (fun c => Ascii.eqb c ".") (removelast (tl domain))
  | None => false
  end.

Definition validFrequencies : list string := ["instant"; "daily"; "weekly"].

(** A JavaScript [Date] holds a time value within 8.64e15 milliseconds of
    the epoch; [new Date(ms)] outside that range is an Invalid Date. *)
Definition MAX_TIME_VALUE : Z := 8640000000000000.

Definition validTime (ms : Z) : bool :=
  (- MAX_TIME_VALUE <=? ms) && (ms <=? MAX_TIME_VALUE).

(** Rows in the order of a rank: a stable insertion sort.  Any order of
    distinct rows is the order of some rank, see [orderBy_any_order]. *)
Fixpoint insertBy (rank : Id -> nat) (x : Id) (l : list Id) : list Id :=
  match l with
  | [] => [x]
  | y :: l' =>
    if (rank x <=? rank y)%nat then x :: l else y :: insertBy rank x l'
  end.

Definition orderBy (rank : Id -> nat) (l : list Id) : list Id :=
  fold_right (insertBy rank) [] l.

(** The place of a row in a list. *)
Fixpoint position (l : list Id) (x : Id) : nat :=
  match l with
  | [] => O
  | y :: l' => if String.eqb y x then O else S (position l' x)
  end.

(** The answer of a route: HTTP status and message. *)
Record Response : Type := mkResponse {
  status : Z;
  message : string
}.

Section Program.

Variable E : Env.

(** [new Date()] and [Date.now()]: the next reading of the clock. *)
Definition newDate : M Date :=
  fun w => (Ok (clock E (clockReads w)), set_clockReads S w).

(** One round trip to the database; it throws when the connection fails. *)
Definition dbCall : M unit :=
  fun w =>
    let w' := set_dbOps S w in
    if dbFails E (dbOps w) then (Throw "database unreachable", w')
    else (Ok tt, w').

(** [gen_random_uuid()] *)
Definition newUuid : M Id :=
  fun w => (Ok (uuid E (uuids w)), set_uuids S w).

(* ================================================================== *)
(** ** Job queue (jobs/queue.ts) *)

Definition MAX_ATTEMPTS : Z := 3.

(** [enqueueJob(type, payload, scheduledFor?)]: [scheduledFor || new Date()]
    is evaluated first, then the row is inserted; the database fills in the
    id and [created_at]. *)
Definition enqueueJob (type : string) (payload : Payload)
  (scheduledFor : option Date) : M Job :=
  sched <- match scheduledFor with
           | Some d => ret d
           | None => newDate
           end ;;
  dbCall ;;;
  id <- newUuid ;;
  created <- newDate ;;
  let job := mkJob id type payload (Some "pending") (Some 0) (Some sched)
               (Some created) in
  modify (set_jobQueue (fun js => js ++ [job])) ;;;
  ret job.

(** [getPendingJobs(limit)] *)
Definition getPendingJobs (limit : nat) : M (list Job) :=
  now <- newDate ;;
  dbCall ;;;
  js <- gets jobQueue ;;
  ret (firstn limit
         (filter (fun j => opt_eqb (job_status j) "pending"
                           && opt_leb (job_scheduledFor j) now) js)).

(** [markJobProcessing(jobId)]; SQL [attempts + 1] of NULL is NULL. *)
Definition markJobProcessing (jobId : Id) : M unit :=
  dbCall ;;;
  modify (set_jobQueue (map (fun j =>
    if String.eqb (job_id j) jobId then
      mkJob (job_id j) (job_type j) (job_payload j) (Some "processing")
        (option_map (fun a => a + 1) (job_attempts j))
        (job_scheduledFor j) (job_createdAt j)
    else j))).

(** [markJobCompleted(jobId)] *)
Definition markJobCompleted (jobId : Id) : M unit :=
  dbCall ;;;
  modify (set_jobQueue (map (fun j =>
    if String.eqb (job_id j) jobId then
      mkJob (job_id j) (job_type j) (job_payload j) (Some "completed")
        (job_attempts j) (job_scheduledFor j) (job_createdAt j)
    else j))).

(** [markJobFailed(jobId, error)].  A column set to [undefined] is left
    out of the UPDATE. *)
Definition markJobFailed (jobId : Id) (error : string) : M unit :=
  dbCall ;;;
  js <- gets jobQueue ;;
  match filter (fun j => String.eqb (job_id j) jobId) js with
  | [] => ret tt
  | job :: _ =>
    let newAttempts := or_zero (job_attempts job) + 1 in
    let newStatus :=
      if MAX_ATTEMPTS <=? newAttempts then "failed" else "pending" in
    scheduledFor <-
      (if String.eqb newStatus "pending" then
         now <- newDate ;;
         ret (Some (now + newAttempts * newAttempts * 60 * 1000))
       else ret None) ;;
    dbCall ;;;
    modify (set_jobQueue (map (fun j =>
      if String.eqb (job_id j) jobId then
        mkJob (job_id j) (job_type j) (job_payload j) (Some newStatus)
          (Some newAttempts)
          (match scheduledFor with
           | Some d => Some d
           | None => job_scheduledFor j
           end)
          (job_createdAt j)
      else j)))
  end.

(** The WHERE clause of [cleanupOldJobs]. *)
Definition purgeable (cutoff : Date) (j : Job) : bool :=
  (opt_eqb (job_status j) "completed" || opt_eqb (job_status j) "failed")
  && opt_leb (job_createdAt j) cutoff.

(** [cleanupOldJobs(olderThanDays)].  The cutoff is
    [new Date(Date.now() - olderThanDays * 24 * 60 * 60 * 1000)], a
    parameter of both queries.  When it is an Invalid Date the first query
    throws (the RangeError of [toISOString], or PostgreSQL on what the driver
    sends for it), and so it does when PostgreSQL does not accept the
    timestamp; nothing is deleted then.  Within the range of a [Date] the
    arithmetic of the doubles is exact. *)
Definition cleanupOldJobs (olderThanDays : Z) : M Z :=
  now <- newDate ;;
  let cutoff := now - olderThanDays * 24 * 60 * 60 * 1000 in
  dbCall ;;;
  if negb (validTime cutoff) then throw "Invalid time value"
  else if negb (timestampAccepted E cutoff) then
    throw "timestamp out of range"
  else
    js <- gets jobQueue ;;
    let toDelete := filter (purgeable cutoff) js in
    if (List.length toDelete =? 0)%nat then ret 0
    else
      dbCall ;;;
      modify (set_jobQueue (filter (fun j => negb (purgeable cutoff j)))) ;;;
      ret (Z.of_nat (List.length toDelete)).

(* ================================================================== *)
(** ** E-mail service (services/email.service.ts) *)

(** [x || undefined] on a nullable string: [null] and the empty string are
    falsy. *)
Definition or_undefined (x : option string) : option string :=
  match x with
  | Some s => if String.eqb s "" then None else Some s
  | None => None
  end.

(** [sendEmail]: without an API key the send is skipped and reported as a
    success; otherwise the provider's answer decides, and an exception of
    the provider is turned into a failed result.  It never throws.  Every
    call is logged in [outbox] with its result. *)
Definition sendEmail (e : Email) : M EmailSendResult :=
  n <- gets (fun w => List.length (outbox w)) ;;
  let result :=
    if RESEND_API_KEY E then resend E n e
    else mkResult true (Some "dev-mode-skipped") None in
  modify (set_outbox (fun o => o ++ [(e, result)])) ;;;
  ret result.

Definition sendInstantUpdate (to_ : string) (project : Project)
  (update : UpdateWithMedia) : M EmailSendResult :=
  sendEmail (mkEmail to_ InstantUpdate (proj_name project)
               (proj_magicLinkToken project)
               (or_undefined (proj_brandingColor project))
               (or_undefined (proj_brandingLogoUrl project)) [update]).

Definition sendDailyDigest (to_ : string) (project : Project)
  (us : list UpdateWithMedia) : M EmailSendResult :=
  sendEmail (mkEmail to_ DailyDigest (proj_name project)
               (proj_magicLinkToken project)
               (or_undefined (proj_brandingColor project))
               (or_undefined (proj_brandingLogoUrl project)) us).

Definition sendWeeklyDigest (to_ : string) (project : Project)
  (us : list UpdateWithMedia) (weekStartDate weekEndDate : Date)
  : M EmailSendResult :=
  sendEmail (mkEmail to_ (WeeklyDigest weekStartDate weekEndDate)
               (proj_name project) (proj_magicLinkToken project)
               (or_undefined (proj_brandingColor project))
               (or_undefined (proj_brandingLogoUrl project)) us).

Definition sendSubscriptionConfirmed (to_ : string) (project : Project)
  (frequency : string) : M EmailSendResult :=
  sendEmail (mkEmail to_ (SubscriptionConfirmed frequency)
               (proj_name project) (proj_magicLinkToken project)
               (or_undefined (proj_brandingColor project))
               (or_undefined (proj_brandingLogoUrl project)) []).

(* ================================================================== *)
(** ** Digest jobs (jobs/digest.job.ts) *)

(** A JavaScript [Map] keyed by id, as an association list. *)
Fixpoint map_get {V} (m : list (Id * V)) (k : Id) : option V :=
  match m with
  | [] => None
  | (k', v) :: m' => if String.eqb k' k then Some v else map_get m' k
  end.

Fixpoint map_set {V} (m : list (Id * V)) (k : Id) (v : V)
  : list (Id * V) :=
  match m with
  | [] => [(k, v)]
  | (k', v') :: m' =>
    if String.eqb k' k then (k, v) :: m' else (k', v') :: map_set m' k v
  end.

Definition or_empty {V} (x : option (list V)) : list V :=
  match x with
  | Some l => l
  | None => []
  end.

(** The loops of [getUpdatesWithMedia] that group rows by update id. *)
Definition groupByUpdate {V} (key : V -> Id) (rows : list V)
  : list (Id * list V) :=
  fold_left (fun m row =>
               map_set m (key row) (or_empty (map_get m (key row)) ++ [row]))
            rows [].

(** [getUpdatesWithMedia(updateIds)] *)
Definition getUpdatesWithMedia (updateIds : list Id)
  : M (list UpdateWithMedia) :=
  if (List.length updateIds =? 0)%nat then ret []
  else
    dbCall ;;;
    updatesData <- gets (fun w =>
      filter (fun u => inArray (upd_id u) updateIds) (updates w)) ;;
    dbCall ;;;
    imagesData <- gets (fun w =>
      filter (fun i => inArray (img_updateId i) updateIds) (images w)) ;;
    dbCall ;;;
    linksData <- gets (fun w =>
      filter (fun l => inArray (link_updateId l) updateIds) (links w)) ;;
    let imagesByUpdate := groupByUpdate img_updateId imagesData in
    let linksByUpdate := groupByUpdate link_updateId linksData in
    ret (map (fun u =>
                mkUpdateWithMedia u
                  (or_empty (map_get imagesByUpdate (upd_id u)))
                  (or_empty (map_get linksByUpdate (upd_id u))))
             updatesData).

(** [getProject(projectId)] *)
Definition getProject (projectId : Id) : M (option Project) :=
  dbCall ;;;
  ps <- gets projects ;;
  ret (hd_error (filter (fun p => String.eqb (proj_id p) projectId) ps)).

(** [updateLastSentAt(subscriptionIds)] *)
Definition updateLastSentAt (subscriptionIds : list Id) : M unit :=
  if (List.length subscriptionIds =? 0)%nat then ret tt
  else
    now <- newDate ;;
    dbCall ;;;
    modify (set_digestSubscriptions (map (fun s =>
      if inArray (sub_id s) subscriptionIds then
        mkSubscription (sub_id s) (sub_projectId s) (sub_email s)
          (sub_frequency s) (Some now) (sub_createdAt s)
      else s))).

(** The subscriptions of a project at a frequency. *)
Definition subscribersOf (projectId : Id) (frequency : string)
  (subs : list Subscription) : list Subscription :=
  filter (fun s => String.eqb (sub_projectId s) projectId
                   && opt_eqb (sub_frequency s) frequency) subs.

(** [triggerInstantDigest(projectId, updateId)] *)
Definition triggerInstantDigest (projectId updateId : Id) : M unit :=
  dbCall ;;;
  subscribers <- gets (fun w =>
    subscribersOf projectId "instant" (digestSubscriptions w)) ;;
  if (List.length subscribers =? 0)%nat then ret tt
  else
    enqueueJob "instant_digest"
      (InstantPayload projectId updateId (map sub_id subscribers)) None ;;;
    ret tt.

(** [Promise.all(batch.map(f))] with [f] run in the order of the array. *)
Fixpoint promise_all {A B} (f : A -> M B) (xs : list A) : M (list B) :=
  match xs with
  | [] => ret []
  | x :: xs' =>
    y <- f x ;;
    ys <- promise_all f xs' ;;
    ret (y :: ys)
  end.

(** [for (let i = 0; i < xs.length; i += size) { body(xs.slice(i, i + size)) }]
    with the local variable the body updates threaded as [acc]; [fuel]
    bounds the number of rounds, [List.length xs] is enough for a positive
    [size]. *)
Fixpoint for_batches {A S} (fuel : nat) (size : nat) (xs : list A)
  (body : list A -> S -> M S) (acc : S) : M S :=
  match xs, fuel with
  | [], _ => ret acc
  | _, O => ret acc
  | _, S fuel' =>
    acc' <- body (firstn size xs) acc ;;
    for_batches fuel' size (skipn size xs) body acc'
  end.


Definition BATCH_SIZE : nat := 5.

(** [processInstantDigest(payload)].  [enqueueJob] is typed so that an
    [instant_digest] job carries an instant payload; any other payload is
    modelled as an exception. *)
Definition processInstantDigest (payload : Payload) : M unit :=
  match payload with
  | InstantPayload projectId updateId subscriberIds =>
    project <- getProject projectId ;;
    match project with
    | None => throw ("Project " ++ projectId ++ " not found")%string
    | Some project =>
      updatesWithMedia <- getUpdatesWithMedia [updateId] ;;
      match updatesWithMedia with
      | [] => throw ("Update " ++ updateId ++ " not found")%string
      | update :: _ =>
        dbCall ;;;
        subscribers <- gets (fun w =>
          filter (fun s => inArray (sub_id s) subscriberIds)
                 (digestSubscriptions w)) ;;
        successfulIds <-
          for_batches (List.length subscribers) BATCH_SIZE subscribers
            (fun batch successfulIds =>
               results <- promise_all (fun subscriber =>
                   result <- sendInstantUpdate (sub_email subscriber)
                               project update ;;
                   ret (sub_id subscriber, result)) batch ;;
               ret (successfulIds
                    ++ map fst (filter (fun r => success (snd r)) results)))
            [] ;;
        updateLastSentAt successfulIds
      end
    end
  | ProjectPayload _ => throw "Malformed instant_digest payload"
  end.

(** The frequencies of a scheduled digest. *)
Inductive ScheduledFrequency : Type := daily | weekly.

Definition frequency_name (f : ScheduledFrequency) : string :=
  match f with
  | daily => "daily"
  | weekly => "weekly"
  end.

(** [const { projectId } = payload] *)
Definition payload_projectId (payload : Payload) : Id :=
  match payload with
  | InstantPayload projectId _ _ => projectId
  | ProjectPayload projectId => projectId
  end.

(** The updates of a project created after [lastSent]. *)
Definition updatesSince (projectId : Id) (lastSent : Date)
  (us : list Update) : list Update :=
  filter (fun u => String.eqb (upd_projectId u) projectId
                   && opt_gtb (upd_createdAt u) lastSent) us.

(** [subscriber.lastSentAt || new Date(0)] *)
Definition lastSentOrEpoch (s : Subscription) : Date :=
  match sub_lastSentAt s with
  | Some d => d
  | None => 0
  end.

(** The body of the loop of [processScheduledDigest] over the subscribers. *)
Definition digestSubscriber (project : Project) (projectId : Id)
  (frequency : ScheduledFrequency) (weekStartDate weekEndDate : Date)
  (subscriber : Subscription) : M unit :=
  let lastSent := lastSentOrEpoch subscriber in
  dbCall ;;;
  newUpdates <- gets (fun w => updatesSince projectId lastSent (updates w)) ;;
  if (List.length newUpdates =? 0)%nat then ret tt
  else
    updatesWithMedia <- getUpdatesWithMedia (map upd_id newUpdates) ;;
    result <-
      match frequency with
      | daily =>
        sendDailyDigest (sub_email subscriber) project updatesWithMedia
      | weekly =>
        sendWeeklyDigest (sub_email subscriber) project updatesWithMedia
          weekStartDate weekEndDate
      end ;;
    if success result then updateLastSentAt [sub_id subscriber]
    else ret tt.

(** [processScheduledDigest(payload, frequency)] *)
Definition processScheduledDigest (payload : Payload)
  (frequency : ScheduledFrequency) : M unit :=
  let projectId := payload_projectId payload in
  project <- getProject projectId ;;
  match project with
  | None => throw ("Project " ++ projectId ++ " not found")%string
  | Some project =>
    dbCall ;;;
    subscribers <- gets (fun w =>
      subscribersOf projectId (frequency_name frequency)
                    (digestSubscriptions w)) ;;
    if (List.length subscribers =? 0)%nat then ret tt
    else
      now <- newDate ;;
      let weekEndDate := now in
      let weekStartDate := now - 7 * 24 * 60 * 60 * 1000 in
      for_of subscribers
        (digestSubscriber project projectId frequency weekStartDate
                          weekEndDate)
  end.

(** [processJob(job)] *)
Definition processJob (job : Job) : M unit :=
  markJobProcessing (job_id job) ;;;
  try_catch
    ((if String.eqb (job_type job) "instant_digest" then
        processInstantDigest (job_payload job)
      else if String.eqb (job_type job) "daily_digest" then
        processScheduledDigest (job_payload job) daily
      else if String.eqb (job_type job) "weekly_digest" then
        processScheduledDigest (job_payload job) weekly
      else throw ("Unknown job type: " ++ job_type job)%string) ;;;
     markJobCompleted (job_id job))
    (fun errorMessage =>
       markJobFailed (job_id job) errorMessage ;;;
       throw errorMessage).

(** [runJobProcessor()] *)
Definition runJobProcessor : M unit :=
  jobs <- getPendingJobs 10 ;;
  if (List.length jobs =? 0)%nat then ret tt
  else for_of jobs (fun job => try_catch (processJob job) (fun _ => ret tt)).

(** [selectDistinct({ projectId }).from(digestSubscriptions)
    .where(eq(frequency, f))]: the distinct project ids, in the order the
    database returns them, which the query leaves open. *)
Definition distinctProjects (rank : Id -> nat) (frequency : string)
  (subs : list Subscription) : list Id :=
  orderBy rank
    (nodup string_dec
       (map sub_projectId
            (filter (fun s => opt_eqb (sub_frequency s) frequency) subs))).

(** [queueDailyDigests()] and [queueWeeklyDigests()] *)
Definition queueDailyDigests : M unit :=
  dbCall ;;;
  projectIds <- gets (fun w =>
    distinctProjects (rowRank E (dbOps w)) "daily" (digestSubscriptions w)) ;;
  for_of projectIds (fun projectId =>
    enqueueJob "daily_digest" (ProjectPayload projectId) None ;;; ret tt).

Definition queueWeeklyDigests : M unit :=
  dbCall ;;;
  projectIds <- gets (fun w =>
    distinctProjects (rowRank E (dbOps w)) "weekly" (digestSubscriptions w)) ;;
  for_of projectIds (fun projectId =>
    enqueueJob "weekly_digest" (ProjectPayload projectId) None ;;; ret tt).

(* ================================================================== *)
(** ** Scheduler (jobs/scheduler.ts) *)

Definition DAILY_DIGEST_HOUR : Z := 9.
Definition WEEKLY_DIGEST_DAY : Z := 0.
Definition WEEKLY_DIGEST_HOUR : Z := 10.
Definition CLEANUP_HOUR : Z := 3.

Definition msPerDay : Z := 24 * 60 * 60 * 1000.

(** [d.setUTCHours(h, 0, 0, 0)] *)
Definition setUTCHours (d : Date) (h : Z) : Date :=
  (d / msPerDay) * msPerDay + h * 60 * 60 * 1000.

(** [d.getUTCDay()]; the epoch was a Thursday. *)
Definition getUTCDay (d : Date) : Z := (d / msPerDay + 4) mod 7.

(** [lastRun && lastRun >= todayTarget] *)
Definition ranSince (lastRun : option Date) (todayTarget : Date) : bool :=
  match lastRun with
  | Some d => todayTarget <=? d
  | None => false
  end.

Definition shouldRunDailyDigest : M bool :=
  now <- newDate ;;
  let todayTarget := setUTCHours now DAILY_DIGEST_HOUR in
  if now <? todayTarget then ret false
  else
    st <- gets scheduleState ;;
    if ranSince (dailyDigest st) todayTarget then ret false else ret true.

Definition shouldRunWeeklyDigest : M bool :=
  now <- newDate ;;
  if negb (getUTCDay now =? WEEKLY_DIGEST_DAY) then ret false
  else
    let todayTarget := setUTCHours now WEEKLY_DIGEST_HOUR in
    if now <? todayTarget then ret false
    else
      st <- gets scheduleState ;;
      if ranSince (weeklyDigest st) todayTarget then ret false else ret true.

Definition shouldRunCleanup : M bool :=
  now <- newDate ;;
  let todayTarget := setUTCHours now CLEANUP_HOUR in
  if now <? todayTarget then ret false
  else
    st <- gets scheduleState ;;
    if ranSince (cleanup st) todayTarget then ret false else ret true.

(** The three cadence blocks of [runSchedulerTick], in its order. *)
Definition tickDailyDigest : M unit :=
  due <- shouldRunDailyDigest ;;
  if due then
    try_catch
      (queueDailyDigests ;;;
       now <- newDate ;;
       modify (set_scheduleState (fun st =>
         mkScheduleState (Some now) (weeklyDigest st) (cleanup st))))
      (fun _ => ret tt)
  else ret tt.

Definition tickWeeklyDigest : M unit :=
  due <- shouldRunWeeklyDigest ;;
  if due then
    try_catch
      (queueWeeklyDigests ;;;
       now <- newDate ;;
       modify (set_scheduleState (fun st =>
         mkScheduleState (dailyDigest st) (Some now) (cleanup st))))
      (fun _ => ret tt)
  else ret tt.

Definition tickCleanup : M unit :=
  due <- shouldRunCleanup ;;
  if due then
    try_catch
      (cleanupOldJobs 7 ;;;
       now <- newDate ;;
       modify (set_scheduleState (fun st =>
         mkScheduleState (dailyDigest st) (weeklyDigest st) (Some now))))
      (fun _ => ret tt)
  else ret tt.

(** [runSchedulerTick()] *)
Definition runSchedulerTick : M unit :=
  tickDailyDigest ;;;
  tickWeeklyDigest ;;;
  tickCleanup ;;;
  runJobProcessor.


(* ================================================================== *)
(** ** Public subscribe route *)

(** [frequency && validFrequencies.includes(frequency) ? frequency : 'instant'] *)
Definition normalizeFrequency (frequency : option string) : string :=
  match frequency with
  | Some f => if existsb (String.eqb f) validFrequencies then f else "instant"
  | None => "instant"
  end.

(** [db.query.projects.findFirst({ where: eq(magicLinkToken, token) })] *)
Definition findProjectByToken (token : string) : M (option Project) :=
  dbCall ;;;
  ps <- gets projects ;;
  ret (hd_error (filter (fun p => opt_eqb (proj_magicLinkToken p) token) ps)).

(** [db.query.digestSubscriptions.findFirst] on (project, email). *)
Definition findSubscription (projectId : Id) (email : string)
  : M (option Subscription) :=
  dbCall ;;;
  ss <- gets digestSubscriptions ;;
  ret (hd_error (filter (fun s => String.eqb (sub_projectId s) projectId
                                  && String.eqb (sub_email s) email) ss)).

(** [db.insert(digestSubscriptions).values({projectId, email, frequency})];
    the table is unique on (project_id, email). *)
Definition insertSubscription (projectId : Id) (email frequency : string)
  : M unit :=
  dbCall ;;;
  ss <- gets digestSubscriptions ;;
  if existsb (fun s => String.eqb (sub_projectId s) projectId
                       && String.eqb (sub_email s) email) ss
  then throw "duplicate key value violates unique constraint"
  else
    id <- newUuid ;;
    created <- newDate ;;
    modify (set_digestSubscriptions (fun ss =>
      ss ++ [mkSubscription id projectId email (Some frequency) None
               (Some created)])).

(** [POST /timeline/:token/subscribe].  [email] is [None] when the body has
    no string there.  The confirmation e-mail is fired without being
    awaited and its outcome is ignored. *)
Definition subscribe (token : string) (email : option string)
  (frequency : option string) : M Response :=
  try_catch
    (match email with
     | None => ret (mkResponse 400 "Email is required")
     | Some email =>
       if String.eqb email "" then ret (mkResponse 400 "Email is required")
       else if negb (emailRegex_test email) then
         ret (mkResponse 400 "Invalid email format")
       else
         let normalizedFrequency := normalizeFrequency frequency in
         project <- findProjectByToken token ;;
         match project with
         | None => ret (mkResponse 404 "Project not found")
         | Some project =>
           existingSubscription <-
             findSubscription (proj_id project) (trim (toLowerCase email)) ;;
           match existingSubscription with
           | Some existing =>
             dbCall ;;;
             modify (set_digestSubscriptions (map (fun s =>
               if String.eqb (sub_id s) (sub_id existing) then
                 mkSubscription (sub_id s) (sub_projectId s) (sub_email s)
                   (Some normalizedFrequency) (sub_lastSentAt s)
                   (sub_createdAt s)
               else s))) ;;;
             sendSubscriptionConfirmed (trim (toLowerCase email)) project
               normalizedFrequency ;;;
             ret (mkResponse 200 "Subscription updated successfully")
           | None =>
             insertSubscription (proj_id project) (trim (toLowerCase email))
               normalizedFrequency ;;;
             sendSubscriptionConfirmed (trim (toLowerCase email)) project
               normalizedFrequency ;;;
             ret (mkResponse 201 "Subscribed successfully")
           end
         end
     end)
    (fun _ => ret (mkResponse 500 "Internal server error")).

End Program.

(* ================================================================== *)
(** ** Job statistics, administration and the other public routes *)

(** The counters of [getJobStats]. *)
Record JobStats : Type := mkJobStats {
  stat_pending : Z;
  stat_processing : Z;
  stat_completed : Z;
  stat_failed : Z;
  stat_total : Z
}.

Definition option_string_dec (a b : option string) : {a = b} + {a <> b}.
Proof. decide equality. apply string_dec. Defined.

(** [SELECT status, count( * ) FROM job_queue GROUP BY status]: one row per
    status that occurs, NULL included.  SQL leaves the order of the groups
    open; the model lists them in order of first occurrence. *)
Definition statusCounts (js : list Job) : list (option string * Z) :=
  map (fun st =>
         (st, Z.of_nat (count_occ option_string_dec (map job_status js) st)))
      (nodup option_string_dec (map job_status js)).

(** The body of the loop of [getJobStats] on the five counters:
    [status in result] holds for the five keys of [result], [total] among
    them, and not for NULL; a status that names an inherited property of the
    object leaves the five counters alone. *)
Definition addStatusCount (result : JobStats) (row : option string * Z)
  : JobStats :=
  let count := snd row in
  let result' :=
    match fst row with
    | Some st =>
      if String.eqb st "pending" then
        mkJobStats count (stat_processing result) (stat_completed result)
          (stat_failed result) (stat_total result)
      else if String.eqb st "processing" then
        mkJobStats (stat_pending result) count (stat_completed result)
          (stat_failed result) (stat_total result)
      else if String.eqb st "completed" then
        mkJobStats (stat_pending result) (stat_processing result) count
          (stat_failed result) (stat_total result)
      else if String.eqb st "failed" then
        mkJobStats (stat_pending result) (stat_processing result)
          (stat_completed result) count (stat_total result)
      else if String.eqb st "total" then
        mkJobStats (stat_pending result) (stat_processing result)
          (stat_completed result) (stat_failed result) count
      else result
    | None => result
    end in
  mkJobStats (stat_pending result') (stat_processing result')
    (stat_completed result') (stat_failed result')
    (stat_total result' + count).

(** [escapeHtml] and [truncate] of templates/daily-digest.ts and
    [ensureValidColor] of the base template, on ASCII strings. *)
Definition replaceChar (c : ascii) (by_ : string) (cs : list ascii)
  : list ascii :=
  flat_map (fun x => if Ascii.eqb x c then list_ascii_of_string by_ else [x])
           cs.

Definition escapeHtml (text : string) : string :=
  string_of_list_ascii
    (replaceChar (ascii_of_nat 34) "&quot;"
       (replaceChar ">" "&gt;"
          (replaceChar "<" "&lt;"
             (replaceChar "&" "&amp;" (list_ascii_of_string text))))).

Definition truncate (text : string) (maxLength : nat) : string :=
  if (String.length text <=? maxLength)%nat then text
  else (trim (string_of_list_ascii
                (firstn maxLength (list_ascii_of_string text))) ++ "...")%string.

Definition DEFAULT_BRAND_COLOR : string := "#6366f1".

Definition isHexDigit (c : ascii) : bool :=
  let n := nat_of_ascii c in
  ((48 <=? n)%nat && (n <=? 57)%nat)
  || ((97 <=? n)%nat && (n <=? 102)%nat)
  || ((65 <=? n)%nat && (n <=? 70)%nat).

(** [/^#[0-9a-fA-F]{6}$/.test(color)] *)
Definition isHexColor (color : string) : bool :=
  match list_ascii_of_string color with
  | c :: digits =>
    Ascii.eqb c "#" && (List.length digits =? 6)%nat && forallb isHexDigit digits
  | [] => false
  end.

(** [ensureValidColor(color?)] *)
Definition ensureValidColor (color : option string) : string :=
  match color with
  | Some c =>
    if String.eqb c "" || negb (isHexColor c) then DEFAULT_BRAND_COLOR else c
  | None => DEFAULT_BRAND_COLOR
  end.

(** The answer of the subscription-status route. *)
Inductive StatusReply : Type :=
| StatusError (code : Z) (msg : string)
| NotSubscribed
| SubscribedAt (frequency : option string).

Section Routes.

Variable E : Env.

(** [getJobStats()] *)
Definition getJobStats : M JobStats :=
  dbCall E ;;;
  stats <- gets (fun w => statusCounts (jobQueue w)) ;;
  ret (fold_left addStatusCount stats (mkJobStats 0 0 0 0 0)).

(** [triggerDailyDigests()] and [triggerWeeklyDigests()] of scheduler.ts:
    they enqueue and leave the scheduler memory alone. *)
Definition triggerDailyDigests : M unit := queueDailyDigests E.

Definition triggerWeeklyDigests : M unit := queueWeeklyDigests E.

(** [POST /jobs/:jobId/retry] of the administration routes. *)
Definition retryJob (jobId : Id) : M Response :=
  try_catch
    (dbCall E ;;;
     js <- gets jobQueue ;;
     match filter (fun j => String.eqb (job_id j) jobId) js with
     | [] => ret (mkResponse 404 "Job not found")
     | job :: _ =>
       if negb (opt_eqb (job_status job) "failed") then
         ret (mkResponse 400 "Can only retry failed jobs")
       else
         now <- newDate E ;;
         dbCall E ;;;
         modify (set_jobQueue (map (fun j =>
           if String.eqb (job_id j) jobId then
             mkJob (job_id j) (job_type j) (job_payload j) (Some "pending")
               (Some 0) (Some now) (job_createdAt j)
           else j))) ;;;
         ret (mkResponse 200 "Job reset for retry")
     end)
    (fun _ => ret (mkResponse 500 "Failed to retry job")).

(** [DELETE /jobs/:jobId] of the administration routes. *)
Definition deleteJob (jobId : Id) : M Response :=
  try_catch
    (dbCall E ;;;
     js <- gets jobQueue ;;
     modify (set_jobQueue
               (filter (fun j => negb (String.eqb (job_id j) jobId)))) ;;;
     match filter (fun j => String.eqb (job_id j) jobId) js with
     | [] => ret (mkResponse 404 "Job not found")
     | _ :: _ => ret (mkResponse 200 "Job deleted")
     end)
    (fun _ => ret (mkResponse 500 "Failed to delete job")).

(** [a || b] on two optional strings; the empty string is falsy. *)
Definition or_else (a b : option string) : option string :=
  match a with
  | Some x => if String.eqb x "" then b else Some x
  | None => b
  end.

(** [DELETE /timeline/:token/unsubscribe]; the address comes from the
    query string or else from the body. *)
Definition unsubscribe (token : string) (queryEmail bodyEmail : option string)
  : M Response :=
  try_catch
    (match or_else queryEmail bodyEmail with
     | None => ret (mkResponse 400 "Email is required")
     | Some email =>
       if String.eqb email "" then ret (mkResponse 400 "Email is required")
       else
         project <- findProjectByToken E token ;;
         match project with
         | None => ret (mkResponse 404 "Project not found")
         | Some project =>
           existingSubscription <-
             findSubscription E (proj_id project) (trim (toLowerCase email)) ;;
           match existingSubscription with
           | None => ret (mkResponse 404 "Subscription not found")
           | Some existing =>
             dbCall E ;;;
             modify (set_digestSubscriptions
                       (filter (fun s =>
                          negb (String.eqb (sub_id s) (sub_id existing))))) ;;;
             ret (mkResponse 200 "Unsubscribed successfully")
           end
         end
     end)
    (fun _ => ret (mkResponse 500 "Internal server error")).

(** [GET /timeline/:token/subscription-status] *)
Definition subscriptionStatus (token : string) (email : option string)
  : M StatusReply :=
  try_catch
    (match email with
     | None => ret (StatusError 400 "Email query parameter is required")
     | Some email =>
       if String.eqb email "" then
         ret (StatusError 400 "Email query parameter is required")
       else
         project <- findProjectByToken E token ;;
         match project with
         | None => ret (StatusError 404 "Project not found")
         | Some project =>
           subscription <-
             findSubscription E (proj_id project) (trim (toLowerCase email)) ;;
           match subscription with
           | None => ret NotSubscribed
           | Some subscription =>
             ret (SubscribedAt (sub_frequency subscription))
           end
         end
     end)
    (fun _ => ret (StatusError 500 "Internal server error")).

End Routes.

(* ================================================================== *)
(** ** Assumptions on the environment and sample data *)

(** The database answers every round trip. *)
Definition dbReachable (E : Env) : Prop := forall n, dbFails E n = false.

(** Successive readings of the clock do not go back. *)
Definition clockMonotone (E : Env) : Prop :=
  forall m n, (m <= n)%nat -> clock E m <= clock E n.

Module Scenario.

(** 2023-11-14T22:13:20Z *)
Definition t0 : Date := 1700000000000.

Definition minute : Z := 60 * 1000.

(** A reachable database, a clock that advances one millisecond per
    reading, and no provider configured (every send is reported as sent). *)
Definition env0 : Env :=
  mkEnv (fun n => t0 + Z.of_nat n) (fun _ => false)
    (fun n => string_of_list_ascii (repeat "j"%char (S n)))
    false (fun _ _ => mkResult true None None)
    (fun _ _ => O) (fun _ => true).

Definition emptyWorld : World :=
  mkWorld [] [] [] [] [] [] (mkScheduleState None None None) [] 0 0 0.

(** A freshly enqueued daily digest job for project [p1]. *)
Definition job1 : Job :=
  mkJob "job-1" "daily_digest" (ProjectPayload "p1") (Some "pending")
    (Some 0) (Some t0) (Some t0).

(** The job in a database from which the project has been deleted:
    processing it throws. *)
Definition queueWorld : World := set_jobQueue (fun _ => [job1]) emptyWorld.

(** A clock that stands still. *)
Definition envFrozen : Env :=
  mkEnv (fun _ => t0) (fun _ => false)
    (fun n => string_of_list_ascii (repeat "j"%char (S n)))
    false (fun _ _ => mkResult true None None)
    (fun _ _ => O) (fun _ => true).

Definition day : Z := 24 * 60 * minute.

(** Jobs of several ages and statuses. *)
Definition purgeWorld : World :=
  set_jobQueue (fun _ =>
    [ mkJob "job-a" "daily_digest" (ProjectPayload "p1") (Some "completed")
        (Some 1) (Some (t0 - 9 * day)) (Some (t0 - 9 * day));
      mkJob "job-b" "daily_digest" (ProjectPayload "p1") (Some "pending")
        (Some 0) (Some (t0 - 8 * day)) (Some (t0 - 8 * day));
      mkJob "job-c" "weekly_digest" (ProjectPayload "p1") (Some "failed")
        (Some 4) (Some (t0 - 8 * day)) (Some (t0 - 8 * day));
      mkJob "job-d" "daily_digest" (ProjectPayload "p1") (Some "completed")
        (Some 1) (Some (t0 - day)) (Some (t0 - day)) ]) emptyWorld.

(** One project, two updates, and four subscribers: [a] instant, [b] daily
    and ten days behind, [c] daily and never sent to, [d] daily and up to
    date. *)
Definition p1 : Project :=
  mkProject "p1" "Harbour site" (Some "tok-1") None None.

Definition subA : Subscription :=
  mkSubscription "s-a" "p1" "a@x.com" (Some "instant") None
    (Some (t0 - 20 * day)).
Definition subB : Subscription :=
  mkSubscription "s-b" "p1" "b@x.com" (Some "daily") (Some (t0 - 10 * day))
    (Some (t0 - 20 * day)).
Definition subC : Subscription :=
  mkSubscription "s-c" "p1" "c@x.com" (Some "daily") None
    (Some (t0 - 20 * day)).
Definition subD : Subscription :=
  mkSubscription "s-d" "p1" "d@x.com" (Some "daily") (Some (t0 - minute))
    (Some (t0 - 20 * day)).

Definition upd1 : Update :=
  mkUpdate "u-1" "p1" "Foundations poured" (Some (t0 - 2 * day)).
Definition upd2 : Update :=
  mkUpdate "u-2" "p1" "Scaffolding up" (Some (t0 - day)).

Definition world1 : World :=
  mkWorld [] [subA; subB; subC; subD] [upd1; upd2] [] [] [p1]
    (mkScheduleState None None None) [] 0 0 0.

(** A configured provider that rejects every e-mail to [c@x.com]. *)
Definition envPartial : Env :=
  mkEnv (fun n => t0 + Z.of_nat n) (fun _ => false)
    (fun n => string_of_list_ascii (repeat "j"%char (S n)))
    true
    (fun _ e => if String.eqb (to e) "c@x.com"
                then mkResult false None (Some "rejected")
                else mkResult true (Some "msg") None)
    (fun _ _ => O) (fun _ => true).

(** [world1] with a daily digest job for the project in the queue. *)
Definition world2 : World := set_jobQueue (fun _ => [job1]) world1.

(** Three daily subscribers that all have updates due, and the job. *)
Definition subE : Subscription :=
  mkSubscription "s-e" "p1" "e@x.com" (Some "daily") (Some (t0 - 3 * day))
    (Some (t0 - 20 * day)).

Definition world3 : World :=
  mkWorld [job1] [subB; subC; subE] [upd1; upd2] [] [] [p1]
    (mkScheduleState None None None) [] 0 0 0.

End Scenario.

(** The key of the unique constraint of [digest_subscriptions]. *)
Definition sub_key (s : Subscription) : Id * string :=
  (sub_projectId s, sub_email s).

(** The rows of a (project, email) pair. *)
Definition rowsOf (projectId : Id) (email : string)
  (subs : list Subscription) : list Subscription :=
  filter (fun s => String.eqb (sub_projectId s) projectId
                   && String.eqb (sub_email s) email) subs.

(** [keeps R P m]: from every world that satisfies [P], running [m] ends,
    normally or by an exception, in a world related to the start by [R]. *)
Definition keeps (R : World -> World -> Prop) (P : World -> Prop)
  {A} (m : M A) : Prop :=
  forall w, P w -> R w (snd (m w)).

(** A [last_run] of the scheduler memory is not touched. *)
Definition sameLastRun (lastRun : ScheduleState -> option Date)
  (w w' : World) : Prop :=
  lastRun (scheduleState w') = lastRun (scheduleState w).

(** What a cadence block of the tick leaves in its [last_run]: the reading
    of the clock that follows the enqueue or purge call when the cadence
    was due and the call returned, and the old value otherwise. *)
Definition lastRunAfter {A} (E : Env) (shouldRun : M bool) (call : M A)
  (lastRun : ScheduleState -> option Date) (w : World) : option Date :=
  match shouldRun w with
  | (Ok true, w0) =>
    match call w0 with
    | (Ok _, w1) => Some (clock E (clockReads w1))
    | (Throw _, _) => lastRun (scheduleState w)
    end
  | _ => lastRun (scheduleState w)
  end.

Module Outage.

(** The database is down; the clock reads 22:13 UTC on a Tuesday. *)
Definition env : Env :=
  mkEnv (fun n => Scenario.t0 + Z.of_nat n) (fun _ => true)
    (fun n => string_of_list_ascii (repeat "j"%char (S n)))
    false (fun _ _ => mkResult true None None)
    (fun _ _ => O) (fun _ => true).

End Outage.

(* ------------------------------------------------------------------ *)
(** *** Watermarks *)

(** [r'] is [r] with, at most, another [last_sent_at]. *)
Definition sameButLastSent (r r' : Subscription) : Prop :=
  r' = mkSubscription (sub_id r) (sub_projectId r) (sub_email r)
         (sub_frequency r) (sub_lastSentAt r') (sub_createdAt r).

(** The log holds a send to [email] that the transport confirmed. *)
Definition sentOkTo (log : list (Email * EmailSendResult)) (email : string)
  : Prop :=
  exists e res, In (e, res) log /\ to e = email /\ success res = true.

(** A row between two worlds: its watermark is untouched, or it is a
    reading of the clock taken in between and the log of the e-mails sent
    in between holds a confirmed send to the row's address. *)
Definition rowAdvance (E : Env) (c0 c1 : nat)
  (log : list (Email * EmailSendResult)) (r r' : Subscription) : Prop :=
  sameButLastSent r r'
  /\ (sub_lastSentAt r' = sub_lastSentAt r
      \/ exists k, (c0 <= k < c1)%nat
                   /\ sub_lastSentAt r' = Some (clock E k)
                   /\ sentOkTo log (sub_email r)).

(** [advance E w w']: time went on, e-mails were sent, and the rows of the
    subscription table are the same rows with watermarks advanced. *)
Definition advance (E : Env) (w w' : World) : Prop :=
  (clockReads w <= clockReads w')%nat
  /\ exists log,
       outbox w' = outbox w ++ log
       /\ Forall2 (rowAdvance E (clockReads w) (clockReads w') log)
            (digestSubscriptions w) (digestSubscriptions w').

(** The id and address of a row. *)
Definition sub_ident (r : Subscription) : Id * string :=
  (sub_id r, sub_email r).

(** The subscription table holds the rows [K], one per id. *)
Definition identified (K : list (Id * string)) (w : World) : Prop :=
  map sub_ident (digestSubscriptions w) = K /\ NoDup (map fst K).

(** Order on nullable timestamps, [null] first. *)
Definition notBefore (a b : option Date) : Prop :=
  match a, b with
  | None, _ => True
  | Some x, Some y => x <= y
  | Some _, None => False
  end.

(** No watermark lies after the next reading of the clock. *)
Definition watermarksPast (E : Env) (w : World) : Prop :=
  forall r t, In r (digestSubscriptions w) -> sub_lastSentAt r = Some t ->
    t <= clock E (clockReads w).

(** The operations of the digest engine. *)
Inductive DigestOp : Type :=
| OpTriggerInstant (projectId updateId : Id)
| OpQueueDaily
| OpQueueWeekly
| OpProcessJob (job : Job)
| OpRunJobProcessor
| OpSchedulerTick.

Definition runOp (E : Env) (op : DigestOp) : M unit :=
  match op with
  | OpTriggerInstant projectId updateId =>
    triggerInstantDigest E projectId updateId
  | OpQueueDaily => queueDailyDigests E
  | OpQueueWeekly => queueWeeklyDigests E
  | OpProcessJob job => processJob E job
  | OpRunJobProcessor => runJobProcessor E
  | OpSchedulerTick => runSchedulerTick E
  end.

(** The world after a sequence of operations, whether they return or
    throw. *)
Fixpoint runOps (E : Env) (ops : list DigestOp) (w : World) : World :=
  match ops with
  | [] => w
  | op :: ops' => runOps E ops' (snd (runOp E op w))
  end.

(** [w'] is [w] after the e-mails of [log] were handed to the transport. *)
Definition sendsOnly (log : list (Email * EmailSendResult)) (w w' : World)
  : Prop :=
  w' = set_outbox (fun o => o ++ log) w.

(* ------------------------------------------------------------------ *)
(** *** Scheduled digests *)

(** The updates a subscriber is due: those of the project created after
    the subscriber's watermark. *)
Definition dueUpdates (projectId : Id) (us : list Update) (s : Subscription)
  : list Update :=
  updatesSince projectId (lastSentOrEpoch s) us.

(** [e] is the digest of one of the subscribers [l]: addressed to that
    subscriber, carrying the rows of the updates due to that subscriber,
    which are not none. *)
Definition digestOf (projectId : Id) (l : list Subscription)
  (us : list Update) (e : Email) : Prop :=
  exists x,
    In x l
    /\ to e = sub_email x
    /\ dueUpdates projectId us x <> []
    /\ map uwm_update (email_updates e)
       = filter (fun u => inArray (upd_id u)
                            (map upd_id (dueUpdates projectId us x))) us.

(** A stretch of a scheduled digest job for the subscribers [l]: the other
    tables are left alone, only rows of [l] are written, and what is sent
    are digests of [l]. *)
Definition scheduledStep (projectId : Id) (l : list Subscription)
  (w w' : World) : Prop :=
  jobQueue w' = jobQueue w
  /\ updates w' = updates w
  /\ Forall2 (fun r r' => In (sub_id r) (map sub_id l) \/ r' = r)
       (digestSubscriptions w) (digestSubscriptions w')
  /\ exists log,
       outbox w' = outbox w ++ log
       /\ forall e res, In (e, res) log -> digestOf projectId l (updates w) e.

(** The job type of a scheduled frequency. *)
Definition digestJobType (f : ScheduledFrequency) : string :=
  match f with
  | daily => "daily_digest"
  | weekly => "weekly_digest"
  end.

(** [s] subscribes to the project at the frequency. *)
Definition subscribesAt (projectId : Id) (f : ScheduledFrequency)
  (s : Subscription) : Prop :=
  sub_projectId s = projectId /\ sub_frequency s = Some (frequency_name f).

(* ------------------------------------------------------------------ *)
(** *** Steps of the job processor *)

(** A table is left as it is. *)
Definition unchanged {T} (table : World -> T) (w w' : World) : Prop :=
  table w' = table w.

(** Between two rows of the queue: the same job, attempts not decreased,
    and touched only when its id is one of [ids]. *)
Definition jobRowStep (ids : list Id) (j j' : Job) : Prop :=
  job_id j' = job_id j
  /\ job_type j' = job_type j
  /\ job_payload j' = job_payload j
  /\ job_createdAt j' = job_createdAt j
  /\ or_zero (job_attempts j) <= or_zero (job_attempts j')
  /\ (In (job_id j) ids \/ j' = j).

Definition jobStep (ids : list Id) (w w' : World) : Prop :=
  Forall2 (jobRowStep ids) (jobQueue w) (jobQueue w').

(** The jobs [queueDailyDigests] or [queueWeeklyDigests] append for the
    frequency [frequency] under the job type [type]: one pending job per
    project that has a subscriber at the frequency, in whatever order. *)
Definition cadenceJobs (type frequency : string) (subs : list Subscription)
  (js : list Job) : Prop :=
  NoDup (map job_payload js)
  /\ (forall projectId,
        In (ProjectPayload projectId) (map job_payload js)
        <-> exists s, In s subs /\ sub_projectId s = projectId
                      /\ sub_frequency s = Some frequency)
  /\ Forall (fun j => (exists projectId,
                         job_payload j = ProjectPayload projectId)
                      /\ job_type j = type
                      /\ job_status j = Some "pending"
                      /\ job_attempts j = Some 0) js.

(* ------------------------------------------------------------------ *)
(** *** Instant notifications *)

(** The instant notification of [update] to the subscriber [s]. *)
Definition instantEmail (project : Project) (update : UpdateWithMedia)
  (s : Subscription) : Email :=
  mkEmail (sub_email s) InstantUpdate (proj_name project)
    (proj_magicLinkToken project)
    (or_undefined (proj_brandingColor project))
    (or_undefined (proj_brandingLogoUrl project)) [update].

(** An update with the images and links that refer to it. *)
Definition withMedia (w : World) (u : Update) : UpdateWithMedia :=
  mkUpdateWithMedia u
    (filter (fun i => String.eqb (img_updateId i) (upd_id u)) (images w))
    (filter (fun l => String.eqb (link_updateId l) (upd_id u)) (links w)).

Module Sunday.

(** A reachable database and a clock that starts on Sunday 2023-11-19 at
    12:00 UTC and advances one millisecond per reading. *)
Definition noon : Date := 1700395200000.

Definition env : Env :=
  mkEnv (fun n => noon + Z.of_nat n) (fun _ => false)
    (fun n => string_of_list_ascii (repeat "j"%char (S n)))
    false (fun _ _ => mkResult true None None)
    (fun _ _ => O) (fun _ => true).

End Sunday.

(* ================================================================== *)
(** * Properties *)

Ltac run_monad :=
  unfold bind, try_catch, gets, modify, ret, throw, dbCall, newDate, newUuid;
  simpl.

(* ------------------------------------------------------------------ *)
(** ** Job queue *)

Lemma filter_none {A} (f : A -> bool) (l : list A) :
  (forall x, In x l -> f x = false) -> filter f l = [].
Proof.
  induction l as [|a l IH]; intros H; simpl; [reflexivity|].
  rewrite (H a (or_introl eq_refl)). apply IH.
  intros x Hx. apply H. now right.
Qed.

(** C10. [markJobFailed] on an id that no row of the job queue carries
    returns normally and leaves every row as it was: only the SELECT is
    issued. *)
Theorem markJobFailed_unknown_id :
  forall E w jobId error,
    dbFails E (dbOps w) = false ->
    (forall j, In j (jobQueue w) -> job_id j <> jobId) ->
    markJobFailed E jobId error w = (Ok tt, set_dbOps S w)
    /\ jobQueue (snd (markJobFailed E jobId error w)) = jobQueue w.
Proof.
  intros E w jobId error Hdb Hid.
  assert (Hrun : markJobFailed E jobId error w = (Ok tt, set_dbOps S w)).
  { unfold markJobFailed. run_monad. rewrite Hdb.
    rewrite filter_none; [reflexivity|].
    intros j Hj. apply String.eqb_neq. now apply Hid. }
  split; [exact Hrun|]. rewrite Hrun. reflexivity.
Qed.

Lemma markJobFailed_unknown_id_witness :
  markJobFailed Scenario.env0 "job-2" "boom" Scenario.queueWorld
  = (Ok tt, set_dbOps S Scenario.queueWorld)
  /\ jobQueue (snd (markJobFailed Scenario.env0 "job-2" "boom"
                      Scenario.queueWorld))
     = jobQueue Scenario.queueWorld.
Proof.
  apply (markJobFailed_unknown_id Scenario.env0 Scenario.queueWorld
           "job-2" "boom").
  - reflexivity.
  - simpl. intros j [Hj|[]]. subst j. simpl. discriminate.
Defined.

(** What [markJobFailed] writes to the rows of an existing job: the
    attempts counter it read plus one, and either the terminal status or a
    retry after the square of that number of minutes. *)
Lemma markJobFailed_existing :
  forall E w jobId error job rest,
    dbReachable E ->
    filter (fun j => String.eqb (job_id j) jobId) (jobQueue w) = job :: rest ->
    let newAttempts := or_zero (job_attempts job) + 1 in
    let now := clock E (clockReads w) in
    forall j', In j' (jobQueue (snd (markJobFailed E jobId error w))) ->
      job_id j' = jobId ->
      job_attempts j' = Some newAttempts
      /\ (MAX_ATTEMPTS <= newAttempts -> job_status j' = Some "failed")
      /\ (newAttempts < MAX_ATTEMPTS ->
          job_status j' = Some "pending"
          /\ job_scheduledFor j'
             = Some (now + newAttempts * newAttempts * 60 * 1000)).
Proof.
  intros E w jobId error job rest Hdb Hsel newAttempts now j'.
  unfold markJobFailed. run_monad. rewrite Hdb. simpl. rewrite Hsel.
  fold newAttempts.
  destruct (MAX_ATTEMPTS <=? newAttempts) eqn:Hmax; simpl;
    rewrite Hdb; simpl; intros Hin Hid;
    apply in_map_iff in Hin; destruct Hin as [j [Hj _]];
    destruct (String.eqb (job_id j) jobId) eqn:Heq;
    try (subst j'; apply String.eqb_neq in Heq; contradiction);
    subst j'; simpl.
  - apply Z.leb_le in Hmax. repeat split; try reflexivity; lia.
  - apply Z.leb_gt in Hmax. repeat split; try reflexivity; lia.
Qed.

(** C1. A job enqueued with [attempts = 0] whose first processing pass
    throws at time [t0]: [markJobProcessing] has made [attempts] 1,
    [markJobFailed] adds one more and the retry is scheduled 4 minutes
    later, not 1; the second failure already parks the job as [failed]. *)
Theorem first_failure_backs_off_four_minutes :
  let w1 := snd (processJob Scenario.env0 Scenario.job1 Scenario.queueWorld) in
  let w2 := snd (processJob Scenario.env0 Scenario.job1 w1) in
  map (fun j => (job_status j, job_attempts j, job_scheduledFor j))
      (jobQueue w1)
  = [(Some "pending", Some 2, Some (Scenario.t0 + 4 * Scenario.minute))]
  /\ map (fun j => (job_status j, job_attempts j, job_scheduledFor j))
         (jobQueue w2)
     = [(Some "failed", Some 4, Some (Scenario.t0 + 4 * Scenario.minute))].
Proof. vm_compute. split; reflexivity. Qed.

Lemma filter_negb_filter {A} (f : A -> bool) (l : list A) :
  filter f (filter (fun x => negb (f x)) l) = [].
Proof.
  apply filter_none. intros x Hx. apply filter_In in Hx.
  destruct Hx as [_ Hx]. now destruct (f x).
Qed.

Lemma filter_split_length {A} (f : A -> bool) (l : list A) :
  (List.length (filter f l) + List.length (filter (fun x => negb (f x)) l)
   = List.length l)%nat.
Proof.
  induction l as [|a l IH]; simpl; [reflexivity|].
  destruct (f a); simpl; lia.
Qed.

(** What one run of [cleanupOldJobs] does when the database answers and
    the cutoff is a timestamp. *)
Lemma cleanupOldJobs_run :
  forall E days w,
    dbReachable E ->
    let cutoff := clock E (clockReads w) - days * 24 * 60 * 60 * 1000 in
    validTime cutoff = true ->
    timestampAccepted E cutoff = true ->
    let r := cleanupOldJobs E days w in
    fst r = Ok (Z.of_nat (List.length (filter (purgeable cutoff) (jobQueue w))))
    /\ jobQueue (snd r)
       = filter (fun j => negb (purgeable cutoff j)) (jobQueue w)
    /\ clockReads (snd r) = S (clockReads w).
Proof.
  intros E days w Hdb cutoff Hvalid Haccepted r. subst r.
  unfold cleanupOldJobs. run_monad.
  rewrite Hdb. simpl. fold cutoff. rewrite Hvalid, Haccepted. simpl.
  destruct (filter (purgeable cutoff) (jobQueue w)) as [|j js] eqn:Hsel; simpl.
  - repeat split. symmetry. clear Hdb.
    induction (jobQueue w) as [|a l IH]; simpl in *; [reflexivity|].
    destruct (purgeable cutoff a); simpl in *; [discriminate|].
    f_equal. now apply IH.
  - rewrite Hdb. simpl. repeat split.
Qed.

(** C8, as the code has it. Purging twice with the same cutoff, when that
    cutoff is a timestamp (a time value a [Date] can hold and PostgreSQL
    accepts): the first run deletes exactly the completed or failed jobs
    created at or before the cutoff and returns how many rows left the
    table; the second run deletes nothing and returns 0. *)
Theorem cleanupOldJobs_idempotent :
  forall E days w,
    dbReachable E ->
    clock E (S (clockReads w)) = clock E (clockReads w) ->
    validTime (clock E (clockReads w) - days * 24 * 60 * 60 * 1000) = true ->
    timestampAccepted E (clock E (clockReads w) - days * 24 * 60 * 60 * 1000)
    = true ->
    let cutoff := clock E (clockReads w) - days * 24 * 60 * 60 * 1000 in
    let r1 := cleanupOldJobs E days w in
    let r2 := cleanupOldJobs E days (snd r1) in
    jobQueue (snd r1) = filter (fun j => negb (purgeable cutoff j)) (jobQueue w)
    /\ fst r1 = Ok (Z.of_nat (List.length (jobQueue w))
                    - Z.of_nat (List.length (jobQueue (snd r1))))
    /\ fst r2 = Ok 0
    /\ jobQueue (snd r2) = jobQueue (snd r1).
Proof.
  intros E days w Hdb Hclock Hvalid Haccepted cutoff r1 r2.
  pose proof (cleanupOldJobs_run E days w Hdb Hvalid Haccepted) as H1.
  cbv zeta in H1.
  change (cleanupOldJobs E days w) with r1 in H1.
  destruct H1 as [Hr1 [Hq1 Hc1]].
  assert (Hcutoff2 : clock E (clockReads (snd r1)) - days * 24 * 60 * 60 * 1000
                     = cutoff).
  { rewrite Hc1, Hclock. reflexivity. }
  pose proof (cleanupOldJobs_run E days (snd r1) Hdb) as H2.
  cbv zeta in H2. rewrite Hcutoff2 in H2.
  specialize (H2 Hvalid Haccepted).
  change (cleanupOldJobs E days (snd r1)) with r2 in H2.
  destruct H2 as [Hr2 [Hq2 _]].
  change (clock E (clockReads w) - days * 24 * 60 * 60 * 1000)
    with cutoff in Hr1, Hq1.
  repeat split.
  - exact Hq1.
  - rewrite Hr1, Hq1. f_equal.
    pose proof (filter_split_length (purgeable cutoff) (jobQueue w)). lia.
  - rewrite Hr2, Hq1, filter_negb_filter. reflexivity.
  - rewrite Hq2, Hq1. clear.
    induction (jobQueue w) as [|a l IH]; simpl; [reflexivity|].
    destruct (purgeable cutoff a) eqn:Ha; simpl; [exact IH|].
    rewrite Ha. simpl. now f_equal.
Qed.

Lemma cleanupOldJobs_idempotent_witness :
  let r1 := cleanupOldJobs Scenario.envFrozen 7 Scenario.purgeWorld in
  let r2 := cleanupOldJobs Scenario.envFrozen 7 (snd r1) in
  fst r1 = Ok 2 /\ fst r2 = Ok 0 /\ jobQueue (snd r2) = jobQueue (snd r1).
Proof.
  destruct (cleanupOldJobs_idempotent Scenario.envFrozen 7 Scenario.purgeWorld)
    as [_ [H1 [H2 H3]]].
  - intro n. reflexivity.
  - reflexivity.
  - reflexivity.
  - reflexivity.
  - split; [exact H1 | split; [exact H2 | exact H3]].
Defined.

(** C8, as claimed, fails. Asked to purge what is older than 200000000
    days, as [POST /jobs/cleanup?days=200000000] does, the cutoff is no
    date: both runs throw instead of returning a count, and nothing is
    deleted, although three jobs are completed or failed. *)
Lemma cleanupOldJobs_invalid_cutoff_throws :
  let r1 := cleanupOldJobs Scenario.envFrozen 200000000 Scenario.purgeWorld in
  let r2 := cleanupOldJobs Scenario.envFrozen 200000000 (snd r1) in
  fst r1 = Throw "Invalid time value"
  /\ fst r2 = Throw "Invalid time value"
  /\ jobQueue (snd r2) = jobQueue Scenario.purgeWorld
  /\ List.length (filter (fun j => opt_eqb (job_status j) "completed"
                                   || opt_eqb (job_status j) "failed")
                         (jobQueue Scenario.purgeWorld)) = 3%nat.
Proof. vm_compute. repeat split. Qed.

(* ------------------------------------------------------------------ *)
(** ** Trigger hook *)

(** C6. [triggerInstantDigest] with no instant subscriber enqueues nothing
    and returns normally; otherwise it appends exactly one pending
    [instant_digest] job whose payload carries the project, the update and
    the ids of the project's instant subscriptions as they are then. *)
Theorem triggerInstantDigest_enqueues_one :
  forall E w projectId updateId,
    dbReachable E ->
    let subscribers :=
      subscribersOf projectId "instant" (digestSubscriptions w) in
    let r := triggerInstantDigest E projectId updateId w in
    fst r = Ok tt
    /\ (subscribers = [] -> jobQueue (snd r) = jobQueue w)
    /\ (subscribers <> [] ->
        exists job,
          jobQueue (snd r) = jobQueue w ++ [job]
          /\ job_type job = "instant_digest"
          /\ job_payload job
             = InstantPayload projectId updateId (map sub_id subscribers)
          /\ job_status job = Some "pending"
          /\ job_attempts job = Some 0).
Proof.
  intros E w projectId updateId Hdb subscribers r. subst r.
  unfold triggerInstantDigest, enqueueJob. run_monad. rewrite Hdb. simpl.
  fold subscribers.
  destruct subscribers as [|s ss] eqn:Hs; simpl.
  - repeat split. intros H. now contradiction H.
  - rewrite Hdb. simpl. repeat split; [discriminate|].
    intros _. eexists. repeat split.
Qed.

Lemma triggerInstantDigest_enqueues_one_witness :
  exists job,
    jobQueue (snd (triggerInstantDigest Scenario.env0 "p1" "u-2"
                     Scenario.world1)) = [job]
    /\ job_payload job = InstantPayload "p1" "u-2" ["s-a"].
Proof.
  destruct (triggerInstantDigest_enqueues_one Scenario.env0 Scenario.world1
              "p1" "u-2") as [_ [_ H]].
  - intro n. reflexivity.
  - destruct H as [job [Hq [_ [Hp _]]]].
    + vm_compute. discriminate.
    + exists job. split; [exact Hq | exact Hp].
Defined.

(* ------------------------------------------------------------------ *)
(** ** Subscribing *)

Lemma rowsOf_unique :
  forall projectId email subs,
    NoDup (map sub_key subs) ->
    (List.length (rowsOf projectId email subs) <= 1)%nat.
Proof.
  intros projectId email subs. unfold rowsOf.
  induction subs as [|s subs IH]; simpl; intros Hnd; [lia|].
  inversion Hnd as [|k ks Hnotin Hnd']; subst.
  destruct (String.eqb (sub_projectId s) projectId
            && String.eqb (sub_email s) email) eqn:Hs; simpl.
  - apply andb_true_iff in Hs. destruct Hs as [Hp He].
    apply String.eqb_eq in Hp, He.
    rewrite filter_none; [simpl; lia|].
    intros x Hx.
    destruct (String.eqb (sub_projectId x) projectId
              && String.eqb (sub_email x) email) eqn:Hxk; [|reflexivity].
    apply andb_true_iff in Hxk. destruct Hxk as [Hxp Hxe].
    apply String.eqb_eq in Hxp, Hxe.
    exfalso. apply Hnotin. apply in_map_iff. exists x. split; [|exact Hx].
    unfold sub_key. congruence.
  - now apply IH.
Qed.

Lemma rowsOf_map :
  forall projectId email (g : Subscription -> Subscription) subs,
    (forall s, sub_key (g s) = sub_key s) ->
    rowsOf projectId email (map g subs)
    = map g (rowsOf projectId email subs).
Proof.
  intros projectId email g subs Hg. unfold rowsOf.
  induction subs as [|s subs IH]; simpl; [reflexivity|].
  pose proof (Hg s) as Hk. unfold sub_key in Hk.
  injection Hk as Hp He. rewrite Hp, He.
  destruct (String.eqb (sub_projectId s) projectId
            && String.eqb (sub_email s) email); simpl; now rewrite IH.
Qed.

(** C9. Subscribing an address that already has a row for the project:
    the route answers 200, the table keeps its rows and their (project,
    email) keys, and the one row of the pair now holds the normalised
    frequency of the request. *)
Theorem subscribe_existing_overwrites_frequency :
  forall E w token email frequency project existing,
    dbReachable E ->
    NoDup (map sub_key (digestSubscriptions w)) ->
    email <> "" ->
    emailRegex_test email = true ->
    hd_error (filter (fun p => opt_eqb (proj_magicLinkToken p) token)
                     (projects w)) = Some project ->
    hd_error (rowsOf (proj_id project) (trim (toLowerCase email))
                     (digestSubscriptions w)) = Some existing ->
    let r := subscribe E token (Some email) frequency w in
    let subs' := digestSubscriptions (snd r) in
    fst r = Ok (mkResponse 200 "Subscription updated successfully")
    /\ List.length subs' = List.length (digestSubscriptions w)
    /\ map sub_key subs' = map sub_key (digestSubscriptions w)
    /\ rowsOf (proj_id project) (trim (toLowerCase email)) subs'
       = [mkSubscription (sub_id existing) (sub_projectId existing)
            (sub_email existing) (Some (normalizeFrequency frequency))
            (sub_lastSentAt existing) (sub_createdAt existing)].
Proof.
  intros E w token email frequency project existing Hdb Hnd Hne Hre Hproj Hex
         r subs'.
  subst subs' r.
  unfold subscribe, findProjectByToken, findSubscription,
    sendSubscriptionConfirmed, sendEmail.
  run_monad.
  apply String.eqb_neq in Hne. rewrite Hne, Hre. simpl.
  rewrite Hdb. simpl. rewrite Hproj. rewrite Hdb. simpl.
  unfold rowsOf in Hex. rewrite Hex. rewrite Hdb. simpl.
  set (g := fun s : Subscription =>
              if String.eqb (sub_id s) (sub_id existing) then _ else s).
  assert (Hg : forall s, sub_key (g s) = sub_key s).
  { intros s. unfold g. now destruct (String.eqb (sub_id s) (sub_id existing)). }
  repeat split.
  - apply length_map.
  - rewrite map_map. apply map_ext. exact Hg.
  - rewrite (rowsOf_map _ _ g _ Hg).
    pose proof (rowsOf_unique (proj_id project) (trim (toLowerCase email))
                  _ Hnd) as Hlen.
    fold (rowsOf (proj_id project) (trim (toLowerCase email))
            (digestSubscriptions w)) in Hex.
    destruct (rowsOf (proj_id project) (trim (toLowerCase email))
                (digestSubscriptions w)) as [|x [|y rest]];
      simpl in Hex, Hlen; try discriminate; try lia.
    injection Hex as ->. simpl. unfold g. now rewrite String.eqb_refl.
Qed.

Lemma subscribe_existing_overwrites_frequency_witness :
  rowsOf "p1" "a@x.com"
    (digestSubscriptions
       (snd (subscribe Scenario.env0 "tok-1" (Some "A@x.com") (Some "daily")
               Scenario.world1)))
  = [mkSubscription "s-a" "p1" "a@x.com" (Some "daily") None
       (Some (Scenario.t0 - 20 * Scenario.day))].
Proof.
  destruct (subscribe_existing_overwrites_frequency Scenario.env0
              Scenario.world1 "tok-1" "A@x.com" (Some "daily") Scenario.p1
              Scenario.subA) as [_ [_ [_ H]]].
  - intro n. reflexivity.
  - simpl. repeat (constructor; [simpl; intuition discriminate|]).
    constructor.
  - discriminate.
  - reflexivity.
  - reflexivity.
  - reflexivity.
  - exact H.
Defined.

(* ------------------------------------------------------------------ *)
(** ** Relational reasoning about computations *)

Lemma in_firstn {A} (n : nat) (l : list A) (x : A) :
  In x (firstn n l) -> In x l.
Proof.
  intros H. rewrite <- (firstn_skipn n l). apply in_or_app. now left.
Qed.

Lemma in_skipn {A} (n : nat) (l : list A) (x : A) :
  In x (skipn n l) -> In x l.
Proof.
  intros H. rewrite <- (firstn_skipn n l). apply in_or_app. now right.
Qed.

(** The rounds of [for_batches] are bounded by the length of the list:
    any fuel from there on gives the same run. *)
Lemma for_batches_fuel {A St} (size : nat) (body : list A -> St -> M St) :
  (0 < size)%nat ->
  forall fuel1 fuel2 xs acc w,
    (List.length xs <= fuel1)%nat -> (List.length xs <= fuel2)%nat ->
    for_batches fuel1 size xs body acc w
    = for_batches fuel2 size xs body acc w.
Proof.
  intros Hsize. induction fuel1 as [|fuel1 IH]; intros fuel2 xs acc w H1 H2.
  - destruct xs; [|simpl in H1; lia]. now destruct fuel2.
  - destruct xs as [|x xs]; [now destruct fuel2|].
    destruct fuel2 as [|fuel2]; [simpl in H2; lia|].
    cbn [for_batches]. unfold bind.
    destruct (body (firstn size (x :: xs)) acc w) as [[acc'|e] w1];
      [|reflexivity].
    assert (Hlen : (List.length (skipn size (x :: xs)) <= List.length xs)%nat).
    { rewrite length_skipn.
      change (List.length (x :: xs)) with (S (List.length xs)). lia. }
    apply IH; simpl in H1, H2; lia.
Qed.

Section Keeps.

Variable E : Env.
Variable R : World -> World -> Prop.
Variable P : World -> Prop.

Hypothesis R_refl : forall w, R w w.
Hypothesis R_trans : forall w1 w2 w3, R w1 w2 -> R w2 w3 -> R w1 w3.
Hypothesis P_stable : forall w w', P w -> R w w' -> P w'.

Lemma keeps_ret {A} (a : A) : keeps R P (ret a).
Proof. intros w _. apply R_refl. Qed.

Lemma keeps_throw {A} (e : string) : keeps R P (@throw A e).
Proof. intros w _. apply R_refl. Qed.

Lemma keeps_gets {A} (f : World -> A) : keeps R P (gets f).
Proof. intros w _. apply R_refl. Qed.

Lemma keeps_bind {A B} (m : M A) (k : A -> M B) :
  keeps R P m -> (forall a, keeps R P (k a)) -> keeps R P (bind m k).
Proof.
  intros Hm Hk w HP. unfold bind.
  pose proof (Hm w HP) as H1.
  destruct (m w) as [[a|e] w1]; simpl in *; [|exact H1].
  apply R_trans with w1; [exact H1|]. apply Hk. now apply P_stable with w.
Qed.

Lemma keeps_try_catch {A} (m : M A) (h : string -> M A) :
  keeps R P m -> (forall e, keeps R P (h e)) -> keeps R P (try_catch m h).
Proof.
  intros Hm Hh w HP. unfold try_catch.
  pose proof (Hm w HP) as H1.
  destruct (m w) as [[a|e] w1]; simpl in *; [exact H1|].
  apply R_trans with w1; [exact H1|]. apply Hh. now apply P_stable with w.
Qed.

Lemma keeps_for_of {A} (xs : list A) (body : A -> M unit) :
  (forall x, In x xs -> keeps R P (body x)) -> keeps R P (for_of xs body).
Proof.
  induction xs as [|x xs IH]; intros Hb; simpl.
  - apply keeps_ret.
  - apply keeps_bind; [apply Hb; now left|].
    intros _. apply IH. intros y Hy. apply Hb. now right.
Qed.

Lemma keeps_promise_all {A B} (f : A -> M B) (xs : list A) :
  (forall x, In x xs -> keeps R P (f x)) -> keeps R P (promise_all f xs).
Proof.
  induction xs as [|x xs IH]; intros Hf; simpl.
  - apply keeps_ret.
  - apply keeps_bind; [apply Hf; now left|]. intros y.
    apply keeps_bind; [|intros ys; apply keeps_ret].
    apply IH. intros z Hz. apply Hf. now right.
Qed.

Lemma keeps_for_batches {A S} (fuel size : nat) (xs : list A)
  (body : list A -> S -> M S) (acc : S) :
  (forall batch a, incl batch xs -> keeps R P (body batch a)) ->
  keeps R P (for_batches fuel size xs body acc).
Proof.
  revert xs acc.
  induction fuel as [|fuel IH]; intros xs acc Hb; destruct xs as [|x xs];
    simpl; try apply keeps_ret.
  apply keeps_bind.
  - apply Hb. intros y Hy. now apply in_firstn in Hy.
  - intros a. apply IH. intros batch a' Hincl. apply Hb.
    intros y Hy. apply Hincl in Hy. now apply in_skipn in Hy.
Qed.

(** Steps that only touch the counters or the job queue. *)
Hypothesis R_dbOps : forall w, R w (set_dbOps S w).
Hypothesis R_clockReads : forall w, R w (set_clockReads S w).
Hypothesis R_uuids : forall w, R w (set_uuids S w).
Hypothesis R_jobQueue : forall f w, R w (set_jobQueue f w).

Lemma keeps_dbCall : keeps R P (dbCall E).
Proof.
  intros w _. unfold dbCall. destruct (dbFails E (dbOps w)); apply R_dbOps.
Qed.

Lemma keeps_newDate : keeps R P (newDate E).
Proof. intros w _. apply R_clockReads. Qed.

Lemma keeps_newUuid : keeps R P (newUuid E).
Proof. intros w _. apply R_uuids. Qed.

Lemma keeps_set_jobQueue f : keeps R P (modify (set_jobQueue f)).
Proof. intros w _. apply R_jobQueue. Qed.

Ltac keeps_step :=
  first
    [ apply keeps_ret | apply keeps_throw | apply keeps_gets
    | apply keeps_dbCall | apply keeps_newDate | apply keeps_newUuid
    | apply keeps_set_jobQueue
    | apply keeps_bind; [|intro]
    | apply keeps_try_catch; [|intro]
    | match goal with
      | |- keeps _ _ (if ?b then _ else _) => destruct b
      | |- keeps _ _ (match ?x with _ => _ end) => destruct x
      end ].

Lemma keeps_enqueueJob type payload scheduledFor :
  keeps R P (enqueueJob E type payload scheduledFor).
Proof. unfold enqueueJob. repeat keeps_step. Qed.

Lemma keeps_getPendingJobs limit : keeps R P (getPendingJobs E limit).
Proof. unfold getPendingJobs. repeat keeps_step. Qed.

Lemma keeps_markJobProcessing jobId : keeps R P (markJobProcessing E jobId).
Proof. unfold markJobProcessing. repeat keeps_step. Qed.

Lemma keeps_markJobCompleted jobId : keeps R P (markJobCompleted E jobId).
Proof. unfold markJobCompleted. repeat keeps_step. Qed.

Lemma keeps_markJobFailed jobId error :
  keeps R P (markJobFailed E jobId error).
Proof. unfold markJobFailed. repeat keeps_step. Qed.

Lemma keeps_cleanupOldJobs days : keeps R P (cleanupOldJobs E days).
Proof. unfold cleanupOldJobs. repeat keeps_step. Qed.

Lemma keeps_getProject projectId : keeps R P (getProject E projectId).
Proof. unfold getProject. repeat keeps_step. Qed.

Lemma keeps_getUpdatesWithMedia ids : keeps R P (getUpdatesWithMedia E ids).
Proof. unfold getUpdatesWithMedia. repeat keeps_step. Qed.

Lemma keeps_triggerInstantDigest projectId updateId :
  keeps R P (triggerInstantDigest E projectId updateId).
Proof.
  unfold triggerInstantDigest. repeat keeps_step.
Qed.

Lemma keeps_queueDailyDigests : keeps R P (queueDailyDigests E).
Proof.
  unfold queueDailyDigests. repeat keeps_step.
  apply keeps_for_of. intros x _. repeat keeps_step.
Qed.

Lemma keeps_queueWeeklyDigests : keeps R P (queueWeeklyDigests E).
Proof.
  unfold queueWeeklyDigests. repeat keeps_step.
  apply keeps_for_of. intros x _. repeat keeps_step.
Qed.

(** The digest jobs, when sending and advancing watermarks fit [R] on
    their own. *)
Section Framing.

Hypothesis keeps_sendEmail : forall e, keeps R P (sendEmail E e).
Hypothesis keeps_updateLastSentAt :
  forall ids, keeps R P (updateLastSentAt E ids).

Lemma keeps_digestSubscriber project projectId f weekStart weekEnd s :
  keeps R P (digestSubscriber E project projectId f weekStart weekEnd s).
Proof.
  unfold digestSubscriber.
  repeat first
    [ apply keeps_getUpdatesWithMedia | apply keeps_updateLastSentAt
    | apply keeps_sendEmail | keeps_step ].
Qed.

Lemma keeps_processScheduledDigest_framing payload f :
  keeps R P (processScheduledDigest E payload f).
Proof.
  unfold processScheduledDigest.
  repeat first
    [ apply keeps_getProject
    | apply keeps_for_of; intros s _; apply keeps_digestSubscriber
    | keeps_step ].
Qed.

Lemma keeps_processInstantDigest_framing payload :
  keeps R P (processInstantDigest E payload).
Proof.
  unfold processInstantDigest.
  repeat first
    [ apply keeps_getProject | apply keeps_getUpdatesWithMedia
    | apply keeps_updateLastSentAt
    | apply keeps_for_batches; intros batch acc _
    | apply keeps_promise_all; intros s _
    | apply keeps_sendEmail | keeps_step ].
Qed.

End Framing.

(** The job processor, given the two kinds of digest jobs. *)
Hypothesis keeps_instant :
  forall payload, keeps R P (processInstantDigest E payload).
Hypothesis keeps_scheduled :
  forall payload f, keeps R P (processScheduledDigest E payload f).

Lemma keeps_processJob job : keeps R P (processJob E job).
Proof.
  unfold processJob.
  apply keeps_bind; [apply keeps_markJobProcessing|]. intros _.
  apply keeps_try_catch.
  - apply keeps_bind; [|intros _; apply keeps_markJobCompleted].
    repeat first [apply keeps_instant | apply keeps_scheduled | keeps_step].
  - intros e. apply keeps_bind; [apply keeps_markJobFailed|].
    intros _. apply keeps_throw.
Qed.

Lemma keeps_runJobProcessor : keeps R P (runJobProcessor E).
Proof.
  unfold runJobProcessor.
  apply keeps_bind; [apply keeps_getPendingJobs|]. intros jobs.
  destruct (List.length jobs =? 0)%nat; [apply keeps_ret|].
  apply keeps_for_of. intros job _.
  apply keeps_try_catch; [apply keeps_processJob|]. intros _. apply keeps_ret.
Qed.

End Keeps.

(* ------------------------------------------------------------------ *)
(** ** Scheduler *)

Section LastRun.

Variable E : Env.
Variable lastRun : ScheduleState -> option Date.

Let R := sameLastRun lastRun.
Let P := fun _ : World => True.

Lemma sameLastRun_refl : forall w, R w w.
Proof. intros w. reflexivity. Qed.

Lemma sameLastRun_trans : forall w1 w2 w3, R w1 w2 -> R w2 w3 -> R w1 w3.
Proof. unfold R, sameLastRun. intros w1 w2 w3 H1 H2. congruence. Qed.

Lemma sameLastRun_stable : forall w w', P w -> R w w' -> P w'.
Proof. intros w w' _ _. exact I. Qed.

Ltac frame_side :=
  first
    [ exact sameLastRun_refl | exact sameLastRun_trans
    | exact sameLastRun_stable
    | intros; reflexivity ].




Lemma sameLastRun_queueDailyDigests : keeps R P (queueDailyDigests E).
Proof. apply keeps_queueDailyDigests; frame_side. Qed.

Lemma sameLastRun_queueWeeklyDigests : keeps R P (queueWeeklyDigests E).
Proof. apply keeps_queueWeeklyDigests; frame_side. Qed.


End LastRun.

Section Tick.

Variable E : Env.

Lemma tickDailyDigest_run w :
  fst (tickDailyDigest E w) = Ok tt
  /\ dailyDigest (scheduleState (snd (tickDailyDigest E w)))
     = lastRunAfter E (shouldRunDailyDigest E) (queueDailyDigests E)
         dailyDigest w
  /\ sameLastRun weeklyDigest w (snd (tickDailyDigest E w))
  /\ sameLastRun cleanup w (snd (tickDailyDigest E w)).
Proof.
  pose proof (sameLastRun_queueDailyDigests E) as Hq.
  unfold tickDailyDigest, lastRunAfter, shouldRunDailyDigest, sameLastRun.
  run_monad.
  destruct (clock E (clockReads w) <? _); simpl; [repeat split|].
  destruct (ranSince _ _); simpl; [repeat split|].
  match goal with
  | |- context [queueDailyDigests E ?w0] =>
    pose proof (Hq weeklyDigest w0 I) as Hw;
    pose proof (Hq cleanup w0 I) as Hc;
    pose proof (Hq dailyDigest w0 I) as Hd;
    destruct (queueDailyDigests E w0) as [[[]|e] w1]
  end; unfold sameLastRun in *; simpl in *; repeat split; assumption.
Qed.

Lemma tickWeeklyDigest_run w :
  fst (tickWeeklyDigest E w) = Ok tt
  /\ weeklyDigest (scheduleState (snd (tickWeeklyDigest E w)))
     = lastRunAfter E (shouldRunWeeklyDigest E) (queueWeeklyDigests E)
         weeklyDigest w
  /\ sameLastRun dailyDigest w (snd (tickWeeklyDigest E w))
  /\ sameLastRun cleanup w (snd (tickWeeklyDigest E w)).
Proof.
  pose proof (sameLastRun_queueWeeklyDigests E) as Hq.
  unfold tickWeeklyDigest, lastRunAfter, shouldRunWeeklyDigest, sameLastRun.
  run_monad.
  destruct (negb _); simpl; [repeat split|].
  destruct (clock E (clockReads w) <? _); simpl; [repeat split|].
  destruct (ranSince _ _); simpl; [repeat split|].
  match goal with
  | |- context [queueWeeklyDigests E ?w0] =>
    pose proof (Hq weeklyDigest w0 I) as Hw;
    pose proof (Hq cleanup w0 I) as Hc;
    pose proof (Hq dailyDigest w0 I) as Hd;
    destruct (queueWeeklyDigests E w0) as [[[]|e] w1]
  end; unfold sameLastRun in *; simpl in *; repeat split; assumption.
Qed.



End Tick.



(* ------------------------------------------------------------------ *)
(** ** Watermarks only advance *)

Lemma Forall2_refl_on {A} (Q : A -> A -> Prop) (l : list A) :
  (forall x, In x l -> Q x x) -> Forall2 Q l l.
Proof.
  induction l as [|a l IH]; intros H; constructor.
  - apply H. now left.
  - apply IH. intros x Hx. apply H. now right.
Qed.

Lemma Forall2_map_right {A} (Q : A -> A -> Prop) (g : A -> A) (l : list A) :
  (forall x, In x l -> Q x (g x)) -> Forall2 Q l (map g l).
Proof.
  induction l as [|a l IH]; intros H; simpl; constructor.
  - apply H. now left.
  - apply IH. intros x Hx. apply H. now right.
Qed.

Lemma Forall2_compose {A} (Q1 Q2 Q3 : A -> A -> Prop) (l1 l2 l3 : list A) :
  (forall x y z, Q1 x y -> Q2 y z -> Q3 x z) ->
  Forall2 Q1 l1 l2 -> Forall2 Q2 l2 l3 -> Forall2 Q3 l1 l3.
Proof.
  intros H H12. revert l3.
  induction H12 as [|x y l1 l2 Hxy _ IH]; intros l3 H23;
    inversion H23; subst; constructor; eauto.
Qed.

Lemma Forall2_in_right {A} (Q : A -> A -> Prop) (l l' : list A) (y : A) :
  Forall2 Q l l' -> In y l' -> exists x, In x l /\ Q x y.
Proof.
  induction 1 as [|a b l l' Hab _ IH]; intros Hy; [contradiction|].
  destruct Hy as [<-|Hy].
  - exists a. split; [now left|exact Hab].
  - destruct (IH Hy) as [x [Hx HQ]]. exists x. split; [now right|exact HQ].
Qed.

Lemma Forall2_in_left {A} (Q : A -> A -> Prop) (l l' : list A) (x : A) :
  Forall2 Q l l' -> In x l -> exists y, In y l' /\ Q x y.
Proof.
  induction 1 as [|a b l l' Hab _ IH]; intros Hx; [contradiction|].
  destruct Hx as [<-|Hx].
  - exists b. split; [now left|exact Hab].
  - destruct (IH Hx) as [y [Hy HQ]]. exists y. split; [now right|exact HQ].
Qed.

Lemma sameButLastSent_refl r : sameButLastSent r r.
Proof. unfold sameButLastSent. now destruct r. Qed.

Lemma sameButLastSent_trans r1 r2 r3 :
  sameButLastSent r1 r2 -> sameButLastSent r2 r3 -> sameButLastSent r1 r3.
Proof.
  unfold sameButLastSent. intros H12 H23. rewrite H23. rewrite H12. simpl.
  reflexivity.
Qed.

Lemma sameButLastSent_ident r r' :
  sameButLastSent r r' -> sub_ident r' = sub_ident r.
Proof. unfold sameButLastSent. intros ->. reflexivity. Qed.

Lemma sentOkTo_app_l log1 log2 email :
  sentOkTo log1 email -> sentOkTo (log1 ++ log2) email.
Proof.
  intros [e [res [Hin H]]]. exists e, res. split; [|exact H].
  apply in_or_app. now left.
Qed.

Lemma sentOkTo_app_r log1 log2 email :
  sentOkTo log2 email -> sentOkTo (log1 ++ log2) email.
Proof.
  intros [e [res [Hin H]]]. exists e, res. split; [|exact H].
  apply in_or_app. now right.
Qed.

Section Advance.

Variable E : Env.

Lemma rowAdvance_refl c0 c1 log r : rowAdvance E c0 c1 log r r.
Proof. split; [apply sameButLastSent_refl | now left]. Qed.

Lemma advance_refl w : advance E w w.
Proof.
  split; [lia|]. exists []. split; [now rewrite app_nil_r|].
  apply Forall2_refl_on. intros r _. apply rowAdvance_refl.
Qed.

Lemma advance_trans w1 w2 w3 :
  advance E w1 w2 -> advance E w2 w3 -> advance E w1 w3.
Proof.
  intros [Hc12 [log1 [Ho12 Hr12]]] [Hc23 [log2 [Ho23 Hr23]]].
  split; [lia|]. exists (log1 ++ log2). split.
  - rewrite Ho23, Ho12. now rewrite app_assoc.
  - eapply Forall2_compose; [|exact Hr12|exact Hr23].
    intros x y z [Hs1 H1] [Hs2 H2]. split.
    + eapply sameButLastSent_trans; eassumption.
    + assert (Hmail : sub_email y = sub_email x).
      { apply sameButLastSent_ident in Hs1. now injection Hs1. }
      destruct H2 as [H2|[k [Hk [Hl Hsent]]]].
      * rewrite H2. destruct H1 as [H1|[k [Hk [Hl Hsent]]]]; [now left|].
        right. exists k. repeat split; try lia; [exact Hl|].
        now apply sentOkTo_app_l.
      * right. exists k. repeat split; try lia; [exact Hl|].
        rewrite <- Hmail. now apply sentOkTo_app_r.
Qed.

(** A step that leaves the subscription table alone. *)
Lemma advance_same_rows w w' log :
  (clockReads w <= clockReads w')%nat ->
  outbox w' = outbox w ++ log ->
  digestSubscriptions w' = digestSubscriptions w ->
  advance E w w'.
Proof.
  intros Hc Ho Hs. split; [exact Hc|]. exists log. split; [exact Ho|].
  rewrite Hs. apply Forall2_refl_on. intros r _. apply rowAdvance_refl.
Qed.

Lemma identified_stable K w w' :
  identified K w -> advance E w w' -> identified K w'.
Proof.
  intros [HK Hnd] [_ [log [_ Hrows]]]. split; [|exact Hnd].
  rewrite <- HK. clear HK Hnd.
  induction Hrows as [|r r' l l' [Hs _] _ IH]; simpl; [reflexivity|].
  rewrite IH. f_equal. now apply sameButLastSent_ident.
Qed.

Ltac same_rows :=
  intros;
  match goal with
  | |- advance _ ?w _ =>
    first [ apply (advance_same_rows w _ []); simpl;
            [lia | now rewrite app_nil_r | reflexivity]
          | eapply advance_same_rows; simpl; [lia | reflexivity | reflexivity] ]
  end.

Lemma advance_dbOps w : advance E w (set_dbOps S w).
Proof. same_rows. Qed.

Lemma advance_clockReads w : advance E w (set_clockReads S w).
Proof. same_rows. Qed.

Lemma advance_uuids w : advance E w (set_uuids S w).
Proof. same_rows. Qed.

Lemma advance_jobQueue f w : advance E w (set_jobQueue f w).
Proof. same_rows. Qed.

Lemma advance_scheduleState f w : advance E w (set_scheduleState f w).
Proof. same_rows. Qed.

Lemma advance_outbox log w :
  advance E w (set_outbox (fun o => o ++ log) w).
Proof. same_rows. Qed.

Lemma sendsOnly_nil w : sendsOnly [] w w.
Proof. unfold sendsOnly. destruct w. simpl. now rewrite app_nil_r. Qed.

Lemma sendsOnly_app log1 log2 w1 w2 w3 :
  sendsOnly log1 w1 w2 -> sendsOnly log2 w2 w3 ->
  sendsOnly (log1 ++ log2) w1 w3.
Proof.
  unfold sendsOnly. intros -> ->. simpl. now rewrite app_assoc.
Qed.

Lemma inArray_In x xs : inArray x xs = true -> In x xs.
Proof.
  unfold inArray. intros H. apply existsb_exists in H.
  destruct H as [y [Hy Heq]]. apply String.eqb_eq in Heq. now subst.
Qed.

Lemma identified_email K w r s :
  identified K w -> In r (digestSubscriptions w) -> In (sub_ident s) K ->
  sub_id r = sub_id s -> sub_email r = sub_email s.
Proof.
  intros [HK Hnd] Hr Hs Hid.
  assert (Hr' : In (sub_ident r) K).
  { rewrite <- HK. now apply in_map. }
  clear HK. unfold sub_ident in *. rewrite Hid in Hr'.
  induction K as [|[i e] K IH]; simpl in *; [contradiction|].
  inversion Hnd as [|i' l' Hnotin Hnd']; subst.
  destruct Hr' as [Hr'|Hr'], Hs as [Hs|Hs].
  - congruence.
  - injection Hr' as -> ->. exfalso. apply Hnotin.
    apply in_map_iff. now exists (sub_id s, sub_email s).
  - injection Hs as -> ->. exfalso. apply Hnotin.
    apply in_map_iff. now exists (sub_id s, sub_email r).
  - now apply IH.
Qed.

Section Identified.

Variable K : list (Id * string).

Let R := advance E.
Let P := identified K.

Lemma advance_sendEmail e : keeps R P (sendEmail E e).
Proof.
  intros w _. unfold R, sendEmail. run_monad. apply advance_outbox.
Qed.

(** Marking rows as sent at the next reading of the clock, after [log]
    went out. *)
Lemma advance_mark_sent w log ids now :
  identified K w ->
  now = clock E (clockReads w) ->
  (forall r, In r (digestSubscriptions w) -> inArray (sub_id r) ids = true ->
     sentOkTo log (sub_email r)) ->
  Forall2 (rowAdvance E (clockReads w) (S (clockReads w)) log)
    (digestSubscriptions w)
    (map (fun s =>
            if inArray (sub_id s) ids then
              mkSubscription (sub_id s) (sub_projectId s) (sub_email s)
                (sub_frequency s) (Some now) (sub_createdAt s)
            else s) (digestSubscriptions w)).
Proof.
  intros HP -> Hsent. apply Forall2_map_right. intros r Hr.
  destruct (inArray (sub_id r) ids) eqn:Hin; [|apply rowAdvance_refl].
  split; [reflexivity|]. right. exists (clockReads w).
  repeat split; try lia. now apply Hsent.
Qed.

(** A send followed by the update of the watermark it earns. *)
Lemma advance_send_then_mark s e :
  In (sub_ident s) K -> to e = sub_email s ->
  keeps R P
    (bind (sendEmail E e) (fun result =>
       if success result then updateLastSentAt E [sub_id s] else ret tt)).
Proof.
  intros Hs Hto w HP. unfold R, P in *.
  unfold sendEmail, updateLastSentAt. run_monad.
  set (res := if RESEND_API_KEY E then _ else _).
  destruct (success res) eqn:Hres; simpl; [|same_rows].
  destruct (dbFails E (dbOps w)); simpl; [same_rows|].
  split; simpl; [lia|]. exists [(e, res)]. split; [reflexivity|].
  apply advance_mark_sent; [exact HP|reflexivity|].
  intros r Hr Hin. apply inArray_In in Hin. destruct Hin as [Hin|[]].
  exists e, res. repeat split; [now left| |exact Hres].
  rewrite Hto. symmetry. eapply identified_email; eauto.
Qed.

Ltac adv_side :=
  first
    [ exact advance_refl | exact advance_trans
    | exact (identified_stable K)
    | exact advance_dbOps | exact advance_clockReads
    | exact advance_uuids | exact advance_jobQueue ].

Lemma advance_digestSubscriber project projectId f weekStart weekEnd s :
  In (sub_ident s) K ->
  keeps R P (digestSubscriber E project projectId f weekStart weekEnd s).
Proof.
  intros Hs. unfold digestSubscriber.
  apply keeps_bind; try adv_side; [apply keeps_dbCall; adv_side|]. intros _.
  apply keeps_bind; try adv_side; [apply keeps_gets; adv_side|].
  intros newUpdates.
  destruct (List.length newUpdates =? 0)%nat;
    [apply keeps_ret; adv_side|].
  apply keeps_bind; try adv_side;
    [apply keeps_getUpdatesWithMedia; adv_side|].
  intros uwm.
  destruct f; unfold sendDailyDigest, sendWeeklyDigest;
    now apply advance_send_then_mark.
Qed.

Lemma advance_processScheduledDigest payload f :
  keeps R P (processScheduledDigest E payload f).
Proof.
  unfold processScheduledDigest.
  apply keeps_bind; try adv_side; [apply keeps_getProject; adv_side|].
  intros [project|]; [|apply keeps_throw; adv_side].
  intros w HP. unfold R, P in *. run_monad.
  destruct (dbFails E (dbOps w)); simpl; [same_rows|].
  set (subscribers := subscribersOf _ _ _).
  destruct (List.length subscribers =? 0)%nat; simpl; [same_rows|].
  match goal with
  | |- advance _ _ (snd (for_of _ _ ?w2)) =>
    apply advance_trans with w2; [same_rows|];
    apply (keeps_for_of (advance E) (identified K) advance_refl
             advance_trans (identified_stable K));
    [|apply identified_stable with w; [exact HP|same_rows]]
  end.
  intros x Hx. apply advance_digestSubscriber.
  destruct HP as [HK _]. rewrite <- HK. apply in_map.
  unfold subscribers, subscribersOf in Hx. apply filter_In in Hx. tauto.
Qed.

Lemma bind_Ok {A B} (m : M A) (k : A -> M B) w a w1 :
  m w = (Ok a, w1) -> bind m k w = k a w1.
Proof. intros H. unfold bind. now rewrite H. Qed.

Lemma sendEmail_run e w :
  exists res,
    sendEmail E e w = (Ok res, set_outbox (fun o => o ++ [(e, res)]) w).
Proof. unfold sendEmail. run_monad. eexists. reflexivity. Qed.

(** One batch of instant notifications: nothing but sends, and every
    successful result is a confirmed send to the subscriber that bears the
    id. *)
Lemma promise_all_sends project update batch w :
  let notify := fun subscriber =>
    bind (sendInstantUpdate E (sub_email subscriber) project update)
         (fun result => ret (sub_id subscriber, result)) in
  exists results log w',
    promise_all notify batch w = (Ok results, w')
    /\ sendsOnly log w w'
    /\ forall id res, In (id, res) results -> success res = true ->
         exists s, In s batch /\ sub_id s = id
                   /\ sentOkTo log (sub_email s).
Proof.
  intros notify. revert w. induction batch as [|x batch IH]; intros w.
  - exists [], [], w. simpl. repeat split; [apply sendsOnly_nil|].
    intros id res [].
  - cbn [promise_all].
    set (e := mkEmail (sub_email x) InstantUpdate (proj_name project)
                (proj_magicLinkToken project)
                (or_undefined (proj_brandingColor project))
                (or_undefined (proj_brandingLogoUrl project)) [update]).
    destruct (sendEmail_run e w) as [res Hsend].
    assert (Hx : notify x w
                 = (Ok (sub_id x, res),
                    set_outbox (fun o => o ++ [(e, res)]) w)).
    { unfold notify, sendInstantUpdate. fold e.
      now rewrite (bind_Ok _ _ _ _ _ Hsend). }
    rewrite (bind_Ok _ _ _ _ _ Hx).
    destruct (IH (set_outbox (fun o => o ++ [(e, res)]) w))
      as [results [log [w' [Hrun [Hlog Hres]]]]].
    rewrite (bind_Ok _ _ _ _ _ Hrun).
    exists ((sub_id x, res) :: results), ([(e, res)] ++ log), w'.
    repeat split.
    + eapply sendsOnly_app; [reflexivity|exact Hlog].
    + intros id r [Hhd|Htl] Hok.
      * injection Hhd as <- <-. exists x. repeat split; [now left|].
        apply sentOkTo_app_l. exists e, res.
        repeat split; [now left|exact Hok].
      * destruct (Hres id r Htl Hok) as [s [Hin [Hid Hsent]]].
        exists s. repeat split; [now right|exact Hid|].
        now apply sentOkTo_app_r.
Qed.

Lemma for_batches_sends project update fuel xs acc w :
  let notify := fun subscriber =>
    bind (sendInstantUpdate E (sub_email subscriber) project update)
         (fun result => ret (sub_id subscriber, result)) in
  let body := fun (batch : list Subscription) (successfulIds : list Id) =>
    bind (promise_all notify batch)
         (fun results =>
            ret (successfulIds
                 ++ map fst (filter (fun r => success (snd r)) results))) in
  exists acc' log w',
    for_batches fuel BATCH_SIZE xs body acc w = (Ok acc', w')
    /\ sendsOnly log w w'
    /\ forall id, In id acc' ->
         In id acc
         \/ exists s, In s xs /\ sub_id s = id /\ sentOkTo log (sub_email s).
Proof.
  intros notify body. revert xs acc w.
  induction fuel as [|fuel IH]; intros xs acc w.
  - exists acc, [], w. destruct xs; simpl;
      (repeat split; [apply sendsOnly_nil|now left]).
  - destruct xs as [|x xs].
    { exists acc, [], w. simpl.
      repeat split; [apply sendsOnly_nil|now left]. }
    cbn [for_batches].
    destruct (promise_all_sends project update
                (firstn BATCH_SIZE (x :: xs)) w)
      as [results [log1 [w1 [Hrun [Hsend1 Hres]]]]].
    fold notify in Hrun.
    set (acc1 := acc ++ map fst (filter (fun r => success (snd r)) results)).
    assert (Hbody : body (firstn BATCH_SIZE (x :: xs)) acc w = (Ok acc1, w1)).
    { unfold body. now rewrite (bind_Ok _ _ _ _ _ Hrun). }
    rewrite (bind_Ok _ _ _ _ _ Hbody).
    destruct (IH (skipn BATCH_SIZE (x :: xs)) acc1 w1)
      as [acc' [log2 [w' [Hrun2 [Hsend2 Hacc]]]]].
    exists acc', (log1 ++ log2), w'. repeat split.
    + exact Hrun2.
    + eapply sendsOnly_app; eassumption.
    + intros id Hid. destruct (Hacc id Hid) as [Hin|[s [Hs [Hsid Hsent]]]].
      * unfold acc1 in Hin. apply in_app_or in Hin.
        destruct Hin as [Hin|Hin]; [now left|]. right.
        apply in_map_iff in Hin. destruct Hin as [[i r] [Hfst Hin]].
        simpl in Hfst. subst i. apply filter_In in Hin.
        destruct Hin as [Hin Hok]. simpl in Hok.
        destruct (Hres id r Hin Hok) as [s [Hs [Hsid Hsent]]].
        exists s. repeat split; [now apply in_firstn in Hs|exact Hsid|].
        now apply sentOkTo_app_l.
      * right. exists s. repeat split; [now apply in_skipn in Hs|exact Hsid|].
        now apply sentOkTo_app_r.
Qed.

Lemma advance_processInstantDigest payload :
  keeps R P (processInstantDigest E payload).
Proof.
  unfold processInstantDigest.
  destruct payload as [projectId updateId subscriberIds|projectId];
    [|apply keeps_throw; adv_side].
  apply keeps_bind; try adv_side; [apply keeps_getProject; adv_side|].
  intros [project|]; [|apply keeps_throw; adv_side].
  apply keeps_bind; try adv_side;
    [apply keeps_getUpdatesWithMedia; adv_side|].
  intros [|update _]; [apply keeps_throw; adv_side|].
  intros w HP. unfold R, P in *.
  unfold bind at 1. unfold dbCall.
  destruct (dbFails E (dbOps w)); [same_rows|].
  unfold bind at 1. unfold gets at 1. cbn [digestSubscriptions set_dbOps].
  set (w1 := set_dbOps S w).
  set (subscribers := filter _ (digestSubscriptions w)).
  destruct (for_batches_sends project update (List.length subscribers)
              subscribers [] w1) as [acc [log [w2 [Hrun [Hsend Hacc]]]]].
  cbv zeta in Hrun. rewrite (bind_Ok _ _ _ _ _ Hrun).
  unfold sendsOnly in Hsend. subst w2. clear Hrun.
  unfold updateLastSentAt. run_monad.
  destruct (List.length acc =? 0)%nat; simpl; [same_rows|].
  destruct (dbFails E (S (dbOps w))); simpl; [same_rows|].
  split; simpl; [lia|]. exists log. split; [reflexivity|].
  apply advance_mark_sent; [exact HP|reflexivity|].
  intros r Hr Hin. apply inArray_In in Hin.
  destruct (Hacc _ Hin) as [[]|[s [Hs [Hsid Hsent]]]].
  replace (sub_email r) with (sub_email s); [exact Hsent|].
  symmetry. eapply identified_email; eauto.
  destruct HP as [HK _]. rewrite <- HK. apply in_map.
  unfold subscribers in Hs. apply filter_In in Hs. tauto.
Qed.

Lemma advance_processJob job : keeps R P (processJob E job).
Proof.
  apply keeps_processJob; try adv_side.
  - exact advance_processInstantDigest.
  - exact advance_processScheduledDigest.
Qed.

Lemma advance_runJobProcessor : keeps R P (runJobProcessor E).
Proof.
  apply keeps_runJobProcessor; try adv_side.
  - exact advance_processInstantDigest.
  - exact advance_processScheduledDigest.
Qed.

Lemma advance_set_scheduleState f :
  keeps R P (modify (set_scheduleState f)).
Proof. intros w _. apply advance_scheduleState. Qed.

Ltac adv_step :=
  first
    [ apply keeps_ret; adv_side
    | apply keeps_gets; adv_side
    | apply keeps_newDate; adv_side
    | apply advance_set_scheduleState
    | apply keeps_queueDailyDigests; adv_side
    | apply keeps_queueWeeklyDigests; adv_side
    | apply keeps_cleanupOldJobs; adv_side
    | apply advance_runJobProcessor
    | match goal with
      | |- keeps _ _ (if ?b then _ else _) => destruct b
      end
    | apply keeps_try_catch; try adv_side; [|intro]
    | apply keeps_bind; try adv_side; [|intro] ].

Lemma advance_runSchedulerTick : keeps R P (runSchedulerTick E).
Proof.
  unfold runSchedulerTick, tickDailyDigest, tickWeeklyDigest, tickCleanup,
    shouldRunDailyDigest, shouldRunWeeklyDigest, shouldRunCleanup.
  repeat adv_step.
Qed.

Lemma advance_runOp op : keeps R P (runOp E op).
Proof.
  destruct op; simpl.
  - apply keeps_triggerInstantDigest; adv_side.
  - apply keeps_queueDailyDigests; adv_side.
  - apply keeps_queueWeeklyDigests; adv_side.
  - apply advance_processJob.
  - apply advance_runJobProcessor.
  - apply advance_runSchedulerTick.
Qed.

Lemma advance_runOps ops w : P w -> R w (runOps E ops w).
Proof.
  revert w. induction ops as [|op ops IH]; intros w HP; simpl.
  - apply advance_refl.
  - pose proof (advance_runOp op w HP) as H1.
    apply advance_trans with (snd (runOp E op w)); [exact H1|].
    apply IH. now apply identified_stable with w.
Qed.

End Identified.

End Advance.

Lemma notBefore_refl a : notBefore a a.
Proof. destruct a; simpl; [lia|exact I]. Qed.

(** C7. Over any sequence of operations of the digest engine, whether they
    return or throw, every subscription row stays the same row and its
    [last_sent_at] never decreases: it is either untouched, or a reading
    of the clock taken during the sequence, and then the e-mails sent
    during the sequence include a confirmed send to the row's address. *)
Theorem last_sent_at_never_decreases :
  forall E ops w,
    clockMonotone E ->
    NoDup (map sub_id (digestSubscriptions w)) ->
    watermarksPast E w ->
    let w' := runOps E ops w in
    exists log,
      outbox w' = outbox w ++ log
      /\ Forall2
           (fun r r' =>
              sameButLastSent r r'
              /\ notBefore (sub_lastSentAt r) (sub_lastSentAt r')
              /\ (sub_lastSentAt r' = sub_lastSentAt r
                  \/ exists k, (clockReads w <= k < clockReads w')%nat
                               /\ sub_lastSentAt r' = Some (clock E k)
                               /\ sentOkTo log (sub_email r)))
           (digestSubscriptions w) (digestSubscriptions w').
Proof.
  intros E ops w Hmono Hnd Hpast w'.
  assert (HP : identified (map sub_ident (digestSubscriptions w)) w).
  { split; [reflexivity|]. now rewrite map_map. }
  destruct (advance_runOps E _ ops w HP) as [Hc [log [Hlog Hrows]]].
  fold w' in Hc, Hlog, Hrows.
  exists log. split; [exact Hlog|].
  revert Hrows Hpast. unfold watermarksPast.
  generalize (digestSubscriptions w) (digestSubscriptions w').
  intros l l' Hrows. induction Hrows as [|r r' l l' [Hs Hr] _ IH];
    intros Hpast; constructor.
  - repeat split; [exact Hs| |exact Hr].
    destruct Hr as [Hr|[k [Hk [Hr _]]]].
    + rewrite Hr. apply notBefore_refl.
    + rewrite Hr. destruct (sub_lastSentAt r) as [t|] eqn:Ht; simpl; [|exact I].
      apply Z.le_trans with (clock E (clockReads w)).
      * apply (Hpast r t); [now left|exact Ht].
      * apply Hmono. lia.
  - apply IH. intros x t Hx. apply Hpast. now right.
Qed.

(** No watermark in the future is an invariant of the operations, so it
    holds in every state reached from a table of fresh subscriptions. *)
Lemma watermarksPast_runOps E ops w :
  clockMonotone E ->
  NoDup (map sub_id (digestSubscriptions w)) ->
  watermarksPast E w ->
  watermarksPast E (runOps E ops w).
Proof.
  intros Hmono Hnd Hpast.
  assert (HP : identified (map sub_ident (digestSubscriptions w)) w).
  { split; [reflexivity|]. now rewrite map_map. }
  destruct (advance_runOps E _ ops w HP) as [Hc [log [_ Hrows]]].
  intros r' t Hr' Ht.
  destruct (Forall2_in_right _ _ _ r' Hrows Hr') as [r [Hr [_ Hor]]].
  destruct Hor as [Heq|[k [Hk [Hl _]]]].
  - apply Z.le_trans with (clock E (clockReads w)).
    + apply (Hpast r t Hr). congruence.
    + now apply Hmono.
  - rewrite Hl in Ht. injection Ht as <-. apply Hmono. lia.
Qed.

(* ------------------------------------------------------------------ *)
(** ** Scheduled digests *)

Section Scheduled.

Variable E : Env.
Variable projectId : Id.
Variable l : list Subscription.

Let R := scheduledStep projectId l.
Let P := fun _ : World => True.

Lemma scheduledStep_refl w : R w w.
Proof.
  repeat split.
  - apply Forall2_refl_on. intros r _. now right.
  - exists []. split; [now rewrite app_nil_r|]. intros e res [].
Qed.

Lemma scheduledStep_trans w1 w2 w3 : R w1 w2 -> R w2 w3 -> R w1 w3.
Proof.
  intros [Hj1 [Hu1 [Hr1 [log1 [Ho1 Hd1]]]]] [Hj2 [Hu2 [Hr2 [log2 [Ho2 Hd2]]]]].
  repeat split; try congruence.
  - eapply Forall2_compose; [|exact Hr1|exact Hr2].
    intros x y z [Hx| ->] [Hy| ->]; auto.
  - exists (log1 ++ log2). split.
    + rewrite Ho2, Ho1. now rewrite app_assoc.
    + intros e res Hin. apply in_app_or in Hin. destruct Hin as [Hin|Hin].
      * eapply Hd1; eassumption.
      * rewrite <- Hu1. eapply Hd2; eassumption.
Qed.

Lemma scheduledStep_stable : forall w w', P w -> R w w' -> P w'.
Proof. intros w w' _ _. exact I. Qed.

(** A step that leaves tables and outbox alone. *)
Lemma scheduledStep_quiet w w' :
  jobQueue w' = jobQueue w -> updates w' = updates w ->
  digestSubscriptions w' = digestSubscriptions w -> outbox w' = outbox w ->
  R w w'.
Proof.
  intros Hj Hu Hs Ho. repeat split; try assumption.
  - rewrite Hs. apply Forall2_refl_on. intros r _. now right.
  - exists []. split; [now rewrite app_nil_r|]. intros e res [].
Qed.

Ltac quiet := intros; apply scheduledStep_quiet; reflexivity.

Lemma uwm_update_attach (imgs : list (Id * list Image))
  (lks : list (Id * list Link)) (us : list Update) :
  map uwm_update
    (map (fun u => mkUpdateWithMedia u (or_empty (map_get imgs (upd_id u)))
                     (or_empty (map_get lks (upd_id u)))) us) = us.
Proof. rewrite map_map. simpl. apply map_id. Qed.

Lemma scheduledStep_digestSubscriber project f weekStart weekEnd x :
  In x l ->
  keeps R P (digestSubscriber E project projectId f weekStart weekEnd x).
Proof.
  intros Hx w _. unfold R.
  unfold digestSubscriber, getUpdatesWithMedia, sendDailyDigest,
    sendWeeklyDigest, sendEmail, updateLastSentAt.
  run_monad.
  destruct (dbFails E (dbOps w)); simpl; [quiet|].
  fold (dueUpdates projectId (updates w) x).
  destruct (dueUpdates projectId (updates w) x) as [|u us] eqn:Hdue; simpl;
    [quiet|].
  destruct (dbFails E (S (dbOps w))); simpl; [quiet|].
  destruct (dbFails E (S (S (dbOps w)))); simpl; [quiet|].
  destruct (dbFails E (S (S (S (dbOps w))))); simpl; [quiet|].
  set (ids := upd_id u :: map upd_id us).
  set (uwm := map _ (filter (fun u0 => inArray (upd_id u0) ids) (updates w))).
  assert (Hdigest : forall k, digestOf projectId l (updates w)
            (mkEmail (sub_email x) k (proj_name project)
               (proj_magicLinkToken project)
               (or_undefined (proj_brandingColor project))
               (or_undefined (proj_brandingLogoUrl project)) uwm)).
  { intros k. exists x. repeat split; [exact Hx| |].
    - rewrite Hdue. discriminate.
    - simpl. unfold uwm. rewrite uwm_update_attach. rewrite Hdue.
      reflexivity. }
  assert (Hrows : forall now,
    Forall2 (fun r r' => In (sub_id r) (map sub_id l) \/ r' = r)
      (digestSubscriptions w)
      (map (fun s =>
              if inArray (sub_id s) [sub_id x] then
                mkSubscription (sub_id s) (sub_projectId s) (sub_email s)
                  (sub_frequency s) (Some now) (sub_createdAt s)
              else s) (digestSubscriptions w))).
  { intros now. apply Forall2_map_right. intros r _.
    destruct (inArray (sub_id r) [sub_id x]) eqn:Hin; [|now right].
    left. apply inArray_In in Hin. destruct Hin as [Hin|[]].
    rewrite <- Hin. now apply in_map. }
  assert (Hsame : Forall2 (fun r r' => In (sub_id r) (map sub_id l) \/ r' = r)
                    (digestSubscriptions w) (digestSubscriptions w)).
  { apply Forall2_refl_on. intros r _. now right. }
  destruct f; simpl;
    match goal with
    | |- context [success ?r] => destruct (success r)
    end; simpl;
    try (destruct (dbFails E (S (S (S (S (dbOps w)))))); simpl);
    (repeat split; [first [apply Hrows | exact Hsame]|]);
    eexists; (split; [reflexivity|]);
    intros e res [Hin|[]]; injection Hin as <- _; apply Hdigest.
Qed.

Lemma scheduledStep_loop project f weekStart weekEnd :
  keeps R P
    (for_of l (digestSubscriber E project projectId f weekStart weekEnd)).
Proof.
  apply (keeps_for_of R P scheduledStep_refl scheduledStep_trans
           scheduledStep_stable).
  intros x Hx. now apply scheduledStep_digestSubscriber.
Qed.

Lemma scheduledStep_processScheduledDigest payload f w :
  payload_projectId payload = projectId ->
  l = subscribersOf projectId (frequency_name f) (digestSubscriptions w) ->
  R w (snd (processScheduledDigest E payload f w)).
Proof.
  intros Hpid Hl. unfold processScheduledDigest, getProject. rewrite Hpid.
  run_monad.
  destruct (dbFails E (dbOps w)); simpl; [quiet|].
  destruct (hd_error _) as [project|]; simpl; [|quiet].
  destruct (dbFails E (S (dbOps w))); simpl; [quiet|].
  rewrite <- Hl.
  destruct (List.length l =? 0)%nat; simpl; [quiet|].
  match goal with
  | |- R _ (snd (for_of _ _ ?w2)) =>
    apply scheduledStep_trans with w2; [quiet|]
  end.
  now apply scheduledStep_loop.
Qed.

End Scheduled.

Lemma inArray_singleton x : inArray x [x] = true.
Proof. unfold inArray. simpl. now rewrite String.eqb_refl. Qed.

Section ScheduledRun.

Variable E : Env.
Hypothesis Hdb : dbReachable E.

Variable K : list (Id * string).
Variable project : Project.
Variable projectId : Id.
Variable f : ScheduledFrequency.
Variables weekStart weekEnd : Date.

Let body := digestSubscriber E project projectId f weekStart weekEnd.

(** One subscriber, when the database answers: the body returns; without
    due updates nothing is sent; otherwise one e-mail goes to the
    subscriber and, when the transport confirms it, the subscriber's rows
    get the current reading of the clock. *)
Lemma digestSubscriber_run x w :
  fst (body x w) = Ok tt
  /\ (dueUpdates projectId (updates w) x = [] ->
      outbox (snd (body x w)) = outbox w)
  /\ (dueUpdates projectId (updates w) x <> [] ->
      exists e res,
        outbox (snd (body x w)) = outbox w ++ [(e, res)]
        /\ to e = sub_email x
        /\ (success res = true ->
            clockReads (snd (body x w)) = S (clockReads w)
            /\ forall r, In r (digestSubscriptions (snd (body x w))) ->
                 sub_id r = sub_id x ->
                 sub_lastSentAt r = Some (clock E (clockReads w)))).
Proof.
  unfold body, digestSubscriber, getUpdatesWithMedia, sendDailyDigest,
    sendWeeklyDigest, sendEmail, updateLastSentAt.
  run_monad. rewrite Hdb. simpl.
  fold (dueUpdates projectId (updates w) x).
  destruct (dueUpdates projectId (updates w) x) as [|u us]; simpl.
  { repeat split. intros H. now contradiction H. }
  repeat (rewrite Hdb; simpl).
  assert (Hrows : forall now r,
    In r (map (fun s =>
                 if inArray (sub_id s) [sub_id x] then
                   mkSubscription (sub_id s) (sub_projectId s) (sub_email s)
                     (sub_frequency s) (Some now) (sub_createdAt s)
                 else s) (digestSubscriptions w)) ->
    sub_id r = sub_id x -> sub_lastSentAt r = Some now).
  { intros now r Hr Hid. apply in_map_iff in Hr. destruct Hr as [r0 [Hr0 _]].
    destruct (inArray (sub_id r0) [sub_id x]) eqn:Hin; subst r;
      [reflexivity|].
    rewrite Hid in Hin. now rewrite inArray_singleton in Hin. }
  destruct f; simpl;
    match goal with
    | |- context [success ?r] => destruct (success r) eqn:Hres
    end; simpl; repeat (rewrite Hdb; simpl);
    (split; [reflexivity|]); (split; [discriminate|]); intros _;
    do 2 eexists; (split; [reflexivity|]); (split; [reflexivity|]);
    intros Hok; try congruence; (split; [reflexivity|apply Hrows]).
Qed.

Lemma digestOf_email l us e :
  digestOf projectId l us e -> In (to e) (map sub_email l).
Proof. intros [x [Hx [Hto _]]]. rewrite Hto. now apply in_map. Qed.

(** The loop over the subscribers, when the database answers: it returns,
    every subscriber with due updates is sent an e-mail, and every
    subscriber with a confirmed send ends with a reading of the clock taken
    during the loop as watermark. *)
Lemma scheduled_loop_run l :
  forall w,
    identified K w ->
    (forall x, In x l -> In (sub_ident x) K) ->
    NoDup (map sub_email l) ->
    fst (for_of l body w) = Ok tt
    /\ exists log,
         outbox (snd (for_of l body w)) = outbox w ++ log
         /\ forall y, In y l ->
              (dueUpdates projectId (updates w) y <> [] ->
               exists e res, In (e, res) log /\ to e = sub_email y)
              /\ (sentOkTo log (sub_email y) ->
                  forall r', In r' (digestSubscriptions (snd (for_of l body w))) ->
                    sub_id r' = sub_id y ->
                    exists k,
                      (clockReads w <= k < clockReads (snd (for_of l body w)))%nat
                      /\ sub_lastSentAt r' = Some (clock E k)).
Proof.
  induction l as [|x l IH]; intros w HK Hin Hnd.
  - simpl. split; [reflexivity|]. exists []. split; [now rewrite app_nil_r|].
    intros y [].
  - cbn [for_of]. unfold bind.
    destruct (digestSubscriber_run x w) as [Hok [Hskip Hsent]].
    pose proof (advance_digestSubscriber E K project projectId f weekStart
                  weekEnd x (Hin x (or_introl eq_refl)) w HK) as Hadv1.
    pose proof (scheduledStep_digestSubscriber E projectId [x] project f
                  weekStart weekEnd x (or_introl eq_refl) w I) as Hstep1.
    fold body in Hadv1, Hstep1.
    destruct (body x w) as [r1 w1]. cbn [fst snd] in *. subst r1.
    inversion Hnd as [|a b Hnotin Hnd']; subst.
    assert (HK1 : identified K w1) by (eapply identified_stable; eassumption).
    destruct (IH w1 HK1 (fun y Hy => Hin y (or_intror Hy)) Hnd')
      as [Hok2 [log2 [Hlog2 Hall]]].
    pose proof (keeps_for_of (advance E) (identified K) (advance_refl E)
                  (advance_trans E) (identified_stable E K) l body
                  (fun y Hy => advance_digestSubscriber E K project projectId
                                 f weekStart weekEnd y
                                 (Hin y (or_intror Hy))) w1 HK1) as Hadv2.
    pose proof (scheduledStep_loop E projectId l project f weekStart weekEnd
                  w1 I) as Hstep2.
    fold body in Hstep2.
    set (w' := snd (for_of l body w1)) in *.
    destruct Hadv1 as [Hc1 [log1 [Hlog1 _]]].
    destruct Hadv2 as [Hc2 [log2' [Hlog2' Hrows2]]].
    assert (log2' = log2)
      by (rewrite Hlog2 in Hlog2'; now apply app_inv_head in Hlog2').
    subst log2'.
    destruct Hstep1 as [_ [Hupd1 [_ [log1' [Hlog1' Hdig1]]]]].
    assert (log1' = log1)
      by (rewrite Hlog1 in Hlog1'; now apply app_inv_head in Hlog1').
    subst log1'.
    destruct Hstep2 as [_ [_ [_ [log2'' [Hlog2'' Hdig2]]]]].
    assert (log2'' = log2)
      by (rewrite Hlog2 in Hlog2''; now apply app_inv_head in Hlog2'').
    subst log2''.
    split; [exact Hok2|]. exists (log1 ++ log2). split.
    { rewrite Hlog2, Hlog1. now rewrite app_assoc. }
    assert (Hlog1_x : forall e res, In (e, res) log1 -> to e = sub_email x).
    { intros e res He. destruct (Hdig1 e res He) as [z [[<-|[]] [Hto _]]].
      exact Hto. }
    assert (Hlog2_l : forall e res, In (e, res) log2 ->
                                    In (to e) (map sub_email l)).
    { intros e res He. eapply digestOf_email. eapply Hdig2. exact He. }
    intros y [<-|Hy].
    + split.
      * intros Hdue. destruct (Hsent Hdue) as [e [res [Ho [Hto _]]]].
        exists e, res. split; [|exact Hto].
        rewrite Hlog1 in Ho. apply app_inv_head in Ho. subst log1.
        apply in_or_app. left. now left.
      * intros [e [res [He [Hto Hsucc]]]] r' Hr' Hid.
        apply in_app_or in He. destruct He as [He|He].
        2:{ exfalso. apply Hnotin. rewrite <- Hto. eapply Hlog2_l. exact He. }
        assert (Hdue : dueUpdates projectId (updates w) x <> []).
        { intros Hnone. specialize (Hskip Hnone). rewrite Hlog1 in Hskip.
          rewrite <- (app_nil_r (outbox w)) in Hskip at 2.
          apply app_inv_head in Hskip. subst log1. contradiction. }
        destruct (Hsent Hdue) as [e0 [res0 [Ho [_ Hmark]]]].
        rewrite Hlog1 in Ho. apply app_inv_head in Ho. subst log1.
        destruct He as [He|[]]. injection He as -> ->.
        destruct (Hmark Hsucc) as [Hreads Hrow].
        destruct (Forall2_in_right _ _ _ r' Hrows2 Hr')
          as [r1 [Hr1 [Hsame Hor]]].
        assert (Hid1 : sub_id r1 = sub_id x).
        { apply sameButLastSent_ident in Hsame. injection Hsame as Hi _.
          congruence. }
        specialize (Hrow r1 Hr1 Hid1).
        destruct Hor as [Heq|[k [Hk [Hl _]]]].
        -- exists (clockReads w). split; [lia|]. congruence.
        -- exists k. split; [lia|exact Hl].
    + destruct (Hall y Hy) as [Hy1 Hy2]. split.
      * intros Hdue. rewrite <- Hupd1 in Hdue.
        destruct (Hy1 Hdue) as [e [res [He Hto]]].
        exists e, res. split; [|exact Hto]. apply in_or_app. now right.
      * intros [e [res [He [Hto Hsucc]]]] r' Hr' Hid.
        apply in_app_or in He. destruct He as [He|He].
        { exfalso. apply Hnotin. rewrite <- (Hlog1_x e res He), Hto.
          now apply in_map. }
        destruct (Hy2 (ex_intro _ e (ex_intro _ res (conj He (conj Hto Hsucc))))
                    r' Hr' Hid) as [k [Hk Hl]].
        exists k. split; [lia|exact Hl].
Qed.

End ScheduledRun.

Lemma subscribersOf_emails projectId frequency subs :
  NoDup (map sub_key subs) ->
  NoDup (map sub_email (subscribersOf projectId frequency subs)).
Proof.
  unfold subscribersOf. induction subs as [|s subs IH]; simpl; intros Hnd;
    [constructor|].
  inversion Hnd as [|k ks Hnotin Hnd']; subst.
  destruct (String.eqb (sub_projectId s) projectId
            && opt_eqb (sub_frequency s) frequency) eqn:Hs; simpl;
    [|now apply IH].
  constructor; [|now apply IH].
  intros Hin. apply in_map_iff in Hin. destruct Hin as [x [Hmail Hx]].
  apply filter_In in Hx. destruct Hx as [Hx Hxp].
  apply andb_true_iff in Hs, Hxp. destruct Hs as [Hs _], Hxp as [Hxp _].
  apply String.eqb_eq in Hs, Hxp.
  apply Hnotin. apply in_map_iff. exists x. split; [|exact Hx].
  unfold sub_key. congruence.
Qed.

(** A scheduled digest job for an existing project, when the database
    answers: it returns, and each subscriber of the frequency with due
    updates is sent an e-mail; a confirmed send leaves a reading of the
    clock taken during the job as the subscriber's watermark. *)
Lemma processScheduledDigest_run E payload f w project :
  dbReachable E ->
  hd_error (filter (fun p => String.eqb (proj_id p) (payload_projectId payload))
                   (projects w)) = Some project ->
  NoDup (map sub_id (digestSubscriptions w)) ->
  NoDup (map sub_key (digestSubscriptions w)) ->
  let projectId := payload_projectId payload in
  let l := subscribersOf projectId (frequency_name f) (digestSubscriptions w) in
  let r := processScheduledDigest E payload f w in
  fst r = Ok tt
  /\ exists log,
       outbox (snd r) = outbox w ++ log
       /\ forall y, In y l ->
            (dueUpdates projectId (updates w) y <> [] ->
             exists e res, In (e, res) log /\ to e = sub_email y)
            /\ (sentOkTo log (sub_email y) ->
                forall r', In r' (digestSubscriptions (snd r)) ->
                  sub_id r' = sub_id y ->
                  exists k,
                    (clockReads w <= k < clockReads (snd r))%nat
                    /\ sub_lastSentAt r' = Some (clock E k)).
Proof.
  intros Hdb Hproj Hids Hkeys projectId l r. subst r.
  unfold processScheduledDigest, getProject. fold projectId.
  run_monad. rewrite Hdb. simpl. fold projectId in Hproj. rewrite Hproj.
  rewrite Hdb. simpl. fold l.
  destruct (List.length l =? 0)%nat eqn:Hlen; simpl.
  { split; [reflexivity|]. exists []. split; [now rewrite app_nil_r|].
    destruct l; [intros y []|discriminate]. }
  set (w2 := mkWorld _ _ _ _ _ _ _ _ _ _ _).
  set (K := map sub_ident (digestSubscriptions w)).
  assert (HK : identified K w2).
  { split; [reflexivity|]. unfold K. now rewrite map_map. }
  destruct (scheduled_loop_run E Hdb K project projectId f
              (clock E (clockReads w) - 604800000) (clock E (clockReads w))
              l w2 HK) as [Hok [log [Hlog Hall]]].
  - intros x Hx. unfold K. apply in_map.
    unfold l, subscribersOf in Hx. apply filter_In in Hx. tauto.
  - now apply subscribersOf_emails.
  - split; [exact Hok|]. exists log. split; [exact Hlog|].
    intros y Hy. destruct (Hall y Hy) as [H1 H2]. split; [exact H1|].
    intros Hsent r' Hr' Hid. destruct (H2 Hsent r' Hr' Hid) as [k [Hk Hl]].
    exists k. split; [simpl in Hk; lia|exact Hl].
Qed.

Lemma NoDup_map_eq {A B} (g : A -> B) (l : list A) (x y : A) :
  NoDup (map g l) -> In x l -> In y l -> g x = g y -> x = y.
Proof.
  induction l as [|a l IH]; simpl; intros Hnd Hx Hy Heq; [contradiction|].
  inversion Hnd as [|b bs Hnotin Hnd']; subst.
  destruct Hx as [<-|Hx], Hy as [<-|Hy]; auto.
  - exfalso. apply Hnotin. rewrite Heq. now apply in_map.
  - exfalso. apply Hnotin. rewrite <- Heq. now apply in_map.
Qed.

Lemma In_inArray x xs : In x xs -> inArray x xs = true.
Proof.
  intros H. unfold inArray. apply existsb_exists. exists x.
  split; [exact H|apply String.eqb_refl].
Qed.

Lemma subscribersOf_In projectId f subs s :
  In s (subscribersOf projectId (frequency_name f) subs)
  <-> In s subs /\ subscribesAt projectId f s.
Proof.
  unfold subscribersOf, subscribesAt. rewrite filter_In, andb_true_iff.
  rewrite String.eqb_eq. unfold opt_eqb.
  destruct (sub_frequency s) as [x|].
  - rewrite String.eqb_eq. split.
    + intros [H1 [H2 H3]]. subst. auto.
    + intros [H1 [H2 H3]]. injection H3 as ->. auto.
  - split; [intros [_ [_ H]]|intros [_ [_ H]]]; discriminate.
Qed.

Lemma sameButLastSent_eq r r' :
  sameButLastSent r r' -> sub_lastSentAt r' = sub_lastSentAt r -> r' = r.
Proof.
  unfold sameButLastSent. intros -> Heq. simpl in Heq. rewrite Heq.
  now destruct r.
Qed.

Lemma sameButLastSent_id r r' : sameButLastSent r r' -> sub_id r' = sub_id r.
Proof. intros H. apply sameButLastSent_ident in H. now injection H. Qed.

(** Without due updates a subscriber is sent nothing. *)
Lemma digestOf_subscriber projectId f subs us e s :
  NoDup (map sub_key subs) ->
  In s subs -> sub_projectId s = projectId ->
  digestOf projectId (subscribersOf projectId (frequency_name f) subs) us e ->
  to e = sub_email s ->
  dueUpdates projectId us s <> []
  /\ map uwm_update (email_updates e)
     = filter (fun u => inArray (upd_id u)
                          (map upd_id (dueUpdates projectId us s))) us.
Proof.
  intros Hkeys Hs Hp [x [Hx [Hto [Hdue Hmap]]]] Hmail.
  apply subscribersOf_In in Hx. destruct Hx as [Hx [Hxp _]].
  assert (x = s).
  { apply (NoDup_map_eq sub_key subs); try assumption.
    unfold sub_key. congruence. }
  subst x. split; assumption.
Qed.

(** C5. A subscriber of the project whose watermark is later than the
    creation of every update of the project: a scheduled digest job,
    whether it returns or throws, hands the transport nothing addressed to
    that subscriber and leaves the subscriber's row as it was. *)
Theorem no_empty_digest :
  forall E payload f w s lastSent,
    NoDup (map sub_id (digestSubscriptions w)) ->
    NoDup (map sub_key (digestSubscriptions w)) ->
    In s (digestSubscriptions w) ->
    sub_projectId s = payload_projectId payload ->
    sub_lastSentAt s = Some lastSent ->
    (forall u t, In u (updates w) ->
       upd_projectId u = payload_projectId payload ->
       upd_createdAt u = Some t -> t < lastSent) ->
    let w' := snd (processScheduledDigest E payload f w) in
    exists log,
      outbox w' = outbox w ++ log
      /\ (forall e res, In (e, res) log -> to e <> sub_email s)
      /\ In s (digestSubscriptions w')
      /\ (forall r', In r' (digestSubscriptions w') ->
            sub_id r' = sub_id s -> r' = s).
Proof.
  intros E payload f w s lastSent Hids Hkeys Hs Hp Hlast Hold w'.
  set (projectId := payload_projectId payload) in *.
  set (l := subscribersOf projectId (frequency_name f) (digestSubscriptions w)).
  assert (Hnone : dueUpdates projectId (updates w) s = []).
  { unfold dueUpdates, updatesSince, lastSentOrEpoch. rewrite Hlast.
    apply filter_none. intros u Hu.
    destruct (String.eqb (upd_projectId u) projectId) eqn:Hup; [|reflexivity].
    apply String.eqb_eq in Hup. simpl. unfold opt_gtb.
    destruct (upd_createdAt u) as [t|] eqn:Ht; [|reflexivity].
    apply Z.ltb_ge. specialize (Hold u t Hu Hup Ht). lia. }
  pose proof (scheduledStep_processScheduledDigest E projectId l payload f w
                eq_refl eq_refl) as [_ [_ [_ [log [Hlog Hdig]]]]].
  assert (HK : identified (map sub_ident (digestSubscriptions w)) w).
  { split; [reflexivity|]. now rewrite map_map. }
  pose proof (advance_processScheduledDigest E _ payload f w HK)
    as [_ [log' [Hlog' Hrows]]].
  fold w' in Hlog, Hlog', Hrows.
  assert (log' = log)
    by (rewrite Hlog in Hlog'; now apply app_inv_head in Hlog').
  subst log'.
  assert (Hquiet : forall e res, In (e, res) log -> to e <> sub_email s).
  { intros e res He Hto.
    destruct (digestOf_subscriber projectId f _ _ e s Hkeys Hs Hp
                (Hdig e res He) Hto) as [Hdue _].
    now apply Hdue. }
  assert (Hsame : forall r', rowAdvance E (clockReads w) (clockReads w') log
                               s r' -> r' = s).
  { intros r' [Hsame [Heq|[k [_ [_ [e [res [He [Hto _]]]]]]]]].
    - now apply sameButLastSent_eq.
    - exfalso. eapply Hquiet; eassumption. }
  exists log. repeat split; [exact Hlog|exact Hquiet| |].
  - destruct (Forall2_in_left _ _ _ s Hrows Hs) as [r' [Hr' Hadv]].
    now rewrite <- (Hsame r' Hadv).
  - intros r' Hr' Hid.
    destruct (Forall2_in_right _ _ _ r' Hrows Hr') as [r [Hr Hadv]].
    assert (r = s).
    { apply (NoDup_map_eq sub_id (digestSubscriptions w)); try assumption.
      destruct Hadv as [Hsame' _]. apply sameButLastSent_id in Hsame'.
      congruence. }
    subst r. now apply Hsame.
Qed.

Lemma Forall2_pair_with_In {A} (Q1 Q2 Q : A -> A -> Prop) (l l' : list A) :
  (forall x y, In x l -> In y l' -> Q1 x y -> Q2 x y -> Q x y) ->
  Forall2 Q1 l l' -> Forall2 Q2 l l' -> Forall2 Q l l'.
Proof.
  intros H H1. revert H.
  induction H1 as [|x y l l' Hxy _ IH]; intros H H2;
    inversion H2; subst; constructor.
  - apply H; simpl; auto.
  - apply IH; [|assumption]. intros a b Ha Hb. apply H; simpl; auto.
Qed.

Lemma digestJobType_dispatch E f payload :
  (if String.eqb (digestJobType f) "instant_digest" then
     processInstantDigest E payload
   else if String.eqb (digestJobType f) "daily_digest" then
     processScheduledDigest E payload daily
   else if String.eqb (digestJobType f) "weekly_digest" then
     processScheduledDigest E payload weekly
   else throw ("Unknown job type: " ++ digestJobType f)%string)
  = processScheduledDigest E payload f.
Proof. destruct f; reflexivity. Qed.

(** C2. A daily or weekly digest job of an existing project, on a
    reachable database, whatever the transport answers per recipient: the
    job returns and its row ends [completed]; a subscriber of the
    frequency with a confirmed send gets a reading of the clock taken
    during the job as watermark; every other row, in particular that of a
    subscriber whose send failed, is left as it was. *)
Theorem partial_failure_completes_job :
  forall E w job f project,
    dbReachable E ->
    job_type job = digestJobType f ->
    In job (jobQueue w) ->
    hd_error (filter (fun p => String.eqb (proj_id p)
                                 (payload_projectId (job_payload job)))
                     (projects w)) = Some project ->
    NoDup (map sub_id (digestSubscriptions w)) ->
    NoDup (map sub_key (digestSubscriptions w)) ->
    let projectId := payload_projectId (job_payload job) in
    let r := processJob E job w in
    let w' := snd r in
    fst r = Ok tt
    /\ (exists j, In j (jobQueue w') /\ job_id j = job_id job)
    /\ (forall j, In j (jobQueue w') -> job_id j = job_id job ->
          job_status j = Some "completed")
    /\ exists log,
         outbox w' = outbox w ++ log
         /\ Forall2
              (fun s s' =>
                 sameButLastSent s s'
                 /\ (subscribesAt projectId f s ->
                     sentOkTo log (sub_email s) ->
                     exists k, (clockReads w <= k < clockReads w')%nat
                               /\ sub_lastSentAt s' = Some (clock E k))
                 /\ (~ (subscribesAt projectId f s
                        /\ sentOkTo log (sub_email s)) -> s' = s))
              (digestSubscriptions w) (digestSubscriptions w').
Proof.
  intros E w job f project Hdb Htype Hjob Hproj Hids Hkeys projectId r w'.
  set (processing := fun j : Job =>
    if String.eqb (job_id j) (job_id job) then
      mkJob (job_id j) (job_type j) (job_payload j) (Some "processing")
        (option_map (fun a => a + 1) (job_attempts j))
        (job_scheduledFor j) (job_createdAt j)
    else j).
  set (completed := fun j : Job =>
    if String.eqb (job_id j) (job_id job) then
      mkJob (job_id j) (job_type j) (job_payload j) (Some "completed")
        (job_attempts j) (job_scheduledFor j) (job_createdAt j)
    else j).
  set (w1 := set_jobQueue (map processing) (set_dbOps S w)).
  assert (H1 : markJobProcessing E (job_id job) w = (Ok tt, w1)).
  { unfold markJobProcessing. run_monad. now rewrite Hdb. }
  set (l := subscribersOf projectId (frequency_name f) (digestSubscriptions w)).
  destruct (processScheduledDigest_run E (job_payload job) f w1 project Hdb
              Hproj Hids Hkeys) as [Hok [log [Hlog Hall]]].
  pose proof (scheduledStep_processScheduledDigest E projectId l
                (job_payload job) f w1 eq_refl eq_refl)
    as [Hjobs [_ [Htouch [log' [Hlog' _]]]]].
  assert (log' = log)
    by (rewrite Hlog in Hlog'; now apply app_inv_head in Hlog').
  subst log'. clear Hlog'.
  assert (HK : identified (map sub_ident (digestSubscriptions w)) w1).
  { split; [reflexivity|]. now rewrite map_map. }
  pose proof (advance_processScheduledDigest E _ (job_payload job) f w1 HK)
    as [_ [log' [Hlog' Hrows]]].
  assert (log' = log)
    by (rewrite Hlog in Hlog'; now apply app_inv_head in Hlog').
  subst log'. clear Hlog'.
  fold projectId in Hall. cbv zeta in Hall. fold l in Hall.
  destruct (processScheduledDigest E (job_payload job) f w1) as [r2 w2] eqn:H2.
  cbn [fst snd] in *. subst r2.
  set (w3 := set_jobQueue (map completed) (set_dbOps S w2)).
  assert (H3 : markJobCompleted E (job_id job) w2 = (Ok tt, w3)).
  { unfold markJobCompleted. run_monad. now rewrite Hdb. }
  assert (Hrun : processJob E job w = (Ok tt, w3)).
  { unfold processJob. rewrite (bind_Ok _ _ _ _ _ H1).
    rewrite Htype, digestJobType_dispatch. unfold try_catch.
    rewrite (bind_Ok _ _ _ _ _ H2). now rewrite H3. }
  subst w' r. rewrite Hrun. cbn [fst snd].
  split; [reflexivity|]. split; [|split].
  - exists (completed (processing job)). split.
    + simpl. rewrite Hjobs. simpl. rewrite map_map.
      apply in_map_iff. exists job. split; [reflexivity|exact Hjob].
    + unfold completed, processing. rewrite String.eqb_refl. simpl.
      now rewrite String.eqb_refl.
  - simpl. intros j Hj Hid. apply in_map_iff in Hj.
    destruct Hj as [j0 [Hj0 _]]. unfold completed in Hj0.
    destruct (String.eqb (job_id j0) (job_id job)) eqn:Heq; subst j;
      [reflexivity|].
    apply String.eqb_neq in Heq. contradiction.
  - exists log. split; [exact Hlog|]. simpl.
    eapply Forall2_pair_with_In; [|exact Hrows|exact Htouch].
    intros s s' Hs Hs' [Hsame Hadv] Htouched.
    split; [exact Hsame|]. split.
    + intros Hsub Hsent.
      assert (Hl : In s l) by (apply subscribersOf_In; auto).
      destruct (Hall s Hl) as [_ Hmark].
      apply (Hmark Hsent s' Hs'). now apply sameButLastSent_id.
    + intros Hnot. destruct Htouched as [Hin|Heq]; [|exact Heq].
      apply in_map_iff in Hin. destruct Hin as [x [Hid Hx]].
      apply subscribersOf_In in Hx. destruct Hx as [Hx Hsub].
      assert (x = s) by (apply (NoDup_map_eq sub_id _ _ _ Hids Hx Hs Hid)).
      subst x.
      destruct Hadv as [Heq|[k [_ [_ Hsent]]]].
      * now apply sameButLastSent_eq.
      * exfalso. apply Hnot. split; assumption.
Qed.

Lemma filter_by_ids (g : Update -> bool) (us : list Update) :
  NoDup (map upd_id us) ->
  filter (fun u => inArray (upd_id u) (map upd_id (filter g us))) us
  = filter g us.
Proof.
  intros Hnd. apply filter_ext_in. intros u Hu.
  destruct (g u) eqn:Hg.
  - apply In_inArray. apply in_map. apply filter_In. now split.
  - destruct (inArray (upd_id u) (map upd_id (filter g us))) eqn:Hin;
      [|reflexivity].
    apply inArray_In in Hin. apply in_map_iff in Hin.
    destruct Hin as [u' [Hid Hu']]. apply filter_In in Hu'.
    destruct Hu' as [Hu' Hg'].
    assert (u' = u) by (apply (NoDup_map_eq upd_id us); assumption).
    subst u'. congruence.
Qed.

(** C3. A subscriber of the frequency in a daily or weekly digest job of
    an existing project, on a reachable database. What is sent to the
    subscriber is one digest carrying the updates of the project created
    after the subscriber's [last_sent_at] (after the epoch when it is
    null), whatever their age; when no such update exists nothing is sent.
    After a confirmed send the watermark is a reading of the clock taken
    during the job. With a null watermark and creation times after the
    epoch, the due updates are all the updates of the project. *)
Theorem scheduled_digest_sends_everything_since_watermark :
  forall E payload f w project s,
    dbReachable E ->
    hd_error (filter (fun p => String.eqb (proj_id p)
                                 (payload_projectId payload))
                     (projects w)) = Some project ->
    NoDup (map sub_id (digestSubscriptions w)) ->
    NoDup (map sub_key (digestSubscriptions w)) ->
    NoDup (map upd_id (updates w)) ->
    In s (digestSubscriptions w) ->
    subscribesAt (payload_projectId payload) f s ->
    let projectId := payload_projectId payload in
    let windowStart := match sub_lastSentAt s with
                       | Some d => d
                       | None => 0
                       end in
    let due := filter (fun u => String.eqb (upd_projectId u) projectId
                                && opt_gtb (upd_createdAt u) windowStart)
                      (updates w) in
    let w' := snd (processScheduledDigest E payload f w) in
    exists log,
      outbox w' = outbox w ++ log
      /\ (forall e res, In (e, res) log -> to e = sub_email s ->
            map uwm_update (email_updates e) = due /\ due <> [])
      /\ (due <> [] -> exists e res, In (e, res) log /\ to e = sub_email s)
      /\ (sentOkTo log (sub_email s) ->
          forall s', In s' (digestSubscriptions w') -> sub_id s' = sub_id s ->
            exists k, (clockReads w <= k < clockReads w')%nat
                      /\ sub_lastSentAt s' = Some (clock E k))
      /\ (sub_lastSentAt s = None ->
          (forall u, In u (updates w) -> upd_projectId u = projectId ->
             exists t, upd_createdAt u = Some t /\ 0 < t) ->
          due = filter (fun u => String.eqb (upd_projectId u) projectId)
                       (updates w)).
Proof.
  intros E payload f w project s Hdb Hproj Hids Hkeys Hupd Hs Hsub
         projectId windowStart due w'.
  set (l := subscribersOf projectId (frequency_name f) (digestSubscriptions w)).
  assert (Hdue : dueUpdates projectId (updates w) s = due) by reflexivity.
  destruct (processScheduledDigest_run E payload f w project Hdb Hproj Hids
              Hkeys) as [_ [log [Hlog Hall]]].
  fold projectId in Hall. cbv zeta in Hall. fold l w' in Hall, Hlog.
  pose proof (scheduledStep_processScheduledDigest E projectId l payload f w
                eq_refl eq_refl) as [_ [_ [_ [log' [Hlog' Hdig]]]]].
  fold w' in Hlog'.
  assert (log' = log)
    by (rewrite Hlog in Hlog'; now apply app_inv_head in Hlog').
  subst log'. clear Hlog'.
  assert (Hl : In s l) by (apply subscribersOf_In; auto).
  destruct (Hall s Hl) as [Hsend Hmark]. rewrite Hdue in Hsend.
  exists log. split; [exact Hlog|]. split; [|split; [|split]].
  - intros e res He Hto.
    destruct (digestOf_subscriber projectId f _ _ e s Hkeys Hs (proj1 Hsub)
                (Hdig e res He) Hto) as [Hne Hmap].
    rewrite Hdue in Hne. split; [|exact Hne].
    rewrite Hmap. unfold dueUpdates, updatesSince. now apply filter_by_ids.
  - exact Hsend.
  - exact Hmark.
  - intros Hnull Hpast. unfold due, windowStart. rewrite Hnull.
    apply filter_ext_in. intros u Hu.
    destruct (String.eqb (upd_projectId u) projectId) eqn:Hp; [|reflexivity].
    apply String.eqb_eq in Hp. destruct (Hpast u Hu Hp) as [t [Ht Hpos]].
    rewrite Ht. simpl. apply Z.ltb_lt in Hpos. now rewrite Hpos.
Qed.

(* ------------------------------------------------------------------ *)
(** ** The properties on sample data *)

Ltac solve_NoDup :=
  simpl; repeat (constructor; [simpl; intuition discriminate|]); constructor.

Lemma partial_failure_completes_job_witness :
  let r := processJob Scenario.envPartial Scenario.job1 Scenario.world2 in
  fst r = Ok tt
  /\ forall j, In j (jobQueue (snd r)) -> job_id j = "job-1" ->
       job_status j = Some "completed".
Proof.
  destruct (partial_failure_completes_job Scenario.envPartial Scenario.world2
              Scenario.job1 daily Scenario.p1) as [Hok [_ [Hdone _]]].
  - intro n. reflexivity.
  - reflexivity.
  - simpl. now left.
  - reflexivity.
  - solve_NoDup.
  - solve_NoDup.
  - split; [exact Hok|exact Hdone].
Defined.

(** The scenario of three daily subscribers of which one is rejected by
    the provider and one is up to date: the job is completed, [b] is
    advanced to the reading of the clock at its send, [c] (rejected) and
    [d] (nothing due) keep their watermarks, and so does the instant
    subscriber [a]. *)
Example partial_failure_scenario :
  let w' := snd (processJob Scenario.envPartial Scenario.job1
                   Scenario.world2) in
  map job_status (jobQueue w') = [Some "completed"]
  /\ map (fun s => (sub_email s, sub_lastSentAt s)) (digestSubscriptions w')
     = [("a@x.com", None);
        ("b@x.com", Some (Scenario.t0 + 1));
        ("c@x.com", None);
        ("d@x.com", Some (Scenario.t0 - Scenario.minute))]
  /\ map (fun m => (to (fst m), success (snd m),
                    map (fun u => upd_id (uwm_update u))
                        (email_updates (fst m)))) (outbox w')
     = [("b@x.com", true, ["u-1"; "u-2"]); ("c@x.com", false, ["u-1"; "u-2"])].
Proof. vm_compute. repeat split. Qed.

(** Three subscribers with updates due, the transport failing for exactly
    one: two watermarks advance, one is unchanged, the job is completed. *)
Example one_of_three_fails_scenario :
  let w' := snd (processJob Scenario.envPartial Scenario.job1
                   Scenario.world3) in
  map job_status (jobQueue w') = [Some "completed"]
  /\ map (fun s => (sub_email s, sub_lastSentAt s)) (digestSubscriptions w')
     = [("b@x.com", Some (Scenario.t0 + 1));
        ("c@x.com", None);
        ("e@x.com", Some (Scenario.t0 + 2))]
  /\ map (fun m => (to (fst m), success (snd m))) (outbox w')
     = [("b@x.com", true); ("c@x.com", false); ("e@x.com", true)].
Proof. vm_compute. repeat split. Qed.

Lemma scheduled_digest_sends_everything_since_watermark_witness :
  let w' := snd (processScheduledDigest Scenario.envPartial
                   (ProjectPayload "p1") daily Scenario.world1) in
  exists e res,
    In (e, res) (outbox w')
    /\ to e = "b@x.com"
    /\ map uwm_update (email_updates e) = [Scenario.upd1; Scenario.upd2].
Proof.
  destruct (scheduled_digest_sends_everything_since_watermark
              Scenario.envPartial (ProjectPayload "p1") daily Scenario.world1
              Scenario.p1 Scenario.subB)
    as [log [Hlog [Hexact [Hsent _]]]].
  - intro n. reflexivity.
  - reflexivity.
  - solve_NoDup.
  - solve_NoDup.
  - solve_NoDup.
  - simpl. right. now left.
  - split; reflexivity.
  - destruct Hsent as [e [res [He Hto]]]; [vm_compute; discriminate|].
    exists e, res. split; [|split].
    + rewrite Hlog. apply in_or_app. now right.
    + exact Hto.
    + exact (proj1 (Hexact e res He Hto)).
Defined.

Lemma no_empty_digest_witness :
  let w' := snd (processScheduledDigest Scenario.env0 (ProjectPayload "p1")
                   daily Scenario.world1) in
  In Scenario.subD (digestSubscriptions w')
  /\ forall e res, In (e, res) (outbox w') -> to e <> "d@x.com".
Proof.
  destruct (no_empty_digest Scenario.env0 (ProjectPayload "p1") daily
              Scenario.world1 Scenario.subD
              (Scenario.t0 - Scenario.minute))
    as [log [Hlog [Hquiet [Hrow _]]]].
  - solve_NoDup.
  - solve_NoDup.
  - simpl. do 3 right. now left.
  - reflexivity.
  - reflexivity.
  - simpl. intros u t [<-|[<-|[]]] _ Ht; injection Ht as <-; reflexivity.
  - split; [exact Hrow|]. intros e res He. apply (Hquiet e res).
    rewrite Hlog in He. simpl in He. exact He.
Defined.

Lemma last_sent_at_never_decreases_witness :
  let ops := [OpTriggerInstant "p1" "u-2"; OpQueueDaily; OpRunJobProcessor] in
  let w' := runOps Scenario.envPartial ops Scenario.world1 in
  Forall2 (fun r r' => notBefore (sub_lastSentAt r) (sub_lastSentAt r'))
    (digestSubscriptions Scenario.world1) (digestSubscriptions w').
Proof.
  destruct (last_sent_at_never_decreases Scenario.envPartial
              [OpTriggerInstant "p1" "u-2"; OpQueueDaily; OpRunJobProcessor]
              Scenario.world1) as [log [_ Hrows]].
  - intros m n Hmn.
    change (Scenario.t0 + Z.of_nat m <= Scenario.t0 + Z.of_nat n). lia.
  - solve_NoDup.
  - intros r t Hr Ht. simpl in Hr.
    repeat (destruct Hr as [<-|Hr];
            [try discriminate Ht; injection Ht as <-;
             apply Z.leb_le; reflexivity|]).
    contradiction.
  - eapply Forall2_impl; [|exact Hrows]. intros a b [_ [H _]]. exact H.
Defined.

(** A trigger, a daily enqueue and a run of the job processor: the instant
    subscriber [a] and the daily subscriber [b] are advanced, [c] and [d]
    are not. *)
Example digest_sequence_scenario :
  let ops := [OpTriggerInstant "p1" "u-2"; OpQueueDaily; OpRunJobProcessor] in
  let w' := runOps Scenario.envPartial ops Scenario.world1 in
  map job_status (jobQueue w') = [Some "completed"; Some "completed"]
  /\ map (fun s => (sub_email s, sub_lastSentAt s)) (digestSubscriptions w')
     = [("a@x.com", Some (Scenario.t0 + 5));
        ("b@x.com", Some (Scenario.t0 + 7));
        ("c@x.com", None);
        ("d@x.com", Some (Scenario.t0 - Scenario.minute))].
Proof. vm_compute. repeat split. Qed.

(* ================================================================== *)
(** * Further properties of the job queue *)

Lemma firstn_whole {A} (n : nat) (l : list A) :
  (List.length l <= n)%nat -> firstn n l = l.
Proof.
  revert n. induction l as [|a l IH]; intros n H; destruct n; simpl in *;
    try reflexivity; try lia.
  f_equal. apply IH. lia.
Qed.

Lemma filter_length_bound {A} (f : A -> bool) (l : list A) :
  (List.length (filter f l) <= List.length l)%nat.
Proof.
  induction l as [|a l IH]; simpl; [lia|]. destruct (f a); simpl; lia.
Qed.

(** X1. A job enqueued without a date is ready at once: [enqueueJob]
    appends one pending row with no attempts, and a [getPendingJobs] that
    follows, with a limit above the length of the queue, returns it. *)
Theorem enqueued_job_is_claimed :
  forall E w type payload,
    dbReachable E ->
    clockMonotone E ->
    let r := enqueueJob E type payload None w in
    exists job,
      fst r = Ok job
      /\ jobQueue (snd r) = jobQueue w ++ [job]
      /\ job_type job = type /\ job_payload job = payload
      /\ job_status job = Some "pending" /\ job_attempts job = Some 0
      /\ forall limit, (List.length (jobQueue w) < limit)%nat ->
           exists jobs,
             fst (getPendingJobs E limit (snd r)) = Ok jobs /\ In job jobs.
Proof.
  intros E w type payload Hdb Hmono r. subst r.
  unfold enqueueJob. run_monad. rewrite Hdb. simpl.
  eexists. repeat split. intros limit Hlimit.
  unfold getPendingJobs. run_monad. rewrite Hdb. simpl.
  eexists. split; [reflexivity|].
  rewrite firstn_whole.
  - apply filter_In. split; [apply in_or_app; right; now left|].
    simpl. apply Z.leb_le. apply Hmono. lia.
  - eapply Nat.le_trans; [apply filter_length_bound|].
    rewrite length_app. simpl. lia.
Qed.

Lemma enqueued_job_is_claimed_witness :
  exists job,
    fst (enqueueJob Scenario.env0 "daily_digest" (ProjectPayload "p1") None
           Scenario.world1) = Ok job
    /\ exists jobs,
         fst (getPendingJobs Scenario.env0 10
                (snd (enqueueJob Scenario.env0 "daily_digest"
                        (ProjectPayload "p1") None Scenario.world1)))
         = Ok jobs
         /\ In job jobs.
Proof.
  destruct (enqueued_job_is_claimed Scenario.env0 Scenario.world1
              "daily_digest" (ProjectPayload "p1"))
    as [job [Hjob [_ [_ [_ [_ [_ Hready]]]]]]].
  - intro n. reflexivity.
  - intros m n Hmn.
    change (Scenario.t0 + Z.of_nat m <= Scenario.t0 + Z.of_nat n). lia.
  - exists job. split; [exact Hjob|]. apply (Hready 10%nat).
    apply Nat.ltb_lt. reflexivity.
Defined.

Lemma getPendingJobs_run :
  forall E limit w,
    let r := getPendingJobs E limit w in
    jobQueue (snd r) = jobQueue w
    /\ digestSubscriptions (snd r) = digestSubscriptions w
    /\ outbox (snd r) = outbox w
    /\ forall jobs, fst r = Ok jobs ->
         (List.length jobs <= limit)%nat
         /\ forall j, In j jobs ->
              In j (jobQueue w)
              /\ job_status j = Some "pending"
              /\ exists t, job_scheduledFor j = Some t
                           /\ t <= clock E (clockReads w).
Proof.
  intros E limit w r. subst r. unfold getPendingJobs. run_monad.
  destruct (dbFails E (dbOps w)); simpl;
    (split; [reflexivity|]); (split; [reflexivity|]);
    (split; [reflexivity|]); intros jobs Hjobs; [discriminate|].
  injection Hjobs as <-. split; [apply firstn_le_length|].
  intros j Hj. apply in_firstn in Hj. apply filter_In in Hj.
  destruct Hj as [Hin Hready]. apply andb_true_iff in Hready.
  destruct Hready as [Hst Hsched]. split; [exact Hin|]. split.
  - unfold opt_eqb in Hst. destruct (job_status j); [|discriminate].
    apply String.eqb_eq in Hst. now subst.
  - unfold opt_leb in Hsched. destruct (job_scheduledFor j) as [t|];
      [|discriminate].
    exists t. split; [reflexivity|]. now apply Z.leb_le.
Qed.

(** X2. [getPendingJobs] only reads: it leaves every table as it is, and
    what it returns are at most [limit] rows of the queue, each pending
    and scheduled no later than the reading of the clock it took. *)
Theorem getPendingJobs_returns_ready_rows :
  forall E limit w,
    let r := getPendingJobs E limit w in
    jobQueue (snd r) = jobQueue w
    /\ digestSubscriptions (snd r) = digestSubscriptions w
    /\ outbox (snd r) = outbox w
    /\ forall jobs, fst r = Ok jobs ->
         (List.length jobs <= limit)%nat
         /\ forall j, In j jobs ->
              In j (jobQueue w)
              /\ job_status j = Some "pending"
              /\ exists t, job_scheduledFor j = Some t
                           /\ t <= clock E (clockReads w).
Proof. exact getPendingJobs_run. Qed.

(** X3. A retry waits for its backoff: after [markJobFailed] has put a job
    back to [pending], no [getPendingJobs] whose reading of the clock is
    earlier than the failure time plus the square of the new attempts
    count, in minutes, returns that job. *)
Theorem retry_waits_for_backoff :
  forall E w jobId error job rest limit w2,
    dbReachable E ->
    filter (fun j => String.eqb (job_id j) jobId) (jobQueue w) = job :: rest ->
    or_zero (job_attempts job) + 1 < MAX_ATTEMPTS ->
    jobQueue w2 = jobQueue (snd (markJobFailed E jobId error w)) ->
    clock E (clockReads w2)
    < clock E (clockReads w)
      + (or_zero (job_attempts job) + 1) * (or_zero (job_attempts job) + 1)
        * 60 * 1000 ->
    forall jobs, fst (getPendingJobs E limit w2) = Ok jobs ->
      forall j, In j jobs -> job_id j <> jobId.
Proof.
  intros E w jobId error job rest limit w2 Hdb Hsel Hretry Hq Hearly jobs
         Hjobs j Hj Hid.
  destruct (getPendingJobs_run E limit w2) as [_ [_ [_ Hready]]].
  destruct (Hready jobs Hjobs) as [_ Hrows].
  destruct (Hrows j Hj) as [Hin [_ [t [Ht Hle]]]].
  rewrite Hq in Hin.
  destruct (markJobFailed_existing E w jobId error job rest Hdb Hsel j Hin Hid)
    as [_ [_ Hpending]].
  destruct (Hpending Hretry) as [_ Hsched].
  rewrite Hsched in Ht. injection Ht as <-. lia.
Qed.

Lemma retry_waits_for_backoff_witness :
  exists jobs,
    fst (getPendingJobs Scenario.env0 10
           (snd (markJobFailed Scenario.env0 "job-1" "boom"
                   Scenario.queueWorld))) = Ok jobs
    /\ forall j, In j jobs -> job_id j <> "job-1".
Proof.
  eexists. split; [reflexivity|].
  apply (retry_waits_for_backoff Scenario.env0 Scenario.queueWorld "job-1"
           "boom" Scenario.job1 [] 10%nat
           (snd (markJobFailed Scenario.env0 "job-1" "boom"
                   Scenario.queueWorld))).
  - intro n. reflexivity.
  - reflexivity.
  - reflexivity.
  - reflexivity.
  - reflexivity.
  - reflexivity.
Defined.

Lemma cleanupOldJobs_queue E days w :
  let cutoff := clock E (clockReads w) - days * 24 * 60 * 60 * 1000 in
  jobQueue (snd (cleanupOldJobs E days w)) = jobQueue w
  \/ jobQueue (snd (cleanupOldJobs E days w))
     = filter (fun j => negb (purgeable cutoff j)) (jobQueue w).
Proof.
  intros cutoff. unfold cleanupOldJobs. run_monad. fold cutoff.
  destruct (dbFails E (dbOps w)); simpl; [now left|].
  destruct (validTime cutoff); simpl; [|now left].
  destruct (timestampAccepted E cutoff); simpl; [|now left].
  destruct (List.length (filter (purgeable cutoff) (jobQueue w)) =? 0)%nat;
    simpl; [now left|].
  destruct (dbFails E (S (dbOps w))); simpl; [now left|now right].
Qed.

(** X4. The purge spares work in progress: whatever the database does, a
    job that is neither completed nor failed, or that was created after
    the cutoff, is still in the queue after [cleanupOldJobs]. *)
Theorem cleanupOldJobs_spares_live_and_recent_jobs :
  forall E days w j,
    In j (jobQueue w) ->
    (job_status j <> Some "completed" /\ job_status j <> Some "failed")
    \/ (exists t, job_createdAt j = Some t
                  /\ clock E (clockReads w) - days * 24 * 60 * 60 * 1000 < t) ->
    In j (jobQueue (snd (cleanupOldJobs E days w))).
Proof.
  intros E days w j Hin Hlive.
  destruct (cleanupOldJobs_queue E days w) as [Hq|Hq]; rewrite Hq;
    [exact Hin|].
  apply filter_In. split; [exact Hin|]. apply negb_true_iff.
  unfold purgeable. destruct Hlive as [[Hc Hf]|[t [Ht Hlt]]].
  - apply andb_false_iff. left. apply orb_false_iff.
    unfold opt_eqb. destruct (job_status j) as [st|]; [|now split].
    split; apply String.eqb_neq; congruence.
  - apply andb_false_iff. right. rewrite Ht. simpl. apply Z.leb_gt. exact Hlt.
Qed.

Lemma cleanupOldJobs_spares_live_and_recent_jobs_witness :
  In (mkJob "job-b" "daily_digest" (ProjectPayload "p1") (Some "pending")
        (Some 0) (Some (Scenario.t0 - 8 * Scenario.day))
        (Some (Scenario.t0 - 8 * Scenario.day)))
     (jobQueue (snd (cleanupOldJobs Scenario.envFrozen 7
                       Scenario.purgeWorld))).
Proof.
  apply cleanupOldJobs_spares_live_and_recent_jobs.
  - simpl. right. now left.
  - left. split; discriminate.
Defined.

Lemma for_of_returns {A} (body : A -> M unit) (xs : list A) :
  (forall x w, fst (body x w) = Ok tt) ->
  forall w, fst (for_of xs body w) = Ok tt.
Proof.
  intros Hbody. induction xs as [|x xs IH]; intros w; simpl; [reflexivity|].
  unfold bind. specialize (Hbody x w).
  destruct (body x w) as [r w1]. simpl in Hbody. subst r. apply IH.
Qed.

(** X5. One failing job does not stop the processor: once the query for
    pending jobs has been answered, [runJobProcessor] returns normally,
    whatever the jobs it processes throw. *)
Theorem runJobProcessor_survives_failing_jobs :
  forall E w,
    dbFails E (dbOps w) = false ->
    fst (runJobProcessor E w) = Ok tt.
Proof.
  intros E w Hdb. unfold runJobProcessor, getPendingJobs.
  run_monad. rewrite Hdb. simpl.
  destruct (List.length _ =? 0)%nat; [reflexivity|].
  apply for_of_returns. intros job w1.
  destruct (processJob E job w1) as [[[]|e] w2]; reflexivity.
Qed.

Lemma runJobProcessor_survives_failing_jobs_witness :
  fst (runJobProcessor Scenario.env0 Scenario.queueWorld) = Ok tt.
Proof.
  apply runJobProcessor_survives_failing_jobs. reflexivity.
Defined.

Lemma keeps_weaken (R1 R2 : World -> World -> Prop) (P : World -> Prop)
  {A} (m : M A) :
  (forall w w', R1 w w' -> R2 w w') -> keeps R1 P m -> keeps R2 P m.
Proof. intros H Hm w HP. apply H. now apply Hm. Qed.

Section SameJobs.

Variable E : Env.

Let R := unchanged jobQueue.
Let P := fun _ : World => True.

Lemma sameJobs_refl : forall w, R w w.
Proof. intros w. reflexivity. Qed.

Lemma sameJobs_trans : forall w1 w2 w3, R w1 w2 -> R w2 w3 -> R w1 w3.
Proof. unfold R, unchanged. intros w1 w2 w3 H1 H2. congruence. Qed.

Lemma sameJobs_stable : forall w w', P w -> R w w' -> P w'.
Proof. intros w w' _ _. exact I. Qed.

Lemma sameJobs_sendEmail e : keeps R P (sendEmail E e).
Proof. intros w _. reflexivity. Qed.

Lemma sameJobs_updateLastSentAt ids : keeps R P (updateLastSentAt E ids).
Proof.
  intros w _. unfold updateLastSentAt.
  destruct (List.length ids =? 0)%nat; [reflexivity|].
  run_monad. destruct (dbFails E (dbOps w)); reflexivity.
Qed.

Ltac sameJobs_side :=
  first
    [ exact sameJobs_refl | exact sameJobs_trans | exact sameJobs_stable
    | exact sameJobs_sendEmail | exact sameJobs_updateLastSentAt
    | intros; reflexivity ].

Lemma sameJobs_processScheduledDigest payload f :
  keeps R P (processScheduledDigest E payload f).
Proof. apply keeps_processScheduledDigest_framing; sameJobs_side. Qed.

Lemma sameJobs_processInstantDigest payload :
  keeps R P (processInstantDigest E payload).
Proof. apply keeps_processInstantDigest_framing; sameJobs_side. Qed.

End SameJobs.

Lemma or_zero_Some a : or_zero (Some a) = a.
Proof. simpl. destruct (a =? 0) eqn:H; [|reflexivity]. apply Z.eqb_eq in H. now subst. Qed.

Section JobStep.

Variable E : Env.
Variable ids : list Id.

Let R := jobStep ids.
Let P := fun w : World => NoDup (map job_id (jobQueue w)).

Lemma jobRowStep_refl j : jobRowStep ids j j.
Proof. unfold jobRowStep. repeat split; try lia. now right. Qed.

Lemma jobStep_refl : forall w, R w w.
Proof.
  intros w. apply Forall2_refl_on. intros j _. apply jobRowStep_refl.
Qed.

Lemma jobStep_trans : forall w1 w2 w3, R w1 w2 -> R w2 w3 -> R w1 w3.
Proof.
  intros w1 w2 w3 H1 H2. eapply Forall2_compose; [|exact H1|exact H2].
  intros x y z [Hi1 [Ht1 [Hp1 [Hc1 [Ha1 Ho1]]]]] [Hi2 [Ht2 [Hp2 [Hc2 [Ha2 Ho2]]]]].
  repeat split; try congruence; [lia|].
  destruct Ho1 as [Ho1|Ho1]; [now left|]. subst y.
  destruct Ho2 as [Ho2|Ho2]; [now left|now right].
Qed.

Lemma jobStep_stable : forall w w', P w -> R w w' -> P w'.
Proof.
  unfold P, R, jobStep. intros w w' Hnd Hstep.
  assert (Hids : forall l l', Forall2 (jobRowStep ids) l l' ->
                              map job_id l' = map job_id l).
  { intros l l' H. induction H as [|j j' l l' [Hid _] _ IH]; simpl;
      [reflexivity|]. now rewrite IH, Hid. }
  now rewrite (Hids _ _ Hstep).
Qed.

Lemma jobStep_same_queue w w' : jobQueue w' = jobQueue w -> R w w'.
Proof.
  intros H. unfold R, jobStep. rewrite H. apply Forall2_refl_on.
  intros j _. apply jobRowStep_refl.
Qed.

(** An UPDATE of the rows of one of [ids] that keeps the job and does not
    lower its attempts. *)
Lemma jobStep_update w jobId (g : Job -> Job) :
  In jobId ids ->
  (forall j, job_id (g j) = job_id j /\ job_type (g j) = job_type j
             /\ job_payload (g j) = job_payload j
             /\ job_createdAt (g j) = job_createdAt j
             /\ or_zero (job_attempts j) <= or_zero (job_attempts (g j))) ->
  Forall2 (jobRowStep ids) (jobQueue w)
    (map (fun j => if String.eqb (job_id j) jobId then g j else j)
         (jobQueue w)).
Proof.
  intros Hid Hg. apply Forall2_map_right. intros j _.
  destruct (String.eqb (job_id j) jobId) eqn:Heq; [|apply jobRowStep_refl].
  apply String.eqb_eq in Heq. destruct (Hg j) as [H1 [H2 [H3 [H4 H5]]]].
  unfold jobRowStep. repeat split; try assumption. left. now rewrite Heq.
Qed.

Lemma jobStep_markJobProcessing jobId :
  In jobId ids -> keeps R P (markJobProcessing E jobId).
Proof.
  intros Hid w _. unfold markJobProcessing. run_monad.
  destruct (dbFails E (dbOps w)); simpl; [now apply jobStep_same_queue|].
  apply (jobStep_update w jobId
           (fun j => mkJob (job_id j) (job_type j) (job_payload j)
                       (Some "processing")
                       (option_map (fun a => a + 1) (job_attempts j))
                       (job_scheduledFor j) (job_createdAt j)) Hid).
  intros j. simpl. repeat split.
  destruct (job_attempts j) as [a|]; simpl option_map;
    [rewrite !or_zero_Some; lia|simpl; lia].
Qed.

Lemma jobStep_markJobCompleted jobId :
  In jobId ids -> keeps R P (markJobCompleted E jobId).
Proof.
  intros Hid w _. unfold markJobCompleted. run_monad.
  destruct (dbFails E (dbOps w)); simpl; [now apply jobStep_same_queue|].
  apply (jobStep_update w jobId
           (fun j => mkJob (job_id j) (job_type j) (job_payload j)
                       (Some "completed") (job_attempts j)
                       (job_scheduledFor j) (job_createdAt j)) Hid).
  intros j. simpl. repeat split. lia.
Qed.

Lemma jobStep_markJobFailed jobId error :
  In jobId ids -> keeps R P (markJobFailed E jobId error).
Proof.
  intros Hid w Hnd. unfold markJobFailed. run_monad.
  destruct (dbFails E (dbOps w)); simpl; [now apply jobStep_same_queue|].
  destruct (filter _ (jobQueue w)) as [|job rest] eqn:Hsel; simpl;
    [now apply jobStep_same_queue|].
  assert (Hjob : In job (jobQueue w) /\ job_id job = jobId).
  { assert (Hin : In job (filter (fun j => String.eqb (job_id j) jobId)
                            (jobQueue w))) by (rewrite Hsel; now left).
    apply filter_In in Hin. split; [tauto|]. now apply String.eqb_eq. }
  assert (Hstep : forall st sched,
    Forall2 (jobRowStep ids) (jobQueue w)
      (map (fun j =>
              if String.eqb (job_id j) jobId then
                mkJob (job_id j) (job_type j) (job_payload j) (Some st)
                  (Some (or_zero (job_attempts job) + 1))
                  (match sched with
                   | Some d => Some d
                   | None => job_scheduledFor j
                   end) (job_createdAt j)
              else j) (jobQueue w))).
  { intros st sched. apply Forall2_map_right. intros j Hj.
    destruct (String.eqb (job_id j) jobId) eqn:Heq; [|apply jobRowStep_refl].
    apply String.eqb_eq in Heq.
    unfold jobRowStep.
    cbn [job_id job_type job_payload job_createdAt job_attempts].
    repeat split; [|left; now rewrite Heq].
    rewrite or_zero_Some.
    assert (j = job).
    { apply (NoDup_map_eq job_id (jobQueue w)); try tauto. now rewrite Heq. }
    subst j. lia. }
  destruct (MAX_ATTEMPTS <=? or_zero (job_attempts job) + 1); simpl;
    destruct (dbFails E (S (dbOps w))); simpl;
    try (now apply jobStep_same_queue); unfold R, jobStep; simpl;
    first [apply (Hstep _ None) | apply (Hstep _ (Some _))].
Qed.

End JobStep.

Section JobProcessor.

Variable E : Env.
Variable ids : list Id.

Let R := jobStep ids.
Let P := fun w : World => NoDup (map job_id (jobQueue w)).

Lemma jobStep_processJob job :
  In (job_id job) ids -> keeps R P (processJob E job).
Proof.
  intros Hid. unfold processJob.
  apply (keeps_bind R P (jobStep_trans ids) (jobStep_stable ids));
    [now apply jobStep_markJobProcessing|]. intros _.
  apply (keeps_try_catch R P (jobStep_trans ids) (jobStep_stable ids)).
  - apply (keeps_bind R P (jobStep_trans ids) (jobStep_stable ids));
      [|intros _; now apply jobStep_markJobCompleted].
    intros w _. apply jobStep_same_queue.
    destruct (String.eqb (job_type job) "instant_digest");
      [apply (sameJobs_processInstantDigest E _ w I)|].
    destruct (String.eqb (job_type job) "daily_digest");
      [apply (sameJobs_processScheduledDigest E _ _ w I)|].
    destruct (String.eqb (job_type job) "weekly_digest");
      [apply (sameJobs_processScheduledDigest E _ _ w I)|reflexivity].
  - intros e.
    apply (keeps_bind R P (jobStep_trans ids) (jobStep_stable ids));
      [now apply jobStep_markJobFailed|].
    intros _ w _. apply jobStep_refl.
Qed.

End JobProcessor.

(** What the job processor does to the queue: the rows stay, with
    attempts not decreased, and only rows that bear the id of a job it
    claimed are written. *)
Lemma runJobProcessor_jobStep E w :
  NoDup (map job_id (jobQueue w)) ->
  exists jobs,
    (forall j, In j jobs ->
       In j (jobQueue w)
       /\ job_status j = Some "pending"
       /\ exists t, job_scheduledFor j = Some t
                    /\ t <= clock E (clockReads w))
    /\ jobStep (map job_id jobs) w (snd (runJobProcessor E w)).
Proof.
  intros Hnd. unfold runJobProcessor, bind.
  destruct (getPendingJobs_run E 10 w) as [Hq [_ [_ Hready]]].
  destruct (getPendingJobs E 10 w) as [[jobs|e] w1]; cbn [fst snd] in *.
  - exists jobs. split; [apply (Hready jobs eq_refl)|].
    assert (H1 : jobStep (map job_id jobs) w w1)
      by now apply jobStep_same_queue.
    destruct (List.length jobs =? 0)%nat; [exact H1|].
    eapply jobStep_trans; [exact H1|].
    apply (keeps_for_of (jobStep (map job_id jobs))
             (fun w => NoDup (map job_id (jobQueue w)))
             (jobStep_refl _) (jobStep_trans _) (jobStep_stable _));
      [|now rewrite Hq].
    intros job Hjob.
    apply (keeps_try_catch _ _ (jobStep_trans _) (jobStep_stable _));
      [apply jobStep_processJob; now apply in_map|].
    intros _ w2 _. apply jobStep_refl.
  - exists []. split; [intros j []|]. now apply jobStep_same_queue.
Qed.

(** X6. The job processor only writes the jobs it claims. On a queue with
    unique ids, after [runJobProcessor], whether jobs succeed or throw,
    every row is still there with the same id, type, payload and creation
    time and with attempts not decreased, and a row that was not pending
    and due at the reading of the clock (a completed or failed job, or a
    retry still backing off) is exactly as it was. *)
Theorem job_processor_writes_only_claimed_jobs :
  forall E w,
    NoDup (map job_id (jobQueue w)) ->
    Forall2
      (fun j j' =>
         job_id j' = job_id j /\ job_type j' = job_type j
         /\ job_payload j' = job_payload j
         /\ job_createdAt j' = job_createdAt j
         /\ or_zero (job_attempts j) <= or_zero (job_attempts j')
         /\ (j' = j
             \/ (job_status j = Some "pending"
                 /\ exists t, job_scheduledFor j = Some t
                              /\ t <= clock E (clockReads w))))
      (jobQueue w) (jobQueue (snd (runJobProcessor E w))).
Proof.
  intros E w Hnd.
  destruct (runJobProcessor_jobStep E w Hnd) as [jobs [Hjobs Hstep]].
  eapply Forall2_pair_with_In; [|exact Hstep|exact Hstep].
  intros j j' Hj _ [H1 [H2 [H3 [H4 [H5 H6]]]]] _.
  repeat split; try assumption.
  destruct H6 as [Hin|Heq]; [|now left]. right.
  apply in_map_iff in Hin. destruct Hin as [j0 [Hid Hj0]].
  destruct (Hjobs j0 Hj0) as [Hj0q Hj0ready].
  assert (j0 = j) by (apply (NoDup_map_eq job_id (jobQueue w)); assumption).
  subst j0. exact Hj0ready.
Qed.

Lemma job_processor_writes_only_claimed_jobs_witness :
  Forall2 (fun j j' => job_id j' = job_id j)
    (jobQueue Scenario.purgeWorld)
    (jobQueue (snd (runJobProcessor Scenario.envFrozen Scenario.purgeWorld))).
Proof.
  eapply Forall2_impl;
    [|apply (job_processor_writes_only_claimed_jobs Scenario.envFrozen
               Scenario.purgeWorld)].
  - intros j j' H. exact (proj1 H).
  - simpl. repeat (constructor; [simpl; intuition discriminate|]).
    constructor.
Defined.

(* ================================================================== *)
(** * Further properties of the cadence enqueues and the scheduler *)

Lemma NoDup_map_injective {A B} (g : A -> B) (l : list A) :
  (forall x y, g x = g y -> x = y) -> NoDup l -> NoDup (map g l).
Proof.
  intros Hinj Hnd. induction Hnd as [|a l Hnotin _ IH]; simpl; constructor;
    [|exact IH].
  intros Hin. apply in_map_iff in Hin. destruct Hin as [x [Hx Hin]].
  apply Hinj in Hx. now subst.
Qed.

Lemma insertBy_In rank x l y : In y (insertBy rank x l) <-> y = x \/ In y l.
Proof.
  induction l as [|a l IH]; simpl; [intuition congruence|].
  destruct (rank x <=? rank a)%nat; simpl; [intuition congruence|].
  rewrite IH. intuition congruence.
Qed.

Lemma orderBy_In rank l y : In y (orderBy rank l) <-> In y l.
Proof.
  induction l as [|a l IH]; simpl; [tauto|].
  rewrite insertBy_In, IH. intuition congruence.
Qed.

Lemma insertBy_NoDup rank x l :
  ~ In x l -> NoDup l -> NoDup (insertBy rank x l).
Proof.
  induction l as [|a l IH]; intros Hx Hnd; simpl.
  - constructor; [exact Hx|constructor].
  - destruct (rank x <=? rank a)%nat; [now constructor|].
    inversion Hnd as [|b bs Ha Hnd']; subst. constructor.
    + rewrite insertBy_In. intros [->|Hin]; [apply Hx; now left|].
      contradiction.
    + apply IH; [|exact Hnd']. intros Hin. apply Hx. now right.
Qed.

(** The database may return the rows in any order, but it returns the
    same rows, each once. *)
Lemma orderBy_NoDup rank l : NoDup l -> NoDup (orderBy rank l).
Proof.
  induction l as [|a l IH]; intros Hnd; simpl; [constructor|].
  inversion Hnd as [|b bs Ha Hnd']; subst.
  apply insertBy_NoDup; [now rewrite orderBy_In|now apply IH].
Qed.

Lemma insertBy_sorted_filter (r : Id -> nat) (keep : Id -> bool) a l :
  StronglySorted (fun x y => (r x < r y)%nat) l ->
  In a l -> keep a = false ->
  insertBy r a (filter keep l)
  = filter (fun x => String.eqb x a || keep x) l.
Proof.
  induction l as [|y l IH]; intros Hsorted Hin Hkeep; [contradiction|].
  apply StronglySorted_inv in Hsorted. destruct Hsorted as [Hsorted Hy].
  rewrite Forall_forall in Hy.
  destruct (String.eqb y a) eqn:Hya.
  - apply String.eqb_eq in Hya. subst y. simpl.
    rewrite String.eqb_refl, Hkeep. simpl.
    assert (Hrest : filter (fun x => String.eqb x a || keep x) l
                    = filter keep l).
    { apply filter_ext_in. intros x Hx.
      destruct (String.eqb x a) eqn:Hxa; [|reflexivity].
      apply String.eqb_eq in Hxa. subst x. specialize (Hy a Hx). lia. }
    rewrite Hrest.
    destruct (filter keep l) as [|z zs] eqn:Hf; [reflexivity|]. simpl.
    assert (Hz : In z l).
    { assert (Hz : In z (filter keep l)) by (rewrite Hf; now left).
      now apply filter_In in Hz. }
    specialize (Hy z Hz).
    destruct (r a <=? r z)%nat eqn:Hle; [reflexivity|].
    apply Nat.leb_gt in Hle. lia.
  - destruct Hin as [->|Hin]; [now rewrite String.eqb_refl in Hya|].
    specialize (Hy a Hin). simpl. rewrite Hya. simpl.
    destruct (keep y); simpl.
    + destruct (r a <=? r y)%nat eqn:Hle;
        [apply Nat.leb_le in Hle; lia|].
      f_equal. now apply IH.
    + now apply IH.
Qed.

Lemma StronglySorted_weaken {A} (R R' : A -> A -> Prop) (l : list A) :
  (forall x y, In x l -> In y l -> R x y -> R' x y) ->
  StronglySorted R l -> StronglySorted R' l.
Proof.
  induction l as [|a l IH]; intros Hsub Hsorted; [constructor|].
  apply StronglySorted_inv in Hsorted. destruct Hsorted as [Hsorted Ha].
  constructor.
  - apply IH; [|exact Hsorted]. intros x y Hx Hy. apply Hsub; now right.
  - rewrite Forall_forall in *. intros x Hx.
    apply Hsub; [now left|now right|now apply Ha].
Qed.

Lemma position_sorted l :
  NoDup l ->
  StronglySorted (fun x y => (position l x < position l y)%nat) l.
Proof.
  induction l as [|a l IH]; intros Hnd; [constructor|].
  inversion Hnd as [|b bs Ha Hnd']; subst.
  assert (Hneq : forall x, In x l -> String.eqb a x = false).
  { intros x Hx. apply String.eqb_neq. intros ->. contradiction. }
  constructor.
  - apply (StronglySorted_weaken
             (fun x y => (position l x < position l y)%nat));
      [|now apply IH].
    intros x y Hx Hy Hlt. simpl. rewrite (Hneq x Hx), (Hneq y Hy). lia.
  - apply Forall_forall. intros x Hx. simpl.
    rewrite String.eqb_refl, (Hneq x Hx). lia.
Qed.

(** Any order of the distinct rows is the order of some rank: the rank
    that gives each row its place in that order. *)
Lemma orderBy_any_order l l' :
  NoDup l -> NoDup l' -> (forall x, In x l <-> In x l') ->
  orderBy (position l') l = l'.
Proof.
  intros Hl Hl' Hperm.
  assert (Hgen : forall m, NoDup m -> incl m l' ->
    orderBy (position l') m = filter (fun x => inArray x m) l').
  { induction m as [|a m IH]; intros Hm Hincl; simpl.
    - symmetry. apply filter_none. intros x _. reflexivity.
    - inversion Hm as [|b bs Ha Hm']; subst.
      rewrite IH by (try assumption; intros x Hx; apply Hincl; now right).
      rewrite insertBy_sorted_filter.
      + apply filter_ext. intros x. unfold inArray. simpl.
        now rewrite String.eqb_sym.
      + now apply position_sorted.
      + apply Hincl. now left.
      + destruct (inArray a m) eqn:Hin; [|reflexivity].
        apply inArray_In in Hin. contradiction. }
  rewrite Hgen by (try assumption; intros x Hx; now apply Hperm).
  clear Hgen. induction l' as [|a l']; [reflexivity|].
  assert (Hall : forall x, In x (a :: l') -> inArray x l = true).
  { intros x Hx. apply In_inArray. now apply Hperm. }
  clear - Hall. revert Hall. generalize (a :: l') as m.
  induction m as [|b m IH]; intros Hall; simpl; [reflexivity|].
  rewrite (Hall b (or_introl eq_refl)). f_equal.
  apply IH. intros x Hx. apply Hall. now right.
Qed.

Lemma distinctProjects_NoDup rank frequency subs :
  NoDup (distinctProjects rank frequency subs).
Proof. unfold distinctProjects. apply orderBy_NoDup, NoDup_nodup. Qed.

Lemma distinctProjects_In rank frequency subs projectId :
  In projectId (distinctProjects rank frequency subs)
  <-> exists s, In s subs /\ sub_projectId s = projectId
                /\ sub_frequency s = Some frequency.
Proof.
  unfold distinctProjects. rewrite orderBy_In, nodup_In, in_map_iff. split.
  - intros [s [Hp Hs]]. apply filter_In in Hs. destruct Hs as [Hs Hf].
    exists s. repeat split; try assumption.
    unfold opt_eqb in Hf. destruct (sub_frequency s); [|discriminate].
    apply String.eqb_eq in Hf. now subst.
  - intros [s [Hs [Hp Hf]]]. exists s. split; [exact Hp|].
    apply filter_In. split; [exact Hs|]. rewrite Hf. simpl.
    apply String.eqb_refl.
Qed.

Section CadenceEnqueue.

Variable E : Env.
Hypothesis Hdb : dbReachable E.
Variable type : string.

Lemma enqueueJob_run payload w :
  exists job w',
    enqueueJob E type payload None w = (Ok job, w')
    /\ jobQueue w' = jobQueue w ++ [job]
    /\ digestSubscriptions w' = digestSubscriptions w
    /\ job_payload job = payload
    /\ job_type job = type
    /\ job_status job = Some "pending"
    /\ job_attempts job = Some 0.
Proof.
  unfold enqueueJob. run_monad. rewrite Hdb. simpl.
  do 2 eexists. repeat split.
Qed.

(** The loop of [queueDailyDigests] and [queueWeeklyDigests]. *)
Lemma enqueue_loop_run projectIds :
  forall w,
    let r := for_of projectIds (fun projectId =>
               bind (enqueueJob E type (ProjectPayload projectId) None)
                    (fun _ => ret tt)) w in
    fst r = Ok tt
    /\ digestSubscriptions (snd r) = digestSubscriptions w
    /\ exists js,
         jobQueue (snd r) = jobQueue w ++ js
         /\ map job_payload js = map ProjectPayload projectIds
         /\ Forall (fun j => job_type j = type
                             /\ job_status j = Some "pending"
                             /\ job_attempts j = Some 0) js.
Proof.
  cbv zeta.
  set (body := fun projectId =>
         bind (enqueueJob E type (ProjectPayload projectId) None)
              (fun _ => ret tt)).
  induction projectIds as [|projectId projectIds IH]; intros w.
  - simpl. repeat split. exists []. repeat split; [now rewrite app_nil_r|].
    constructor.
  - cbn [for_of].
    destruct (enqueueJob_run (ProjectPayload projectId) w)
      as [job [w1 [Hrun [Hq1 [Hs1 [Hp1 [Ht1 [Hst1 Ha1]]]]]]]].
    assert (Hbody : body projectId w = (Ok tt, w1)).
    { unfold body. now rewrite (bind_Ok _ _ _ _ _ Hrun). }
    rewrite (bind_Ok _ _ _ _ _ Hbody).
    destruct (IH w1) as [Hok [Hsubs [js [Hq [Hp Hall]]]]].
    split; [exact Hok|]. split; [congruence|].
    exists (job :: js). split; [|split].
    + rewrite Hq, Hq1. rewrite <- app_assoc. reflexivity.
    + simpl. now rewrite Hp, Hp1.
    + constructor; [repeat split; assumption|exact Hall].
Qed.

End CadenceEnqueue.

(** X7. One job per project: on a reachable database [queueDailyDigests]
    and [queueWeeklyDigests] return after appending to the queue one
    pending job, of their type and with no attempts, for each distinct
    project that has a subscriber at their frequency, and no other job, in
    whatever order the database lists the projects; the subscription table
    is not touched. *)
Theorem cadence_enqueues_one_job_per_project :
  forall E w,
    dbReachable E ->
    (fst (queueDailyDigests E w) = Ok tt
     /\ digestSubscriptions (snd (queueDailyDigests E w))
        = digestSubscriptions w
     /\ exists js,
          jobQueue (snd (queueDailyDigests E w)) = jobQueue w ++ js
          /\ cadenceJobs "daily_digest" "daily" (digestSubscriptions w) js)
    /\ (fst (queueWeeklyDigests E w) = Ok tt
        /\ digestSubscriptions (snd (queueWeeklyDigests E w))
           = digestSubscriptions w
        /\ exists js,
             jobQueue (snd (queueWeeklyDigests E w)) = jobQueue w ++ js
             /\ cadenceJobs "weekly_digest" "weekly" (digestSubscriptions w)
                  js).
Proof.
  intros E w Hdb.
  assert (Hjobs : forall rank type frequency js,
    map job_payload js
    = map ProjectPayload
        (distinctProjects rank frequency (digestSubscriptions w)) ->
    Forall (fun j => job_type j = type /\ job_status j = Some "pending"
                     /\ job_attempts j = Some 0) js ->
    cadenceJobs type frequency (digestSubscriptions w) js).
  { intros rank type frequency js Hp Hall. split; [|split].
    - rewrite Hp. apply NoDup_map_injective; [now intros x y [=]|].
      apply distinctProjects_NoDup.
    - intros projectId. rewrite Hp, <- (distinctProjects_In rank). split.
      + intros Hin. apply in_map_iff in Hin.
        destruct Hin as [x [[=] Hx]]. now subst.
      + apply in_map.
    - apply Forall_forall. intros j Hj. split.
      + assert (Hin : In (job_payload j) (map job_payload js))
          by now apply in_map.
        rewrite Hp in Hin. apply in_map_iff in Hin.
        destruct Hin as [projectId [Heq _]]. now exists projectId.
      + rewrite Forall_forall in Hall. now apply Hall. }
  split.
  - unfold queueDailyDigests. run_monad. rewrite Hdb. simpl.
    match goal with
    | |- context [for_of ?pids _ ?w1] =>
      destruct (enqueue_loop_run E Hdb "daily_digest" pids w1)
        as [Hok [Hsubs [js [Hq [Hp Hall]]]]]
    end.
    cbv zeta in Hok, Hsubs, Hq.
    split; [exact Hok|]. split; [exact Hsubs|].
    exists js. split; [exact Hq|]. now apply (Hjobs _ _ _ _ Hp).
  - unfold queueWeeklyDigests. run_monad. rewrite Hdb. simpl.
    match goal with
    | |- context [for_of ?pids _ ?w1] =>
      destruct (enqueue_loop_run E Hdb "weekly_digest" pids w1)
        as [Hok [Hsubs [js [Hq [Hp Hall]]]]]
    end.
    cbv zeta in Hok, Hsubs, Hq.
    split; [exact Hok|]. split; [exact Hsubs|].
    exists js. split; [exact Hq|]. now apply (Hjobs _ _ _ _ Hp).
Qed.

Lemma cadence_enqueues_one_job_per_project_witness :
  exists js,
    jobQueue (snd (queueDailyDigests Scenario.env0 Scenario.world1))
    = jobQueue Scenario.world1 ++ js
    /\ cadenceJobs "daily_digest" "daily"
         (digestSubscriptions Scenario.world1) js.
Proof.
  destruct (cadence_enqueues_one_job_per_project Scenario.env0
              Scenario.world1) as [[_ [_ Hjobs]] _].
  - intro n. reflexivity.
  - exact Hjobs.
Defined.

Section ClockAhead.

Variable E : Env.

Let R := fun w w' : World => (clockReads w <= clockReads w')%nat.
Let P := fun _ : World => True.

Lemma clockAhead_refl : forall w, R w w.
Proof. intros w. unfold R. lia. Qed.

Lemma clockAhead_trans : forall w1 w2 w3, R w1 w2 -> R w2 w3 -> R w1 w3.
Proof. unfold R. intros w1 w2 w3 H1 H2. lia. Qed.

Lemma clockAhead_stable : forall w w', P w -> R w w' -> P w'.
Proof. intros w w' _ _. exact I. Qed.

Ltac clock_side :=
  first
    [ exact clockAhead_refl | exact clockAhead_trans | exact clockAhead_stable
    | intros; unfold R; simpl; lia ].

Lemma clockAhead_queueDailyDigests : keeps R P (queueDailyDigests E).
Proof. apply keeps_queueDailyDigests; clock_side. Qed.

Lemma clockAhead_queueWeeklyDigests : keeps R P (queueWeeklyDigests E).
Proof. apply keeps_queueWeeklyDigests; clock_side. Qed.

Lemma clockAhead_cleanupOldJobs days : keeps R P (cleanupOldJobs E days).
Proof. apply keeps_cleanupOldJobs; clock_side. Qed.

End ClockAhead.

Lemma scheduleState_eta st st' :
  dailyDigest st' = dailyDigest st -> weeklyDigest st' = weeklyDigest st ->
  cleanup st' = cleanup st -> st' = st.
Proof. destruct st, st'. simpl. now intros -> -> ->. Qed.

(** X8. The manual triggers enqueue without touching the scheduler memory:
    after [triggerDailyDigests] or [triggerWeeklyDigests], whether they
    return or throw, every [last_run] is what it was, so the scheduled run
    of the cadence is still to come. *)
Theorem manual_trigger_keeps_schedule :
  forall E w,
    scheduleState (snd (triggerDailyDigests E w)) = scheduleState w
    /\ scheduleState (snd (triggerWeeklyDigests E w)) = scheduleState w.
Proof.
  intros E w. split; apply scheduleState_eta;
    first [ apply (sameLastRun_queueDailyDigests E _ w I)
          | apply (sameLastRun_queueWeeklyDigests E _ w I) ].
Qed.

Lemma shouldRunDailyDigest_due E w :
  fst (shouldRunDailyDigest E w) = Ok true ->
  setUTCHours (clock E (clockReads w)) DAILY_DIGEST_HOUR
  <= clock E (clockReads w)
  /\ snd (shouldRunDailyDigest E w) = set_clockReads S w.
Proof.
  unfold shouldRunDailyDigest. run_monad.
  destruct (clock E (clockReads w) <? _) eqn:Hlt; simpl; [discriminate|].
  destruct (ranSince _ _); simpl; [discriminate|].
  intros _. apply Z.ltb_ge in Hlt. split; [exact Hlt|reflexivity].
Qed.

Lemma shouldRunDailyDigest_not_due E w lastRun :
  dailyDigest (scheduleState w) = Some lastRun ->
  clock E (clockReads w)
  < setUTCHours (clock E (clockReads w)) DAILY_DIGEST_HOUR
  \/ setUTCHours (clock E (clockReads w)) DAILY_DIGEST_HOUR <= lastRun ->
  fst (shouldRunDailyDigest E w) = Ok false.
Proof.
  intros Hlast Hor. unfold shouldRunDailyDigest. run_monad.
  destruct (clock E (clockReads w) <? _) eqn:Hlt; simpl; [reflexivity|].
  rewrite Hlast. simpl. apply Z.ltb_ge in Hlt.
  destruct Hor as [Hor|Hor]; [lia|].
  apply Z.leb_le in Hor. now rewrite Hor.
Qed.

(** Two readings of the clock with the second before the day after the
    first's trigger instant: either the second is before its own trigger
    instant, or both have the same one. *)
Lemma same_trigger_instant now0 now2 h :
  now0 <= now2 ->
  now2 < setUTCHours now0 h + msPerDay ->
  now2 < setUTCHours now2 h \/ setUTCHours now2 h = setUTCHours now0 h.
Proof.
  unfold setUTCHours, msPerDay. intros Hle Hlt.
  assert (Hdays : now0 / 86400000 <= now2 / 86400000)
    by (apply Z.div_le_mono; lia).
  change (24 * 60 * 60 * 1000) with 86400000 in *.
  destruct (Z_lt_le_dec (now0 / 86400000) (now2 / 86400000)) as [Hnext|Hsame].
  - left. lia.
  - right. assert (now2 / 86400000 = now0 / 86400000) by lia. congruence.
Qed.

(** X9. The daily digest fires once per day. After a tick on which the
    daily digest was due and its enqueue returned, with a clock that does
    not go back, no later reading of the clock before 09:00 UTC of the
    following day finds the daily digest due again. *)
Theorem daily_digest_fires_once_per_day :
  forall E w w2,
    clockMonotone E ->
    fst (shouldRunDailyDigest E w) = Ok true ->
    fst (queueDailyDigests E (set_clockReads S w)) = Ok tt ->
    scheduleState w2 = scheduleState (snd (tickDailyDigest E w)) ->
    (clockReads w <= clockReads w2)%nat ->
    clock E (clockReads w2)
    < setUTCHours (clock E (clockReads w)) DAILY_DIGEST_HOUR + msPerDay ->
    fst (shouldRunDailyDigest E w2) = Ok false.
Proof.
  intros E w w2 Hmono Hdue Hqueue Hstate Hlater Hbefore.
  destruct (shouldRunDailyDigest_due E w Hdue) as [Htarget Hw0].
  destruct (tickDailyDigest_run E w) as [_ [Hlast _]].
  unfold lastRunAfter in Hlast.
  pose proof (clockAhead_queueDailyDigests E (set_clockReads S w) I) as Hreads.
  destruct (shouldRunDailyDigest E w) as [r0 w0]. cbn [fst snd] in Hdue, Hw0.
  subst r0 w0.
  destruct (queueDailyDigests E (set_clockReads S w)) as [r1 w1].
  cbn [fst snd] in Hqueue, Hreads. subst r1.
  rewrite <- Hstate in Hlast. cbn [clockReads set_clockReads] in Hreads.
  apply (shouldRunDailyDigest_not_due E w2 _ Hlast).
  assert (Hnow : clock E (clockReads w) <= clock E (clockReads w2))
    by now apply Hmono.
  destruct (same_trigger_instant _ _ DAILY_DIGEST_HOUR Hnow Hbefore)
    as [Hearly|Hsame]; [now left|].
  right. rewrite Hsame.
  apply Z.le_trans with (clock E (clockReads w)); [exact Htarget|].
  apply Hmono. lia.
Qed.

Lemma daily_digest_fires_once_per_day_witness :
  let w1 := snd (tickDailyDigest Scenario.env0 Scenario.world1) in
  fst (shouldRunDailyDigest Scenario.env0 Scenario.world1) = Ok true
  /\ fst (shouldRunDailyDigest Scenario.env0 w1) = Ok false.
Proof.
  split; [reflexivity|].
  apply (daily_digest_fires_once_per_day Scenario.env0 Scenario.world1).
  - intros m n Hmn.
    change (Scenario.t0 + Z.of_nat m <= Scenario.t0 + Z.of_nat n). lia.
  - reflexivity.
  - reflexivity.
  - reflexivity.
  - apply Nat.leb_le. reflexivity.
  - apply Z.ltb_lt. reflexivity.
Defined.

Lemma shouldRunWeeklyDigest_due E w :
  fst (shouldRunWeeklyDigest E w) = Ok true ->
  getUTCDay (clock E (clockReads w)) = WEEKLY_DIGEST_DAY
  /\ setUTCHours (clock E (clockReads w)) WEEKLY_DIGEST_HOUR
     <= clock E (clockReads w)
  /\ snd (shouldRunWeeklyDigest E w) = set_clockReads S w.
Proof.
  unfold shouldRunWeeklyDigest. run_monad.
  destruct (getUTCDay (clock E (clockReads w)) =? WEEKLY_DIGEST_DAY) eqn:Hday;
    simpl; [|discriminate].
  destruct (clock E (clockReads w) <? _) eqn:Hlt; simpl; [discriminate|].
  destruct (ranSince _ _); simpl; [discriminate|].
  intros _. apply Z.ltb_ge in Hlt. apply Z.eqb_eq in Hday.
  repeat split; assumption.
Qed.

Lemma shouldRunWeeklyDigest_not_due E w lastRun :
  weeklyDigest (scheduleState w) = Some lastRun ->
  getUTCDay (clock E (clockReads w)) <> WEEKLY_DIGEST_DAY
  \/ clock E (clockReads w)
     < setUTCHours (clock E (clockReads w)) WEEKLY_DIGEST_HOUR
  \/ setUTCHours (clock E (clockReads w)) WEEKLY_DIGEST_HOUR <= lastRun ->
  fst (shouldRunWeeklyDigest E w) = Ok false.
Proof.
  intros Hlast Hor. unfold shouldRunWeeklyDigest. run_monad.
  destruct (getUTCDay (clock E (clockReads w)) =? WEEKLY_DIGEST_DAY) eqn:Hday;
    simpl; [|reflexivity].
  destruct (clock E (clockReads w) <? _) eqn:Hlt; simpl; [reflexivity|].
  rewrite Hlast. simpl. apply Z.ltb_ge in Hlt. apply Z.eqb_eq in Hday.
  destruct Hor as [Hor|[Hor|Hor]]; [contradiction|lia|].
  apply Z.leb_le in Hor. now rewrite Hor.
Qed.

(** Two readings of the clock, the first on the trigger day of the week
    and the second less than a week after the first's trigger instant:
    the second is on another day of the week, or before its own trigger
    instant, or has the same trigger instant. *)
Lemma same_weekly_trigger_instant now0 now2 :
  now0 <= now2 ->
  getUTCDay now0 = WEEKLY_DIGEST_DAY ->
  now2 < setUTCHours now0 WEEKLY_DIGEST_HOUR + 7 * msPerDay ->
  getUTCDay now2 <> WEEKLY_DIGEST_DAY
  \/ now2 < setUTCHours now2 WEEKLY_DIGEST_HOUR
  \/ setUTCHours now2 WEEKLY_DIGEST_HOUR
     = setUTCHours now0 WEEKLY_DIGEST_HOUR.
Proof.
  unfold getUTCDay, setUTCHours, msPerDay, WEEKLY_DIGEST_DAY,
    WEEKLY_DIGEST_HOUR.
  change (24 * 60 * 60 * 1000) with 86400000.
  intros Hle Hday0 Hlt.
  assert (Hdays : now0 / 86400000 <= now2 / 86400000)
    by (apply Z.div_le_mono; lia).
  pose proof (Z.mul_div_le now2 86400000 ltac:(lia)) as Hfloor.
  set (d0 := now0 / 86400000) in *. set (d2 := now2 / 86400000) in *.
  destruct (Z.eq_dec ((d2 + 4) mod 7) 0) as [Hday2|Hday2]; [|now left].
  right.
  pose proof (Z.div_mod (d0 + 4) 7 ltac:(lia)) as H0.
  pose proof (Z.div_mod (d2 + 4) 7 ltac:(lia)) as H2.
  rewrite Hday0 in H0. rewrite Hday2 in H2.
  assert (Hcases : d2 = d0 \/ d2 = d0 + 7) by lia.
  destruct Hcases as [->| ->]; [now right|left; lia].
Qed.

(** X10. The weekly digest fires once per week. After a tick on which the
    weekly digest was due and its enqueue returned, with a clock that does
    not go back, no later reading of the clock before Sunday 10:00 UTC of
    the following week finds the weekly digest due again. *)
Theorem weekly_digest_fires_once_per_week :
  forall E w w2,
    clockMonotone E ->
    fst (shouldRunWeeklyDigest E w) = Ok true ->
    fst (queueWeeklyDigests E (set_clockReads S w)) = Ok tt ->
    scheduleState w2 = scheduleState (snd (tickWeeklyDigest E w)) ->
    (clockReads w <= clockReads w2)%nat ->
    clock E (clockReads w2)
    < setUTCHours (clock E (clockReads w)) WEEKLY_DIGEST_HOUR
      + 7 * msPerDay ->
    fst (shouldRunWeeklyDigest E w2) = Ok false.
Proof.
  intros E w w2 Hmono Hdue Hqueue Hstate Hlater Hbefore.
  destruct (shouldRunWeeklyDigest_due E w Hdue) as [Hday [Htarget Hw0]].
  destruct (tickWeeklyDigest_run E w) as [_ [Hlast _]].
  unfold lastRunAfter in Hlast.
  pose proof (clockAhead_queueWeeklyDigests E (set_clockReads S w) I)
    as Hreads.
  destruct (shouldRunWeeklyDigest E w) as [r0 w0].
  cbn [fst snd] in Hdue, Hw0. subst r0 w0.
  destruct (queueWeeklyDigests E (set_clockReads S w)) as [r1 w1].
  cbn [fst snd] in Hqueue, Hreads. subst r1.
  rewrite <- Hstate in Hlast. cbn [clockReads set_clockReads] in Hreads.
  apply (shouldRunWeeklyDigest_not_due E w2 _ Hlast).
  assert (Hnow : clock E (clockReads w) <= clock E (clockReads w2))
    by now apply Hmono.
  destruct (same_weekly_trigger_instant _ _ Hnow Hday Hbefore)
    as [Hother|[Hearly|Hsame]]; [now left|right; now left|].
  right. right. rewrite Hsame.
  apply Z.le_trans with (clock E (clockReads w)); [exact Htarget|].
  apply Hmono. lia.
Qed.

Lemma weekly_digest_fires_once_per_week_witness :
  let w1 := snd (tickWeeklyDigest Sunday.env Scenario.world1) in
  fst (shouldRunWeeklyDigest Sunday.env Scenario.world1) = Ok true
  /\ fst (shouldRunWeeklyDigest Sunday.env w1) = Ok false.
Proof.
  split; [reflexivity|].
  apply (weekly_digest_fires_once_per_week Sunday.env Scenario.world1).
  - intros m n Hmn.
    change (Sunday.noon + Z.of_nat m <= Sunday.noon + Z.of_nat n). lia.
  - reflexivity.
  - reflexivity.
  - reflexivity.
  - apply Nat.leb_le. reflexivity.
  - apply Z.ltb_lt. reflexivity.
Defined.

(* ------------------------------------------------------------------ *)
(** ** Public subscription routes *)

Lemma findProjectByToken_run E token w :
  dbFails E (dbOps w) = false ->
  findProjectByToken E token w
  = (Ok (hd_error (filter (fun p => opt_eqb (proj_magicLinkToken p) token)
                          (projects w))),
     set_dbOps S w).
Proof. intros Hdb. unfold findProjectByToken. run_monad. now rewrite Hdb. Qed.

Lemma findSubscription_run E projectId email w :
  dbFails E (dbOps w) = false ->
  findSubscription E projectId email w
  = (Ok (hd_error (rowsOf projectId email (digestSubscriptions w))),
     set_dbOps S w).
Proof. intros Hdb. unfold findSubscription. run_monad. now rewrite Hdb. Qed.

(** X11. A subscription request that is not answered with 200 or 201 has
    changed no subscription and sent no confirmation; the route always
    answers. *)
Theorem subscribe_rejected_changes_nothing :
  forall E w token email frequency,
    exists resp,
      fst (subscribe E token email frequency w) = Ok resp
      /\ (status resp <> 200 -> status resp <> 201 ->
          digestSubscriptions (snd (subscribe E token email frequency w))
          = digestSubscriptions w
          /\ outbox (snd (subscribe E token email frequency w)) = outbox w).
Proof.
  intros E w token email frequency. unfold subscribe.
  destruct email as [email|]; [|eexists; split; [reflexivity|now split]].
  destruct (String.eqb email ""); [eexists; split; [reflexivity|now split]|].
  destruct (negb (emailRegex_test email));
    [eexists; split; [reflexivity|now split]|].
  unfold findProjectByToken, findSubscription, insertSubscription,
    sendSubscriptionConfirmed, sendEmail.
  run_monad.
  destruct (dbFails E (dbOps w)); simpl;
    [eexists; split; [reflexivity|now split]|].
  destruct (hd_error (filter _ (projects w))) as [project|]; simpl;
    [|eexists; split; [reflexivity|now split]].
  destruct (dbFails E (S (dbOps w))); simpl;
    [eexists; split; [reflexivity|now split]|].
  destruct (hd_error (filter _ (digestSubscriptions w))) as [existing|] eqn:Hex;
    simpl.
  - destruct (dbFails E (S (S (dbOps w)))); simpl;
      eexists; (split; [reflexivity|]); simpl; intros; now try split.
  - destruct (dbFails E (S (S (dbOps w)))); simpl;
      [eexists; split; [reflexivity|now split]|].
    destruct (existsb _ (digestSubscriptions w)); simpl;
      eexists; (split; [reflexivity|]); simpl; intros; now try split.
Qed.

Lemma rowsOf_none_existsb projectId email l :
  hd_error (rowsOf projectId email l) = None ->
  existsb (fun s => String.eqb (sub_projectId s) projectId
                    && String.eqb (sub_email s) email) l = false.
Proof.
  unfold rowsOf. induction l as [|a l IH]; simpl; [reflexivity|].
  destruct (_ && _); simpl; [discriminate|exact IH].
Qed.

Lemma rowsOf_none_nil projectId email l :
  hd_error (rowsOf projectId email l) = None ->
  rowsOf projectId email l = [].
Proof. destruct (rowsOf projectId email l); [reflexivity|discriminate]. Qed.

Lemma subscribe_stores E w token email frequency resp :
  dbReachable E ->
  fst (subscribe E token (Some email) frequency w) = Ok resp ->
  status resp = 200 \/ status resp = 201 ->
  let w' := snd (subscribe E token (Some email) frequency w) in
  projects w' = projects w
  /\ exists project row,
       hd_error (filter (fun p => opt_eqb (proj_magicLinkToken p) token)
                        (projects w)) = Some project
       /\ hd_error (rowsOf (proj_id project) (trim (toLowerCase email))
                           (digestSubscriptions w')) = Some row
       /\ sub_frequency row = Some (normalizeFrequency frequency).
Proof.
  intros Hdb Hresp Hcode. revert Hresp. unfold subscribe.
  destruct (String.eqb email "");
    [simpl; intros [= <-]; simpl in Hcode; destruct Hcode; discriminate|].
  destruct (negb (emailRegex_test email));
    [simpl; intros [= <-]; simpl in Hcode; destruct Hcode; discriminate|].
  set (addr := trim (toLowerCase email)).
  set (nf := normalizeFrequency frequency).
  unfold findProjectByToken, findSubscription, insertSubscription,
    sendSubscriptionConfirmed, sendEmail.
  run_monad. rewrite !Hdb. simpl.
  destruct (hd_error (filter _ (projects w))) as [project|] eqn:Hproj;
    [|simpl; intros [= <-]; simpl in Hcode; destruct Hcode; discriminate].
  simpl. rewrite !Hdb. simpl.
  fold (rowsOf (proj_id project) addr (digestSubscriptions w)).
  destruct (hd_error (rowsOf (proj_id project) addr (digestSubscriptions w)))
    as [existing|] eqn:Hex; simpl.
  - rewrite !Hdb. simpl. intros _. split; [reflexivity|].
    exists project. rewrite rowsOf_map; [|intros s; now destruct (String.eqb _ _)].
    destruct (rowsOf (proj_id project) addr (digestSubscriptions w))
      as [|x rest]; [discriminate|].
    injection Hex as ->. simpl. rewrite String.eqb_refl.
    eexists. repeat split.
  - rewrite !Hdb. simpl.
    rewrite (rowsOf_none_existsb _ _ _ Hex). simpl. intros _.
    split; [reflexivity|]. exists project.
    unfold rowsOf at 1. rewrite filter_app.
    fold (rowsOf (proj_id project) addr (digestSubscriptions w)).
    rewrite (rowsOf_none_nil _ _ _ Hex). simpl.
    rewrite !String.eqb_refl. simpl. eexists. repeat split.
Qed.

(** X12. Subscribe, then ask: after a subscription request answered with
    200 or 201, the status route, asked with the same token and an
    address that normalises to the same one, reports the subscription
    with the frequency that was stored. *)
Theorem subscribe_then_status_reports_frequency :
  forall E w token email frequency resp email',
    dbReachable E ->
    fst (subscribe E token (Some email) frequency w) = Ok resp ->
    status resp = 200 \/ status resp = 201 ->
    email' <> "" ->
    trim (toLowerCase email') = trim (toLowerCase email) ->
    fst (subscriptionStatus E token (Some email')
           (snd (subscribe E token (Some email) frequency w)))
    = Ok (SubscribedAt (Some (normalizeFrequency frequency))).
Proof.
  intros E w token email frequency resp email' Hdb Hresp Hcode Hne Hnorm.
  destruct (subscribe_stores E w token email frequency resp Hdb Hresp Hcode)
    as [Hprojects [project [row [Hproj [Hrow Hfreq]]]]].
  apply String.eqb_neq in Hne.
  unfold subscriptionStatus. rewrite Hne, Hnorm.
  set (w' := snd (subscribe E token (Some email) frequency w)) in *.
  unfold try_catch.
  rewrite (bind_Ok _ _ _ _ _ (findProjectByToken_run E token w' (Hdb _))).
  rewrite Hprojects, Hproj.
  rewrite (bind_Ok _ _ _ _ _
             (findSubscription_run E (proj_id project) _ _ (Hdb _))).
  cbn [digestSubscriptions set_dbOps]. rewrite Hrow. simpl.
  now rewrite Hfreq.
Qed.

Lemma subscribe_then_status_reports_frequency_witness :
  fst (subscriptionStatus Scenario.env0 "tok-1" (Some "  New@X.com ")
         (snd (subscribe Scenario.env0 "tok-1" (Some "new@x.com")
                 (Some "weekly") Scenario.world1)))
  = Ok (SubscribedAt (Some (normalizeFrequency (Some "weekly")))).
Proof.
  apply (subscribe_then_status_reports_frequency Scenario.env0 Scenario.world1
           "tok-1" "new@x.com" (Some "weekly")
           (mkResponse 201 "Subscribed successfully")).
  - intros n. reflexivity.
  - reflexivity.
  - right. reflexivity.
  - discriminate.
  - reflexivity.
Defined.

(** X13. A request to unsubscribe that is not answered with 200 has removed
    no subscription; the route always answers. *)
Theorem unsubscribe_rejected_changes_nothing :
  forall E w token queryEmail bodyEmail,
    exists resp,
      fst (unsubscribe E token queryEmail bodyEmail w) = Ok resp
      /\ (status resp <> 200 ->
          digestSubscriptions (snd (unsubscribe E token queryEmail bodyEmail w))
          = digestSubscriptions w).
Proof.
  intros E w token queryEmail bodyEmail. unfold unsubscribe.
  destruct (or_else queryEmail bodyEmail) as [email|];
    [|eexists; split; [reflexivity|reflexivity]].
  destruct (String.eqb email ""); [eexists; split; reflexivity|].
  unfold findProjectByToken, findSubscription. run_monad.
  destruct (dbFails E (dbOps w)); simpl; [eexists; split; reflexivity|].
  destruct (hd_error (filter _ (projects w))) as [project|]; simpl;
    [|eexists; split; reflexivity].
  destruct (dbFails E (S (dbOps w))); simpl; [eexists; split; reflexivity|].
  destruct (hd_error (filter _ (digestSubscriptions w))) as [existing|];
    simpl; [|eexists; split; reflexivity].
  destruct (dbFails E (S (S (dbOps w)))); simpl;
    [eexists; split; reflexivity|].
  eexists; split; [reflexivity|]. simpl. intros H. now contradict H.
Qed.

Lemma hd_error_In {A} (l : list A) x : hd_error l = Some x -> In x l.
Proof. destruct l; simpl; [discriminate|]. intros [= ->]. now left. Qed.

Lemma rowsOf_In projectId email l s :
  In s (rowsOf projectId email l)
  <-> In s l /\ sub_key s = (projectId, email).
Proof.
  unfold rowsOf, sub_key. rewrite filter_In, andb_true_iff, !String.eqb_eq.
  split; intros [Hin Hk]; (split; [exact Hin|]).
  - destruct Hk. congruence.
  - injection Hk. tauto.
Qed.

(** X14. Unsubscribe, then ask: with a subscription table that satisfies its
    primary key and its unique (project, address) constraint, a request to
    unsubscribe answered with 200 has removed the rows of that project and
    address and no other row, and the status route then reports that the
    address is not subscribed. *)
Theorem unsubscribe_removes_the_subscription :
  forall E w token queryEmail bodyEmail email resp,
    dbReachable E ->
    NoDup (map sub_id (digestSubscriptions w)) ->
    NoDup (map sub_key (digestSubscriptions w)) ->
    or_else queryEmail bodyEmail = Some email ->
    fst (unsubscribe E token queryEmail bodyEmail w) = Ok resp ->
    status resp = 200 ->
    let w' := snd (unsubscribe E token queryEmail bodyEmail w) in
    (exists project,
       hd_error (filter (fun p => opt_eqb (proj_magicLinkToken p) token)
                        (projects w)) = Some project
       /\ digestSubscriptions w'
          = filter (fun s =>
                      negb (String.eqb (sub_projectId s) (proj_id project)
                            && String.eqb (sub_email s)
                                 (trim (toLowerCase email))))
                   (digestSubscriptions w))
    /\ fst (subscriptionStatus E token (Some email) w') = Ok NotSubscribed.
Proof.
  intros E w token queryEmail bodyEmail email resp Hdb Hids Hkeys Hemail
    Hresp Hcode w'.
  assert (Hrun : email <> ""
    /\ projects w' = projects w
    /\ exists project,
       hd_error (filter (fun p => opt_eqb (proj_magicLinkToken p) token)
                        (projects w)) = Some project
       /\ digestSubscriptions w'
          = filter (fun s =>
                      negb (String.eqb (sub_projectId s) (proj_id project)
                            && String.eqb (sub_email s)
                                 (trim (toLowerCase email))))
                   (digestSubscriptions w)).
  { subst w'. revert Hresp. unfold unsubscribe. rewrite Hemail.
    destruct (String.eqb email "") eqn:Hne;
      [simpl; intros [= <-]; discriminate Hcode|].
    apply String.eqb_neq in Hne.
    set (addr := trim (toLowerCase email)).
    unfold findProjectByToken, findSubscription. run_monad.
    rewrite !Hdb. simpl.
    destruct (hd_error (filter _ (projects w))) as [project|] eqn:Hproj;
      [|simpl; intros [= <-]; discriminate Hcode].
    simpl. rewrite !Hdb. simpl.
    fold (rowsOf (proj_id project) addr (digestSubscriptions w)).
    destruct (hd_error (rowsOf (proj_id project) addr
                          (digestSubscriptions w)))
      as [existing|] eqn:Hex;
      [|simpl; intros [= <-]; discriminate Hcode].
    simpl. rewrite !Hdb. simpl. intros _.
    split; [exact Hne|]. split; [reflexivity|].
    exists project. split; [reflexivity|].
    apply hd_error_In, rowsOf_In in Hex. destruct Hex as [Hin Hkey].
    apply filter_ext_in. intros s Hs. f_equal.
    destruct (String.eqb (sub_id s) (sub_id existing)) eqn:Hid.
    - apply String.eqb_eq in Hid.
      assert (s = existing)
        by (apply (NoDup_map_eq sub_id (digestSubscriptions w)); auto).
      subst s.
      unfold sub_key in Hkey. injection Hkey as -> ->.
      now rewrite !String.eqb_refl.
    - destruct (_ && _) eqn:Hk; [|reflexivity].
      apply andb_true_iff in Hk. rewrite !String.eqb_eq in Hk.
      assert (s = existing).
      { apply (NoDup_map_eq sub_key (digestSubscriptions w)); auto.
        rewrite Hkey. unfold sub_key. destruct Hk. congruence. }
      subst s. now rewrite String.eqb_refl in Hid. }
  destruct Hrun as [Hne [Hprojects [project [Hproj Hrows]]]].
  split; [exists project; split; assumption|].
  apply String.eqb_neq in Hne.
  unfold subscriptionStatus. rewrite Hne. unfold try_catch.
  rewrite (bind_Ok _ _ _ _ _ (findProjectByToken_run E token w' (Hdb _))).
  rewrite Hprojects, Hproj.
  rewrite (bind_Ok _ _ _ _ _
             (findSubscription_run E (proj_id project) _ _ (Hdb _))).
  cbn [digestSubscriptions set_dbOps]. rewrite Hrows.
  unfold rowsOf. rewrite filter_none; [reflexivity|].
  intros s Hs. apply filter_In in Hs as [_ Hs].
  now apply negb_true_iff in Hs.
Qed.

Lemma unsubscribe_removes_the_subscription_witness :
  let w' := snd (unsubscribe Scenario.env0 "tok-1" (Some " B@x.com") None
                   Scenario.world1) in
  (exists project,
     hd_error (filter (fun p => opt_eqb (proj_magicLinkToken p) "tok-1")
                      (projects Scenario.world1)) = Some project
     /\ digestSubscriptions w'
        = filter (fun s =>
                    negb (String.eqb (sub_projectId s) (proj_id project)
                          && String.eqb (sub_email s)
                               (trim (toLowerCase " B@x.com"))))
                 (digestSubscriptions Scenario.world1))
  /\ fst (subscriptionStatus Scenario.env0 "tok-1" (Some " B@x.com") w')
     = Ok NotSubscribed.
Proof.
  apply (unsubscribe_removes_the_subscription Scenario.env0 Scenario.world1
           "tok-1" (Some " B@x.com") None " B@x.com"
           (mkResponse 200 "Unsubscribed successfully")).
  - intros n. reflexivity.
  - simpl. repeat constructor; simpl; intuition discriminate.
  - simpl. repeat constructor; simpl; intuition discriminate.
  - reflexivity.
  - reflexivity.
  - reflexivity.
Defined.

(* ------------------------------------------------------------------ *)
(** ** Administration of the job queue *)

Ltac retry_rejected :=
  eexists; split; [reflexivity|];
  split; simpl; [intros H; discriminate H|reflexivity].

(** X15. The retry route resets failed jobs only: when the job does not
    exist, is not failed, or the database is unreachable, the queue is left
    as it was and the answer is not 200; the route always answers. *)
Theorem retryJob_resets_failed_jobs_only :
  forall E w jobId,
    exists resp,
      fst (retryJob E jobId w) = Ok resp
      /\ (status resp = 200 ->
          exists job rest,
            filter (fun j => String.eqb (job_id j) jobId) (jobQueue w)
            = job :: rest
            /\ job_status job = Some "failed")
      /\ (status resp <> 200 ->
          jobQueue (snd (retryJob E jobId w)) = jobQueue w).
Proof.
  intros E w jobId. unfold retryJob. run_monad.
  destruct (dbFails E (dbOps w)); simpl;
    [retry_rejected|].
  destruct (filter _ (jobQueue w)) as [|job rest] eqn:Hrows; simpl;
    [retry_rejected|].
  destruct (job_status job) as [st|] eqn:Hst; simpl;
    [|retry_rejected].
  destruct (String.eqb st "failed") eqn:Hfailed; simpl;
    [|retry_rejected].
  apply String.eqb_eq in Hfailed. subst st.
  destruct (dbFails E (S (dbOps w))); simpl;
    [retry_rejected|].
  eexists. split; [reflexivity|]. split; simpl.
  - intros _. exists job, rest. now split.
  - intros H. now contradict H.
Qed.

(** X16. A retried job is ready for the processor: after the retry route
    has answered 200, with a clock that does not go back, every row of
    that job is pending with no attempt counted and due at once, so that it
    satisfies the selection of [getPendingJobs] at every later poll; the
    other jobs are as they were. *)
Theorem retried_job_is_ready :
  forall E w jobId resp,
    clockMonotone E ->
    fst (retryJob E jobId w) = Ok resp ->
    status resp = 200 ->
    let w' := snd (retryJob E jobId w) in
    Forall2 (fun j j' =>
               if String.eqb (job_id j) jobId then
                 job_id j' = jobId
                 /\ job_type j' = job_type j
                 /\ job_payload j' = job_payload j
                 /\ job_status j' = Some "pending"
                 /\ job_attempts j' = Some 0
                 /\ forall w2, (clockReads w' <= clockReads w2)%nat ->
                      opt_leb (job_scheduledFor j') (clock E (clockReads w2))
                      = true
               else j' = j)
            (jobQueue w) (jobQueue w').
Proof.
  intros E w jobId resp Hmono. unfold retryJob. run_monad.
  destruct (dbFails E (dbOps w)); simpl; [intros [= <-]; discriminate|].
  destruct (filter _ (jobQueue w)) as [|job rest]; simpl;
    [intros [= <-]; discriminate|].
  destruct (negb (opt_eqb (job_status job) "failed")); simpl;
    [intros [= <-]; discriminate|].
  destruct (dbFails E (S (dbOps w))); simpl; [intros [= <-]; discriminate|].
  intros _ _.
  induction (jobQueue w) as [|j js IH]; simpl; constructor; [|exact IH].
  destruct (String.eqb (job_id j) jobId) eqn:Hid; [|reflexivity].
  apply String.eqb_eq in Hid. simpl. repeat split; [exact Hid|].
  intros w2 Hlater. apply Z.leb_le. apply Hmono. lia.
Qed.

Lemma retried_job_is_ready_witness :
  let failedJob :=
    mkJob "j-1" "daily_digest" (ProjectPayload "p1") (Some "failed")
      (Some 4) (Some Scenario.t0) (Some Scenario.t0) in
  let w := set_jobQueue (fun _ => [failedJob]) Scenario.world1 in
  let w' := snd (retryJob Scenario.env0 "j-1" w) in
  Forall2 (fun j j' =>
             if String.eqb (job_id j) "j-1" then
               job_id j' = "j-1"
               /\ job_type j' = job_type j
               /\ job_payload j' = job_payload j
               /\ job_status j' = Some "pending"
               /\ job_attempts j' = Some 0
               /\ forall w2, (clockReads w' <= clockReads w2)%nat ->
                    opt_leb (job_scheduledFor j')
                            (clock Scenario.env0 (clockReads w2)) = true
             else j' = j)
          (jobQueue w) (jobQueue w').
Proof.
  intros failedJob w w'.
  apply (retried_job_is_ready Scenario.env0 w "j-1"
           (mkResponse 200 "Job reset for retry")).
  - intros m n Hmn.
    change (Scenario.t0 + Z.of_nat m <= Scenario.t0 + Z.of_nat n). lia.
  - reflexivity.
  - reflexivity.
Defined.

Lemma filter_negb_all {A} (f : A -> bool) (l : list A) :
  filter f l = [] -> filter (fun x => negb (f x)) l = l.
Proof.
  induction l as [|a l IH]; simpl; [reflexivity|].
  destruct (f a); simpl; [discriminate|]. intros H. now rewrite IH.
Qed.

Lemma filter_idem {A} (f : A -> bool) (l : list A) :
  filter f (filter f l) = filter f l.
Proof.
  induction l as [|a l IH]; simpl; [reflexivity|].
  destruct (f a) eqn:Hf; simpl; [rewrite Hf|]; now rewrite ?IH.
Qed.

(** X17. The delete route removes that job and no other: whatever the
    answer, every job with another id stays in the queue, in its place;
    after the answer 200 no row bears the id; an answer other than 200
    means that the queue is as it was. *)
Theorem deleteJob_removes_only_that_job :
  forall E w jobId,
    exists resp,
      fst (deleteJob E jobId w) = Ok resp
      /\ filter (fun j => negb (String.eqb (job_id j) jobId))
                (jobQueue (snd (deleteJob E jobId w)))
         = filter (fun j => negb (String.eqb (job_id j) jobId)) (jobQueue w)
      /\ (status resp = 200 ->
          forall j, In j (jobQueue (snd (deleteJob E jobId w))) ->
                    job_id j <> jobId)
      /\ (status resp <> 200 ->
          jobQueue (snd (deleteJob E jobId w)) = jobQueue w).
Proof.
  intros E w jobId. unfold deleteJob. run_monad.
  destruct (dbFails E (dbOps w)); simpl.
  { eexists. split; [reflexivity|]. split; [reflexivity|].
    split; simpl; [intros H; discriminate H|reflexivity]. }
  destruct (filter (fun j => String.eqb (job_id j) jobId) (jobQueue w))
    as [|job rest] eqn:Hrows; simpl.
  - eexists. split; [reflexivity|].
    rewrite !(filter_negb_all _ _ Hrows).
    split; [reflexivity|].
    split; simpl; [intros H; discriminate H|reflexivity].
  - eexists. split; [reflexivity|]. split; [|split]; simpl.
    + apply filter_idem.
    + intros _ j Hj. apply filter_In in Hj as [_ Hj].
      apply negb_true_iff in Hj. now apply String.eqb_neq in Hj.
    + intros H. now contradict H.
Qed.

(* ------------------------------------------------------------------ *)
(** ** Job statistics *)

Section StatusFold.

Variable cnt : option string -> nat.

Let rowOf (st : option string) : option string * Z := (st, Z.of_nat (cnt st)).

(** A counter that the loop sets for the status [key] and for no other
    status ends as the count of [key] when that status occurs. *)
Lemma fold_addStatusCount_counter (proj : JobStats -> Z) (key : string) :
  (forall r n, proj (addStatusCount r (Some key, n)) = n) ->
  (forall r st n, st <> Some key -> proj (addStatusCount r (st, n)) = proj r) ->
  forall L r,
    proj (fold_left addStatusCount (map rowOf L) r)
    = if in_dec option_string_dec (Some key) L
      then Z.of_nat (cnt (Some key)) else proj r.
Proof.
  intros Hset Hother L. induction L as [|st L IH]; intros r; [reflexivity|].
  cbn [map fold_left]. rewrite IH.
  destruct (in_dec option_string_dec (Some key) L) as [Hin|Hnotin].
  - destruct (in_dec option_string_dec (Some key) (st :: L)) as [_|Hn];
      [reflexivity|]. exfalso. apply Hn. now right.
  - destruct (option_string_dec st (Some key)) as [->|Hneq].
    + unfold rowOf. rewrite Hset.
      destruct (in_dec option_string_dec (Some key) (Some key :: L))
        as [_|Hn]; [reflexivity|]. exfalso. apply Hn. now left.
    + unfold rowOf. rewrite Hother by exact Hneq.
      destruct (in_dec option_string_dec (Some key) (st :: L))
        as [[Heq|Hin]|_]; [contradiction|contradiction|reflexivity].
Qed.

Lemma fold_addStatusCount_total L :
  ~ In (Some "total") L ->
  forall r,
    stat_total (fold_left addStatusCount (map rowOf L) r)
    = stat_total r + Z.of_nat (list_sum (map cnt L)).
Proof.
  induction L as [|st L IH]; intros Hnot r; simpl; [lia|].
  rewrite IH by (intros Hin; apply Hnot; now right).
  assert (Hst : st <> Some "total") by (intros ->; apply Hnot; now left).
  assert (Hadd : stat_total (addStatusCount r (rowOf st))
                 = stat_total r + Z.of_nat (cnt st)).
  { unfold addStatusCount, rowOf. cbn [fst snd].
    destruct st as [s|]; [|reflexivity].
    destruct (String.eqb s "pending"); [reflexivity|].
    destruct (String.eqb s "processing"); [reflexivity|].
    destruct (String.eqb s "completed"); [reflexivity|].
    destruct (String.eqb s "failed"); [reflexivity|].
    destruct (String.eqb s "total") eqn:Htotal; [|reflexivity].
    apply String.eqb_eq in Htotal. now subst s. }
  rewrite Hadd. lia.
Qed.

End StatusFold.

Lemma list_sum_indicator {A} (dec : forall a b : A, {a = b} + {a <> b})
  (x : A) (L : list A) :
  NoDup L -> In x L ->
  list_sum (map (fun y => if dec x y then 1%nat else 0%nat) L) = 1%nat.
Proof.
  induction L as [|a L IH]; intros Hnd Hin; [contradiction|].
  inversion Hnd as [|b bs Hnotin Hnd']; subst. simpl.
  destruct (dec x a) as [->|Hneq].
  - assert (Hzero : list_sum (map (fun y => if dec a y then 1%nat else 0%nat) L)
                    = 0%nat).
    { clear IH Hnd Hnd' Hin. induction L as [|b L IH]; [reflexivity|]. simpl.
      destruct (dec a b) as [->|_]; [exfalso; apply Hnotin; now left|].
      apply IH. intros Hin. apply Hnotin. now right. }
    now rewrite Hzero.
  - destruct Hin as [->|Hin]; [contradiction|]. now apply IH.
Qed.

(** The counts of the groups of a GROUP BY add up to the number of
    rows. *)
Lemma list_sum_count_occ {A} (dec : forall a b : A, {a = b} + {a <> b})
  (l L : list A) :
  NoDup L -> incl l L ->
  list_sum (map (count_occ dec l) L) = List.length l.
Proof.
  intros Hnd. induction l as [|x l IH]; intros Hincl.
  - simpl. induction L as [|a L IHL]; [reflexivity|]. simpl.
    inversion Hnd; subst. now apply IHL.
  - assert (Hsplit : forall ys,
      list_sum (map (count_occ dec (x :: l)) ys)
      = (list_sum (map (fun y => if dec x y then 1%nat else 0%nat) ys)
         + list_sum (map (count_occ dec l) ys))%nat).
    { unfold list_sum. induction ys as [|a ys IHys]; [reflexivity|].
      cbn [map fold_right]. rewrite IHys. cbn [count_occ].
      destruct (dec x a); lia. }
    rewrite Hsplit, IH by (intros y Hy; apply Hincl; now right).
    rewrite list_sum_indicator;
      [reflexivity|exact Hnd|apply Hincl; now left].
Qed.

Lemma count_occ_status (js : list Job) (st : string) :
  count_occ option_string_dec (map job_status js) (Some st)
  = List.length (filter (fun j => opt_eqb (job_status j) st) js).
Proof.
  induction js as [|j js IH]; [reflexivity|]. simpl.
  destruct (option_string_dec (job_status j) (Some st)) as [Heq|Hneq].
  - rewrite Heq. simpl. rewrite String.eqb_refl. simpl. now rewrite IH.
  - destruct (job_status j) as [s|]; simpl; [|exact IH].
    destruct (String.eqb s st) eqn:Hs; [|exact IH].
    apply String.eqb_eq in Hs. now subst s.
Qed.

(** X18. The statistics of the queue are its real counts: when the query is
    answered and no row has the status [total], [getJobStats] returns for
    each of the four statuses the number of rows in it, and as total the
    number of all rows, those of other or no status included. *)
Theorem getJobStats_counts_the_queue :
  forall E w,
    dbFails E (dbOps w) = false ->
    (forall j, In j (jobQueue w) -> job_status j <> Some "total") ->
    let count := fun st =>
      Z.of_nat (List.length
                  (filter (fun j => opt_eqb (job_status j) st) (jobQueue w))) in
    fst (getJobStats E w)
    = Ok (mkJobStats (count "pending") (count "processing")
            (count "completed") (count "failed")
            (Z.of_nat (List.length (jobQueue w)))).
Proof.
  intros E w Hdb Hnototal count. unfold getJobStats. run_monad.
  rewrite Hdb. simpl. f_equal. unfold statusCounts.
  set (sts := map job_status (jobQueue w)).
  set (L := nodup option_string_dec sts).
  set (r := fold_left addStatusCount _ _).
  assert (Hcounter : forall proj key,
    (forall r n, proj (addStatusCount r (Some key, n)) = n) ->
    (forall r st n, st <> Some key ->
                    proj (addStatusCount r (st, n)) = proj r) ->
    proj (mkJobStats 0 0 0 0 0) = 0 ->
    proj r = count key).
  { intros proj key Hset Hother Hzero. unfold r.
    rewrite (fold_addStatusCount_counter (count_occ option_string_dec sts)
               proj key Hset Hother), Hzero.
    unfold count. rewrite <- count_occ_status. fold sts.
    destruct (in_dec option_string_dec (Some key) L) as [_|Hnotin];
      [reflexivity|].
    unfold L in Hnotin. rewrite nodup_In in Hnotin.
    apply (count_occ_not_In option_string_dec) in Hnotin.
    now rewrite Hnotin. }
  assert (Hpending : stat_pending r = count "pending").
  { apply Hcounter; [reflexivity| |reflexivity].
    intros r0 [s|] n Hneq; [|reflexivity].
    unfold addStatusCount. cbn [fst snd].
    destruct (String.eqb s "pending") eqn:H1;
      [apply String.eqb_eq in H1; subst s; now contradict Hneq|].
    repeat (destruct (String.eqb s _)); reflexivity. }
  assert (Hprocessing : stat_processing r = count "processing").
  { apply Hcounter; [reflexivity| |reflexivity].
    intros r0 [s|] n Hneq; [|reflexivity].
    unfold addStatusCount. cbn [fst snd].
    destruct (String.eqb s "pending"); [reflexivity|].
    destruct (String.eqb s "processing") eqn:H1;
      [apply String.eqb_eq in H1; subst s; now contradict Hneq|].
    repeat (destruct (String.eqb s _)); reflexivity. }
  assert (Hcompleted : stat_completed r = count "completed").
  { apply Hcounter; [reflexivity| |reflexivity].
    intros r0 [s|] n Hneq; [|reflexivity].
    unfold addStatusCount. cbn [fst snd].
    destruct (String.eqb s "pending"); [reflexivity|].
    destruct (String.eqb s "processing"); [reflexivity|].
    destruct (String.eqb s "completed") eqn:H1;
      [apply String.eqb_eq in H1; subst s; now contradict Hneq|].
    repeat (destruct (String.eqb s _)); reflexivity. }
  assert (Hfailed : stat_failed r = count "failed").
  { apply Hcounter; [reflexivity| |reflexivity].
    intros r0 [s|] n Hneq; [|reflexivity].
    unfold addStatusCount. cbn [fst snd].
    destruct (String.eqb s "pending"); [reflexivity|].
    destruct (String.eqb s "processing"); [reflexivity|].
    destruct (String.eqb s "completed"); [reflexivity|].
    destruct (String.eqb s "failed") eqn:H1;
      [apply String.eqb_eq in H1; subst s; now contradict Hneq|].
    repeat (destruct (String.eqb s _)); reflexivity. }
  assert (Htotal : stat_total r = Z.of_nat (List.length (jobQueue w))).
  { unfold r.
    rewrite (fold_addStatusCount_total (count_occ option_string_dec sts)).
    - simpl. f_equal. unfold L.
      rewrite list_sum_count_occ;
        [unfold sts; apply length_map|apply NoDup_nodup|].
      intros st Hst. now apply nodup_In.
    - unfold L. rewrite nodup_In. unfold sts. rewrite in_map_iff.
      intros [j [Hst Hj]]. exact (Hnototal j Hj Hst). }
  destruct r as [a b c d e]. simpl in *. congruence.
Qed.

Lemma getJobStats_counts_the_queue_witness :
  let count := fun st =>
    Z.of_nat (List.length
                (filter (fun j => opt_eqb (job_status j) st)
                        (jobQueue Scenario.purgeWorld))) in
  fst (getJobStats Scenario.env0 Scenario.purgeWorld)
  = Ok (mkJobStats (count "pending") (count "processing")
          (count "completed") (count "failed")
          (Z.of_nat (List.length (jobQueue Scenario.purgeWorld)))).
Proof.
  apply (getJobStats_counts_the_queue Scenario.env0 Scenario.purgeWorld).
  - reflexivity.
  - intros j Hj. simpl in Hj.
    repeat (destruct Hj as [<-|Hj]; [discriminate|]). contradiction.
Defined.

(* ------------------------------------------------------------------ *)
(** ** Updates with their media *)

Lemma map_get_set_same {V} (m : list (Id * V)) k v :
  map_get (map_set m k v) k = Some v.
Proof.
  induction m as [|[k' v'] m IH]; simpl.
  - now rewrite String.eqb_refl.
  - destruct (String.eqb k' k) eqn:Hk; simpl.
    + now rewrite String.eqb_refl.
    + now rewrite Hk.
Qed.

Lemma map_get_set_other {V} (m : list (Id * V)) k k' v :
  k' <> k -> map_get (map_set m k' v) k = map_get m k.
Proof.
  intros Hneq. induction m as [|[k0 v0] m IH]; simpl.
  - apply String.eqb_neq in Hneq. now rewrite Hneq.
  - destruct (String.eqb k0 k') eqn:Hk0; simpl.
    + apply String.eqb_eq in Hk0. subst k0.
      apply String.eqb_neq in Hneq. now rewrite Hneq.
    + destruct (String.eqb k0 k); [reflexivity|exact IH].
Qed.

(** The map built by the grouping loop holds, under each update id, the
    rows of that update in their order. *)
Lemma groupByUpdate_get {V} (key : V -> Id) (rows : list V) k :
  or_empty (map_get (groupByUpdate key rows) k)
  = filter (fun row => String.eqb (key row) k) rows.
Proof.
  unfold groupByUpdate.
  change (filter (fun row => String.eqb (key row) k) rows)
    with (or_empty (map_get (@nil (Id * list V)) k)
          ++ filter (fun row => String.eqb (key row) k) rows).
  generalize (@nil (Id * list V)) as m.
  induction rows as [|row rows IH]; intros m; simpl.
  - now rewrite app_nil_r.
  - rewrite IH. destruct (String.eqb (key row) k) eqn:Hk.
    + apply String.eqb_eq in Hk. subst k. rewrite map_get_set_same. simpl.
      now rewrite <- app_assoc.
    + apply String.eqb_neq in Hk. now rewrite map_get_set_other.
Qed.

Lemma filter_filter_sub {A} (f g : A -> bool) (l : list A) :
  (forall x, f x = true -> g x = true) ->
  filter f (filter g l) = filter f l.
Proof.
  intros Hfg. induction l as [|a l IH]; simpl; [reflexivity|].
  destruct (g a) eqn:Hg; simpl.
  - now rewrite IH.
  - destruct (f a) eqn:Hf; [|exact IH].
    rewrite (Hfg a Hf) in Hg. discriminate.
Qed.

Lemma inArray_nil x : inArray x [] = false.
Proof. reflexivity. Qed.


Lemma getUpdatesWithMedia_run E updateIds w :
  dbReachable E ->
  exists w1,
    getUpdatesWithMedia E updateIds w
    = (Ok (map (withMedia w)
               (filter (fun u => inArray (upd_id u) updateIds) (updates w))),
       w1)
    /\ jobQueue w1 = jobQueue w
    /\ outbox w1 = outbox w
    /\ digestSubscriptions w1 = digestSubscriptions w.
Proof.
  intros Hdb. unfold getUpdatesWithMedia.
  destruct updateIds as [|i0 ids]; simpl List.length; cbn [Nat.eqb].
  - exists w. unfold ret. rewrite filter_none; [now repeat split|].
    intros u _. reflexivity.
  - run_monad. rewrite !Hdb. simpl. eexists.
    split; [apply (f_equal2 pair); [f_equal|reflexivity]|now split].
    apply map_ext_in. intros u Hu.
    apply filter_In in Hu as [_ Hu]. unfold withMedia.
    rewrite !groupByUpdate_get. f_equal.
    + apply filter_filter_sub. intros i Hi. apply String.eqb_eq in Hi.
      now rewrite Hi.
    + apply filter_filter_sub. intros l Hl. apply String.eqb_eq in Hl.
      now rewrite Hl.
Qed.

(** X19. [getUpdatesWithMedia] returns the requested updates that exist, in
    the order of the table, each with exactly its own images and links in
    the order of their tables; an id without a row is skipped, and an
    update without media gets empty lists. *)
Theorem getUpdatesWithMedia_attaches_own_media :
  forall E updateIds w,
    dbReachable E ->
    fst (getUpdatesWithMedia E updateIds w)
    = Ok (map (withMedia w)
              (filter (fun u => inArray (upd_id u) updateIds) (updates w))).
Proof.
  intros E updateIds w Hdb.
  destruct (getUpdatesWithMedia_run E updateIds w Hdb) as [w1 [Hrun _]].
  now rewrite Hrun.
Qed.

Lemma getUpdatesWithMedia_attaches_own_media_witness :
  fst (getUpdatesWithMedia Scenario.env0 ["u-1"; "missing"] Scenario.world1)
  = Ok (map (withMedia Scenario.world1)
            (filter (fun u => inArray (upd_id u) ["u-1"; "missing"])
                    (updates Scenario.world1))).
Proof.
  apply (getUpdatesWithMedia_attaches_own_media Scenario.env0).
  intros n. reflexivity.
Defined.

(* ------------------------------------------------------------------ *)
(** ** Instant notifications *)

Lemma dbCall_run E w :
  dbFails E (dbOps w) = false -> dbCall E w = (Ok tt, set_dbOps S w).
Proof. intros Hdb. unfold dbCall. now rewrite Hdb. Qed.

Lemma gets_run {A} (f : World -> A) w : gets f w = (Ok (f w), w).
Proof. reflexivity. Qed.

Lemma getProject_run E projectId w :
  dbFails E (dbOps w) = false ->
  getProject E projectId w
  = (Ok (hd_error (filter (fun p => String.eqb (proj_id p) projectId)
                          (projects w))),
     set_dbOps S w).
Proof. intros Hdb. unfold getProject. run_monad. now rewrite Hdb. Qed.

Lemma updateLastSentAt_run E ids w :
  dbReachable E ->
  exists w',
    updateLastSentAt E ids w = (Ok tt, w')
    /\ jobQueue w' = jobQueue w
    /\ outbox w' = outbox w.
Proof.
  intros Hdb. unfold updateLastSentAt.
  destruct (List.length ids =? 0)%nat; [exists w; now repeat split|].
  run_monad. rewrite Hdb. simpl. eexists. now repeat split.
Qed.

Section InstantLog.

Variable E : Env.
Variable project : Project.
Variable update : UpdateWithMedia.

Let notify := fun subscriber =>
  bind (sendInstantUpdate E (sub_email subscriber) project update)
       (fun result => ret (sub_id subscriber, result)).

Let body := fun (batch : list Subscription) (successfulIds : list Id) =>
  bind (promise_all notify batch)
       (fun results =>
          ret (successfulIds
               ++ map fst (filter (fun r => success (snd r)) results))).

(** A batch hands one instant notification per subscriber to the
    transport, in the order of the batch. *)
Lemma promise_all_instant_log batch w :
  exists results log,
    promise_all notify batch w
    = (Ok results, set_outbox (fun o => o ++ log) w)
    /\ map fst log = map (instantEmail project update) batch.
Proof.
  revert w. induction batch as [|x batch IH]; intros w.
  - exists [], []. split; [|reflexivity]. simpl. unfold ret. f_equal.
    destruct w. simpl. now rewrite app_nil_r.
  - cbn [promise_all].
    destruct (sendEmail_run E (instantEmail project update x) w)
      as [res Hsend].
    assert (Hx : notify x w
                 = (Ok (sub_id x, res),
                    set_outbox (fun o =>
                      o ++ [(instantEmail project update x, res)]) w)).
    { unfold notify, sendInstantUpdate.
      fold (instantEmail project update x).
      now rewrite (bind_Ok _ _ _ _ _ Hsend). }
    rewrite (bind_Ok _ _ _ _ _ Hx).
    destruct (IH (set_outbox (fun o =>
                    o ++ [(instantEmail project update x, res)]) w))
      as [results [log [Hrun Hlog]]].
    rewrite (bind_Ok _ _ _ _ _ Hrun).
    exists ((sub_id x, res) :: results),
           ((instantEmail project update x, res) :: log).
    split; [|simpl; now rewrite Hlog].
    unfold ret. f_equal. simpl. now rewrite <- app_assoc.
Qed.

Lemma for_batches_instant_log fuel xs acc w :
  (List.length xs <= fuel)%nat ->
  exists acc' log,
    for_batches fuel BATCH_SIZE xs body acc w
    = (Ok acc', set_outbox (fun o => o ++ log) w)
    /\ map fst log = map (instantEmail project update) xs.
Proof.
  revert xs acc w. induction fuel as [|fuel IH]; intros xs acc w Hlen.
  - destruct xs; [|simpl in Hlen; lia]. exists acc, [].
    split; [|reflexivity]. simpl. unfold ret. f_equal.
    destruct w. simpl. now rewrite app_nil_r.
  - destruct xs as [|x xs].
    { exists acc, []. split; [|reflexivity]. simpl. unfold ret. f_equal.
      destruct w. simpl. now rewrite app_nil_r. }
    cbn [for_batches].
    destruct (promise_all_instant_log (firstn BATCH_SIZE (x :: xs)) w)
      as [results [log1 [Hrun Hlog1]]].
    set (acc1 := acc ++ map fst (filter (fun r => success (snd r)) results)).
    assert (Hbody : body (firstn BATCH_SIZE (x :: xs)) acc w
                    = (Ok acc1, set_outbox (fun o => o ++ log1) w)).
    { unfold body. now rewrite (bind_Ok _ _ _ _ _ Hrun). }
    rewrite (bind_Ok _ _ _ _ _ Hbody).
    assert (Hrest : (List.length (skipn BATCH_SIZE (x :: xs)) <= fuel)%nat).
    { rewrite length_skipn.
      change (List.length (x :: xs)) with (S (List.length xs)).
      simpl in Hlen. unfold BATCH_SIZE. lia. }
    destruct (IH _ acc1 (set_outbox (fun o => o ++ log1) w) Hrest)
      as [acc' [log2 [Hrun2 Hlog2]]].
    exists acc', (log1 ++ log2). split.
    + rewrite Hrun2. f_equal. simpl. now rewrite <- app_assoc.
    + rewrite map_app, Hlog1, Hlog2, <- map_app.
      now rewrite (firstn_skipn BATCH_SIZE (x :: xs)).
Qed.

End InstantLog.

Lemma processInstantDigest_run E w projectId updateId subscriberIds
  project u rest :
  dbReachable E ->
  hd_error (filter (fun p => String.eqb (proj_id p) projectId) (projects w))
  = Some project ->
  filter (fun u => inArray (upd_id u) [updateId]) (updates w) = u :: rest ->
  exists w' log,
    processInstantDigest E (InstantPayload projectId updateId subscriberIds) w
    = (Ok tt, w')
    /\ jobQueue w' = jobQueue w
    /\ outbox w' = outbox w ++ log
    /\ map fst log
       = map (instantEmail project (withMedia w u))
             (filter (fun s => inArray (sub_id s) subscriberIds)
                     (digestSubscriptions w)).
Proof.
  intros Hdb Hproj Hupd. unfold processInstantDigest.
  rewrite (bind_Ok _ _ _ _ _ (getProject_run E projectId w (Hdb _))), Hproj.
  destruct (getUpdatesWithMedia_run E [updateId] (set_dbOps S w) Hdb)
    as [w1 [Hmedia [Hjobs1 [Hout1 Hsubs1]]]].
  rewrite (bind_Ok _ _ _ _ _ Hmedia).
  change (updates (set_dbOps S w)) with (updates w). rewrite Hupd. cbn [map].
  change (withMedia (set_dbOps S w) u) with (withMedia w u).
  change (jobQueue (set_dbOps S w)) with (jobQueue w) in Hjobs1.
  change (outbox (set_dbOps S w)) with (outbox w) in Hout1.
  change (digestSubscriptions (set_dbOps S w))
    with (digestSubscriptions w) in Hsubs1.
  rewrite (bind_Ok _ _ _ _ _ (dbCall_run E w1 (Hdb _))).
  rewrite (bind_Ok _ _ _ _ _
             (gets_run (fun w0 => filter (fun s => inArray (sub_id s)
                                            subscriberIds)
                                         (digestSubscriptions w0)) _)).
  change (digestSubscriptions (set_dbOps S w1))
    with (digestSubscriptions w1). rewrite Hsubs1.
  set (subscribers := filter _ (digestSubscriptions w)).
  destruct (for_batches_instant_log E project (withMedia w u)
              (List.length subscribers) subscribers []
              (set_dbOps S w1) (le_n _))
    as [acc [log [Hrun Hlog]]].
  rewrite (bind_Ok _ _ _ _ _ Hrun).
  destruct (updateLastSentAt_run E acc
              (set_outbox (fun o => o ++ log) (set_dbOps S w1)) Hdb)
    as [w' [Hmark [Hjobs' Hout']]].
  exists w', log. split; [exact Hmark|].
  split; [rewrite Hjobs'; simpl; exact Hjobs1|].
  split; [|exact Hlog].
  rewrite Hout'. simpl. now rewrite Hout1.
Qed.

(** X20. What an instant job sends: with a reachable database, an existing
    project and an existing update, [processInstantDigest] returns and
    hands to the transport one instant notification, carrying the update
    with its own images and links, for each row of the subscription table
    whose id is listed in the payload, in the order of the table, and
    nothing else; a listed id without a row gets nothing. *)
Theorem instant_digest_notifies_each_listed_subscriber :
  forall E w projectId updateId subscriberIds project u rest,
    dbReachable E ->
    hd_error (filter (fun p => String.eqb (proj_id p) projectId) (projects w))
    = Some project ->
    filter (fun u => inArray (upd_id u) [updateId]) (updates w) = u :: rest ->
    let r := processInstantDigest E
               (InstantPayload projectId updateId subscriberIds) w in
    fst r = Ok tt
    /\ exists log,
         outbox (snd r) = outbox w ++ log
         /\ map fst log
            = map (instantEmail project (withMedia w u))
                  (filter (fun s => inArray (sub_id s) subscriberIds)
                          (digestSubscriptions w)).
Proof.
  intros E w projectId updateId subscriberIds project u rest Hdb Hproj Hupd r.
  destruct (processInstantDigest_run E w projectId updateId subscriberIds
              project u rest Hdb Hproj Hupd)
    as [w' [log [Hrun [_ [Hout Hlog]]]]].
  subst r. rewrite Hrun. split; [reflexivity|]. now exists log.
Qed.

Lemma instant_digest_notifies_each_listed_subscriber_witness :
  let r := processInstantDigest Scenario.env0
             (InstantPayload "p1" "u-2" ["s-a"; "s-gone"; "s-c"])
             Scenario.world1 in
  fst r = Ok tt
  /\ exists log,
       outbox (snd r) = outbox Scenario.world1 ++ log
       /\ map fst log
          = map (instantEmail Scenario.p1
                   (withMedia Scenario.world1 Scenario.upd2))
                (filter (fun s => inArray (sub_id s) ["s-a"; "s-gone"; "s-c"])
                        (digestSubscriptions Scenario.world1)).
Proof.
  apply (instant_digest_notifies_each_listed_subscriber Scenario.env0
           Scenario.world1 "p1" "u-2" ["s-a"; "s-gone"; "s-c"]
           Scenario.p1 Scenario.upd2 []).
  - intros n. reflexivity.
  - reflexivity.
  - reflexivity.
Defined.

(** X21. An instant job whose project or update is gone sends nothing: it
    throws, no e-mail is handed to the transport and no subscription is
    written. *)
Theorem instant_digest_without_target_sends_nothing :
  forall E w projectId updateId subscriberIds,
    hd_error (filter (fun p => String.eqb (proj_id p) projectId) (projects w))
    = None
    \/ filter (fun u => inArray (upd_id u) [updateId]) (updates w) = [] ->
    let r := processInstantDigest E
               (InstantPayload projectId updateId subscriberIds) w in
    (exists msg, fst r = Throw msg)
    /\ outbox (snd r) = outbox w
    /\ digestSubscriptions (snd r) = digestSubscriptions w.
Proof.
  intros E w projectId updateId subscriberIds Hgone r. subst r.
  unfold processInstantDigest, getProject, getUpdatesWithMedia.
  run_monad.
  destruct (dbFails E (dbOps w)); simpl; [split; [eexists|]; now split|].
  destruct (hd_error (filter _ (projects w))) as [project|] eqn:Hproj; simpl;
    [|split; [eexists|]; now split].
  destruct Hgone as [Hgone|Hgone]; [discriminate|].
  destruct (dbFails E (S (dbOps w))); simpl; [split; [eexists|]; now split|].
  destruct (dbFails E (S (S (dbOps w)))); simpl;
    [split; [eexists|]; now split|].
  destruct (dbFails E (S (S (S (dbOps w))))); simpl;
    [split; [eexists|]; now split|].
  rewrite Hgone. simpl. split; [eexists|]; now split.
Qed.

Lemma instant_digest_without_target_sends_nothing_witness :
  let r := processInstantDigest Scenario.env0
             (InstantPayload "p1" "u-deleted" ["s-a"]) Scenario.world1 in
  (exists msg, fst r = Throw msg)
  /\ outbox (snd r) = outbox Scenario.world1
  /\ digestSubscriptions (snd r) = digestSubscriptions Scenario.world1.
Proof.
  apply (instant_digest_without_target_sends_nothing Scenario.env0
           Scenario.world1 "p1" "u-deleted" ["s-a"]).
  right. reflexivity.
Defined.

(* ------------------------------------------------------------------ *)
(** ** From a published update to the instant notifications *)

Lemma filter_listed_ids (p : Subscription -> bool) (l : list Subscription) :
  NoDup (map sub_id l) ->
  filter (fun s => inArray (sub_id s) (map sub_id (filter p l))) l
  = filter p l.
Proof.
  intros Hnd. apply filter_ext_in. intros s Hs.
  destruct (p s) eqn:Hp.
  - apply In_inArray, in_map, filter_In. now split.
  - destruct (inArray (sub_id s) (map sub_id (filter p l))) eqn:Hin;
      [|reflexivity].
    apply inArray_In, in_map_iff in Hin. destruct Hin as [s' [Hid Hs']].
    apply filter_In in Hs' as [Hs' Hp'].
    assert (s' = s) by (apply (NoDup_map_eq sub_id l); auto).
    subst s'. congruence.
Qed.

Section InstantPipeline.

Variable E : Env.
Hypothesis Hdb : dbReachable E.

Lemma triggerInstantDigest_run projectId updateId w s ss :
  subscribersOf projectId "instant" (digestSubscriptions w) = s :: ss ->
  exists job w1,
    triggerInstantDigest E projectId updateId w = (Ok tt, w1)
    /\ jobQueue w1 = jobQueue w ++ [job]
    /\ job_type job = "instant_digest"
    /\ job_payload job
       = InstantPayload projectId updateId (map sub_id (s :: ss))
    /\ job_status job = Some "pending"
    /\ job_scheduledFor job = Some (clock E (clockReads w))
    /\ (clockReads w <= clockReads w1)%nat
    /\ digestSubscriptions w1 = digestSubscriptions w
    /\ updates w1 = updates w
    /\ images w1 = images w
    /\ links w1 = links w
    /\ projects w1 = projects w
    /\ outbox w1 = outbox w.
Proof.
  intros Hsubs. unfold triggerInstantDigest.
  rewrite (bind_Ok _ _ _ _ _ (dbCall_run E w (Hdb _))).
  rewrite (bind_Ok _ _ _ _ _
             (gets_run (fun w0 => subscribersOf projectId "instant"
                                    (digestSubscriptions w0)) _)).
  change (digestSubscriptions (set_dbOps S w)) with (digestSubscriptions w).
  rewrite Hsubs. cbn [List.length Nat.eqb].
  unfold enqueueJob. run_monad. rewrite Hdb. simpl.
  do 2 eexists. split; [reflexivity|]. simpl. repeat split. lia.
Qed.

Lemma getPendingJobs_single w job t :
  jobQueue w = [job] ->
  job_status job = Some "pending" ->
  job_scheduledFor job = Some t ->
  t <= clock E (clockReads w) ->
  getPendingJobs E 10 w = (Ok [job], set_dbOps S (set_clockReads S w)).
Proof.
  intros Hqueue Hstatus Hsched Hdue. unfold getPendingJobs. run_monad.
  rewrite Hdb, Hqueue. simpl. rewrite Hstatus, Hsched. simpl.
  apply Z.leb_le in Hdue. now rewrite Hdue.
Qed.

Lemma markJobProcessing_run jobId w :
  exists w',
    markJobProcessing E jobId w = (Ok tt, w')
    /\ Forall2 (fun j j' => job_id j' = job_id j)
               (jobQueue w) (jobQueue w')
    /\ digestSubscriptions w' = digestSubscriptions w
    /\ updates w' = updates w
    /\ images w' = images w
    /\ links w' = links w
    /\ projects w' = projects w
    /\ outbox w' = outbox w.
Proof.
  unfold markJobProcessing. run_monad. rewrite Hdb. simpl.
  eexists. split; [reflexivity|]. simpl. repeat split.
  induction (jobQueue w) as [|j js IH]; simpl; constructor; [|exact IH].
  now destruct (String.eqb (job_id j) jobId).
Qed.

Lemma markJobCompleted_run jobId w :
  exists w',
    markJobCompleted E jobId w = (Ok tt, w')
    /\ Forall2 (fun j j' => job_id j' = job_id j)
               (jobQueue w) (jobQueue w')
    /\ (forall j', In j' (jobQueue w') -> job_id j' = jobId ->
                   job_status j' = Some "completed")
    /\ outbox w' = outbox w.
Proof.
  unfold markJobCompleted. run_monad. rewrite Hdb. simpl.
  eexists. split; [reflexivity|]. simpl. split; [|split; [|reflexivity]].
  - induction (jobQueue w) as [|j js IH]; simpl; constructor; [|exact IH].
    now destruct (String.eqb (job_id j) jobId).
  - intros j' Hin Hid. apply in_map_iff in Hin. destruct Hin as [j [Hj _]].
    destruct (String.eqb (job_id j) jobId) eqn:Hjid; subst j'; [reflexivity|].
    apply String.eqb_neq in Hjid. contradiction.
Qed.

End InstantPipeline.

(** X22. From publication to inbox.  With a reachable database, a clock
    that does not go back, an idle queue and unique subscription ids,
    [triggerInstantDigest] for an existing update of an existing project,
    followed by one run of the job processor, hands to the transport
    exactly one instant notification of that update for each subscriber of
    the project at the frequency [instant], in the order of the table, and
    leaves the job completed. *)
Theorem published_update_reaches_instant_subscribers :
  forall E w projectId updateId project u rest,
    dbReachable E ->
    clockMonotone E ->
    jobQueue w = [] ->
    NoDup (map sub_id (digestSubscriptions w)) ->
    hd_error (filter (fun p => String.eqb (proj_id p) projectId) (projects w))
    = Some project ->
    filter (fun u => inArray (upd_id u) [updateId]) (updates w) = u :: rest ->
    let r := bind (triggerInstantDigest E projectId updateId)
                  (fun _ => runJobProcessor E) w in
    fst r = Ok tt
    /\ (exists log,
          outbox (snd r) = outbox w ++ log
          /\ map fst log
             = map (instantEmail project (withMedia w u))
                   (subscribersOf projectId "instant"
                                  (digestSubscriptions w)))
    /\ forall j, In j (jobQueue (snd r)) -> job_status j = Some "completed".
Proof.
  intros E w projectId updateId project u rest Hdb Hmono Hidle Hids Hproj
    Hupd r. subst r.
  destruct (subscribersOf projectId "instant" (digestSubscriptions w))
    as [|s ss] eqn:Hsubs.
  - assert (Htrig : triggerInstantDigest E projectId updateId w
                    = (Ok tt, set_dbOps S w)).
    { unfold triggerInstantDigest.
      rewrite (bind_Ok _ _ _ _ _ (dbCall_run E w (Hdb _))).
      rewrite (bind_Ok _ _ _ _ _
                 (gets_run (fun w0 => subscribersOf projectId "instant"
                                        (digestSubscriptions w0)) _)).
      change (digestSubscriptions (set_dbOps S w))
        with (digestSubscriptions w).
      now rewrite Hsubs. }
    rewrite (bind_Ok _ _ _ _ _ Htrig).
    unfold runJobProcessor, getPendingJobs. run_monad.
    rewrite Hdb, Hidle. simpl.
    split; [reflexivity|]. split; [|intros j []].
    exists []. now rewrite app_nil_r.
  - destruct (triggerInstantDigest_run E Hdb projectId updateId w s ss Hsubs)
      as [job [w1 [Htrig [Hq1 [Htype [Hpayload [Hstatus [Hsched [Hreads1
           [Hsubs1 [Hupd1 [Himg1 [Hlinks1 [Hproj1 Hout1]]]]]]]]]]]]]].
    rewrite Hidle in Hq1. simpl in Hq1.
    rewrite (bind_Ok _ _ _ _ _ Htrig). unfold runJobProcessor.
    rewrite (bind_Ok _ _ _ _ _
               (getPendingJobs_single E Hdb w1 job _ Hq1 Hstatus Hsched
                  (Hmono _ _ Hreads1))).
    cbn [List.length Nat.eqb for_of].
    set (w2 := set_dbOps S (set_clockReads S w1)).
    unfold processJob.
    destruct (markJobProcessing_run E Hdb (job_id job) w2)
      as [w3 [Hclaim [Hq3 [Hsubs3 [Hupd3 [Himg3 [Hlinks3 [Hproj3 Hout3]]]]]]]].
    assert (Hproj' : hd_error (filter (fun p => String.eqb (proj_id p)
                                                  projectId) (projects w3))
                     = Some project).
    { rewrite Hproj3. unfold w2. simpl. now rewrite Hproj1. }
    assert (Hupd' : filter (fun u => inArray (upd_id u) [updateId])
                           (updates w3) = u :: rest).
    { rewrite Hupd3. unfold w2. simpl. now rewrite Hupd1. }
    destruct (processInstantDigest_run E w3 projectId updateId
                (map sub_id (s :: ss)) project u rest Hdb Hproj' Hupd')
      as [w4 [log [Hsend [Hq4 [Hout4 Hlog]]]]].
    destruct (markJobCompleted_run E Hdb (job_id job) w4)
      as [w5 [Hdone [Hq5 [Hcompleted Hout5]]]].
    assert (Hjob : processJob E job w2 = (Ok tt, w5)).
    { unfold processJob. rewrite (bind_Ok _ _ _ _ _ Hclaim).
      unfold try_catch. rewrite Htype, Hpayload.
      change (String.eqb "instant_digest" "instant_digest") with true.
      cbv iota. rewrite (bind_Ok _ _ _ _ _ Hsend). now rewrite Hdone. }
    fold (processJob E job).
    unfold try_catch, bind. rewrite Hjob. cbn [fst snd ret].
    split; [reflexivity|]. split.
    + assert (Hsubs3' : digestSubscriptions w3 = digestSubscriptions w)
        by (rewrite Hsubs3; exact Hsubs1).
      assert (Hmedia : withMedia w3 u = withMedia w u).
      { unfold withMedia. rewrite Himg3, Hlinks3.
        change (images w2) with (images w1).
        change (links w2) with (links w1). now rewrite Himg1, Hlinks1. }
      exists log. split.
      * rewrite Hout5, Hout4, Hout3. f_equal. exact Hout1.
      * rewrite Hlog, Hsubs3', Hmedia. f_equal. rewrite <- Hsubs.
        unfold subscribersOf. now apply filter_listed_ids.
    + intros j Hj. apply Hcompleted; [exact Hj|].
      assert (Hone : exists j3, jobQueue w3 = [j3] /\ job_id j3 = job_id job).
      { unfold w2 in Hq3. simpl in Hq3. rewrite Hq1 in Hq3.
        inversion Hq3 as [|a b la lb Hab Hrest]; subst.
        inversion Hrest; subst. eexists. split; [reflexivity|exact Hab]. }
      destruct Hone as [j3 [Hq3' Hid3]].
      rewrite Hq3' in Hq4. rewrite Hq4 in Hq5.
      inversion Hq5 as [|a b la lb Hab Hrest Ha Hb]; subst.
      inversion Hrest; subst. rewrite <- Hb in Hj.
      destruct Hj as [<-|[]]. congruence.
Qed.

Lemma published_update_reaches_instant_subscribers_witness :
  let r := bind (triggerInstantDigest Scenario.env0 "p1" "u-2")
                (fun _ => runJobProcessor Scenario.env0) Scenario.world1 in
  fst r = Ok tt
  /\ (exists log,
        outbox (snd r) = outbox Scenario.world1 ++ log
        /\ map fst log
           = map (instantEmail Scenario.p1
                    (withMedia Scenario.world1 Scenario.upd2))
                 (subscribersOf "p1" "instant"
                                (digestSubscriptions Scenario.world1)))
  /\ forall j, In j (jobQueue (snd r)) -> job_status j = Some "completed".
Proof.
  apply (published_update_reaches_instant_subscribers Scenario.env0
           Scenario.world1 "p1" "u-2" Scenario.p1 Scenario.upd2 []).
  - intros n. reflexivity.
  - intros m n Hmn.
    change (Scenario.t0 + Z.of_nat m <= Scenario.t0 + Z.of_nat n). lia.
  - reflexivity.
  - simpl. repeat constructor; simpl; intuition discriminate.
  - reflexivity.
  - reflexivity.
Defined.

(* ------------------------------------------------------------------ *)
(** ** Templates *)

Lemma replaceChar_removes c by_ cs :
  ~ In c (list_ascii_of_string by_) -> ~ In c (replaceChar c by_ cs).
Proof.
  intros Hby. unfold replaceChar. rewrite in_flat_map.
  intros [x [_ Hx]]. destruct (Ascii.eqb x c) eqn:Hxc.
  - contradiction.
  - destruct Hx as [->|[]]. now rewrite Ascii.eqb_refl in Hxc.
Qed.

Lemma replaceChar_keeps_out d c by_ cs :
  ~ In d (list_ascii_of_string by_) -> ~ In d cs ->
  ~ In d (replaceChar c by_ cs).
Proof.
  intros Hby Hcs. unfold replaceChar. rewrite in_flat_map.
  intros [x [Hin Hx]]. destruct (Ascii.eqb x c).
  - contradiction.
  - destruct Hx as [->|[]]. contradiction.
Qed.

Ltac not_in_literal :=
  simpl; intros H;
  repeat (destruct H as [H|H]; [discriminate H|]); exact H.

(** X23. The escaped preview carries no markup: whatever the text, the
    result of [escapeHtml] holds no [<], no [>] and no double quote. *)
Theorem escapeHtml_leaves_no_markup :
  forall text,
    Forall (fun c => c <> "<"%char /\ c <> ">"%char /\ c <> ascii_of_nat 34)
           (list_ascii_of_string (escapeHtml text)).
Proof.
  intros text. apply Forall_forall. intros c Hin. unfold escapeHtml in Hin.
  rewrite list_ascii_of_string_of_list_ascii in Hin.
  repeat split; intros ->; revert Hin.
  - apply replaceChar_keeps_out; [not_in_literal|].
    apply replaceChar_keeps_out; [not_in_literal|].
    apply replaceChar_removes. not_in_literal.
  - apply replaceChar_keeps_out; [not_in_literal|].
    apply replaceChar_removes. not_in_literal.
  - apply replaceChar_removes. not_in_literal.
Qed.

(** X24. The brand colour put into the style attributes is always a
    six-digit hexadecimal colour: [ensureValidColor] returns the colour it
    is given when that is one, and the default colour in every other case
    (no colour, the empty string, anything else). *)
Theorem ensureValidColor_is_hex :
  forall color,
    isHexColor (ensureValidColor color) = true
    /\ ensureValidColor color
       = match color with
         | Some c => if isHexColor c then c else DEFAULT_BRAND_COLOR
         | None => DEFAULT_BRAND_COLOR
         end.
Proof.
  intros color. destruct color as [c|]; simpl; [|split; reflexivity].
  destruct (String.eqb c "") eqn:Hempty; simpl.
  - apply String.eqb_eq in Hempty. subst c. split; reflexivity.
  - destruct (isHexColor c) eqn:Hc; simpl; split;
      [exact Hc|reflexivity|reflexivity|reflexivity].
Qed.

Lemma length_dropSpaces cs : (List.length (dropSpaces cs) <= List.length cs)%nat.
Proof.
  induction cs as [|c cs IH]; simpl; [lia|].
  destruct (isSpace c); simpl; lia.
Qed.

Lemma length_string_of_list cs :
  String.length (string_of_list_ascii cs) = List.length cs.
Proof. induction cs; simpl; congruence. Qed.

Lemma length_list_of_string s :
  List.length (list_ascii_of_string s) = String.length s.
Proof. induction s; simpl; congruence. Qed.

Lemma length_append s t :
  String.length (s ++ t) = (String.length s + String.length t)%nat.
Proof. induction s; simpl; congruence. Qed.

Lemma length_trim s : (String.length (trim s) <= String.length s)%nat.
Proof.
  unfold trim. rewrite length_string_of_list, length_rev.
  etransitivity; [apply length_dropSpaces|]. rewrite length_rev.
  etransitivity; [apply length_dropSpaces|]. now rewrite length_list_of_string.
Qed.

(** X25. A preview is at most three characters longer than the limit, and a
    text within the limit is shown as it is. *)
Theorem truncate_bounds_preview :
  forall text maxLength,
    (String.length (truncate text maxLength) <= maxLength + 3)%nat
    /\ (truncate text maxLength = text
        \/ (maxLength < String.length text)%nat).
Proof.
  intros text maxLength. unfold truncate.
  destruct (String.length text <=? maxLength)%nat eqn:Hlen.
  - apply Nat.leb_le in Hlen. split; [lia|now left].
  - apply Nat.leb_gt in Hlen. split; [|now right].
    rewrite length_append. simpl.
    pose proof (length_trim (string_of_list_ascii
      (firstn maxLength (list_ascii_of_string text)))) as Ht.
    rewrite length_string_of_list, length_firstn in Ht. lia.
Qed.
